(** * peer-chat: the console peer (console-go/main.go)

    A shallow embedding of the console peer and the properties of its
    identity store, invite handling, direct messaging and DHT mailbox.

    The program is a thin layer over external collaborators (the libp2p
    host, the Kademlia DHT, encoding/json, go-multiaddr, the file system).
    Their calls that touch the outside world are the operations of a small
    free monad [Prog]; a run of a program under a handler records every
    call with its answer in a trace.  Their pure functions are the fields
    of the class [Libs].  The functions of main.go are written in [Prog]
    over an arbitrary [Libs]; the inbound stream handler reads from a
    [Reader] over the bytes of the stream.  A reference implementation of
    the collaborators ([Module Ref]) runs the programs on concrete inputs.

    The properties are stated for every [Libs], every world and every
    handler, so for every behaviour of the collaborators; what a property
    needs from a collaborator is a premise of its theorem.

    main itself, with its command loop, printHelp and listPeers, is
    written in [Cli], the same kind of program over the calls of the
    functions above, the prints of main and the life cycle of the host
    and of the DHT ([MainOp]); the command loop reads from a [Reader]
    over the bytes of the standard input. *)

From Stdlib Require Import String Ascii ZArith NArith List Lia Bool.
From stdpp Require Import base gmap strings pretty.
From Equations Require Import Equations.
Import ListNotations.

Local Open Scope Z_scope.
Local Open Scope string_scope.
Local Open Scope list_scope.

(** ** Go values *)

(** A Go [string] and a [[]byte] are both sequences of bytes: [string]. *)

(** Errors of encoding/json. *)
Inductive jsonError : Type :=
| SyntaxError (msg : string)
| UnmarshalTypeError (msg : string).

(** Go [error] values that reach this program. *)
Inductive error : Type :=
| ErrNotFound                      (* routing.ErrNotFound *)
| EOF                              (* io.EOF *)
| ErrJSON (e : jsonError)          (* an error of encoding/json *)
| ErrLib (msg : string)            (* any other error of a collaborator *)
| ErrWrap (prefix : string) (e : error).  (* fmt.Errorf(prefix + "%w", e) *)

(** A call returning [(T, error)]: the value when the error is nil. *)
Inductive result (A : Type) : Type :=
| Ok (a : A)
| Err (e : error).
Arguments Ok {A} a.
Arguments Err {A} e.

(** errors.Is(e, target) for the errors above: follows the %w chain. *)
Fixpoint errorsIs (e target : error) : bool :=
  match e, target with
  | ErrNotFound, ErrNotFound => true
  | EOF, EOF => true
  | ErrWrap _ e', _ => errorsIs e' target
  | _, _ => false
  end.

(** type Message struct { From string; When int64; Body string }.  The
    program does no arithmetic on [When]: it is the clock reading, a
    [Z]. *)
Record Message : Type := { From : string; When : Z; Body : string }.

Definition protocolID : string := "/p2pchat/1.0.0".
Definition dhtMsgKeyPrefix : string := "/p2pchat/messages/".

(** A stream handle of the transport. *)
Definition Stream : Type := nat.

(** ** Pure library functions the program calls *)

Class Libs : Type := {
  PrivKey : Type;
  PeerID : Type;
  Multiaddr : Type;
  (* encoding/json, at the two types the program uses it with.  Unmarshal
     is always called on a fresh zero value; the result is that value
     after the call, and the error. *)
  MarshalMessage : Message -> string;
  UnmarshalMessage : string -> Message * option jsonError;
  MarshalMessages : list Message -> string;
  UnmarshalMessages : string -> list Message * option jsonError;
  (* libp2p core/crypto *)
  UnmarshalPrivateKey : string -> result PrivKey;
  MarshalPrivateKey : PrivKey -> result string;
  (* the identifier of the host built with libp2p.Identity(priv) *)
  IDFromPrivateKey : PrivKey -> PeerID;
  (* libp2p core/peer *)
  peer_String : PeerID -> string;
  peer_Decode : string -> result PeerID;
  (* go-multiaddr *)
  NewMultiaddr : string -> result Multiaddr;
  ma_String : Multiaddr -> string;
  (* peer.AddrInfoFromP2pAddr: the peer identifier and the transport
     addresses (none or one) of a /p2p/ address *)
  AddrInfoFromP2pAddr : Multiaddr -> result (PeerID * list Multiaddr);
  (* peerstore.PermanentAddrTTL *)
  PermanentAddrTTL : Z
}.

(** peer.AddrInfo *)
Definition AddrInfo `{Libs} : Type := (PeerID * list Multiaddr)%type.
Definition ID `{Libs} (pi : AddrInfo) : PeerID := fst pi.
Definition Addrs `{Libs} (pi : AddrInfo) : list Multiaddr := snd pi.

(** ** Console output

    One constructor per print statement of main.go, carrying the values
    that are formatted into the line. *)
Inductive Line : Type :=
| LnStreamReadErr (e : error)         (* "stream read err:" err *)
| LnInvalidMessage (peerAddr raw : string)
                                      (* "invalid message from" p "raw:" line *)
| LnMessage (m : Message)             (* "\n<msg from=%s when=%s> %s\n> " *)
| LnNoListenAddrs                     (* "no listen addresses available. ..." *)
| LnInvite (invite : string)          (* "%s/p2p/%s\n" *)
| LnShareHint                         (* "Share one of the lines above ..." *)
| LnConnected (id : string)           (* "connected to" id *)
| LnSent                              (* "sent" *)
| LnStored                            (* "stored for offline delivery ..." *)
| LnFetched (n : nat)                 (* "fetched %d messages:\n" *)
| LnFetchedMessage (i : nat) (m : Message).
                                      (* "%d) from=%s at=%s\n   %s\n" *)

(** ** Calls into the outside world *)

Section Programs.
Context `{L : Libs}.

Inductive Op : Type -> Type :=
| Stat (path : string) : Op (option error)                 (* os.Stat *)
| ReadFile (path : string) : Op (result string)            (* os.ReadFile *)
| WriteFile (path data : string) (perm : Z) : Op (option error)
| GenerateKeyPair : Op (result PrivKey)  (* crypto.GenerateKeyPairWithReader *)
| Now : Op Z                             (* time.Now().UnixMilli() *)
| Print (l : Line) : Op unit             (* fmt.Println / fmt.Printf *)
| HostAddrs : Op (list Multiaddr)        (* h.Addrs() *)
| AddAddrs (p : PeerID) (addrs : list Multiaddr) (ttl : Z) : Op unit
| Connect (pi : AddrInfo) : Op (option error)              (* h.Connect *)
| NewStream (p : PeerID) (proto : string) : Op (result Stream)
| StreamWrite (s : Stream) (b : string) : Op (option error)
| StreamClose (s : Stream) : Op unit
| GetValue (key : string) : Op (result string)             (* dht.GetValue *)
| PutValue (key value : string) : Op (option error).       (* dht.PutValue *)

(** A program: a tree of calls, each continued with its answer. *)
Inductive Prog (R : Type) : Type :=
| Ret (r : R)
| Do {X : Type} (op : Op X) (k : X -> Prog R).
Arguments Ret {R} r.
Arguments Do {R X} op k.

Fixpoint bind {A B : Type} (p : Prog A) (f : A -> Prog B) : Prog B :=
  match p with
  | Ret a => f a
  | Do op k => Do op (fun x => bind (k x) f)
  end.

Definition call {X : Type} (op : Op X) : Prog X := Do op Ret.

(** A call together with the answer it got. *)
Inductive Event : Type :=
| Ev {X : Type} (op : Op X) (x : X).

(** The outside world: a state and its answer to every call. *)
Definition Handler (W : Type) : Type := forall X : Type, Op X -> W -> X * W.

Fixpoint exec {W R : Type} (h : Handler W) (p : Prog R) (w : W)
  : R * W * list Event :=
  match p with
  | Ret r => (r, w, [])
  | Do op k =>
      let '(x, w1) := h _ op w in
      let '(r, w2, tr) := exec h (k x) w1 in
      (r, w2, Ev op x :: tr)
  end.

End Programs.

Arguments Ret {L R} r.
Arguments Do {L R X} op k.

Declare Scope prog_scope.
Delimit Scope prog_scope with prog.
Notation "x <- c1 ;; c2" := (bind c1 (fun x => c2))
  (at level 100, c1 at next level, right associativity) : prog_scope.
Notation "c1 ;; c2" := (bind c1 (fun _ => c2))
  (at level 100, right associativity) : prog_scope.
Local Open Scope prog_scope.

(** ** MailboxService: storeOfflineMessage, fetchOfflineMessages *)

Section Mailbox.
Context `{L : Libs}.

(** key := dhtMsgKeyPrefix + peerID *)
Definition mailboxKey (peerID : string) : string := dhtMsgKeyPrefix +:+ peerID.

Definition storeOfflineMessage (recipientPeerID from body : string)
  : Prog (option error) :=
  let key := mailboxKey recipientPeerID in
  r <- call (GetValue key) ;;
  (* var msgs []Message; if err == nil { _ = json.Unmarshal(val, &msgs) } *)
  let msgs := match r with
              | Ok val => fst (UnmarshalMessages val)
              | Err _ => []
              end in
  now <- call Now ;;
  let msgs := msgs ++ [ {| From := from; When := now; Body := body |} ] in
  let n := MarshalMessages msgs in
  err <- call (PutValue key n) ;;
  match err with
  | Some e => Ret (Some e)
  | None => call (Print LnStored) ;; Ret None
  end.

(** for i, m := range msgs { fmt.Printf("%d) ...", i+1, ...) } *)
Fixpoint printFetched (i : nat) (msgs : list Message) : Prog unit :=
  match msgs with
  | [] => Ret tt
  | m :: rest =>
      call (Print (LnFetchedMessage (i + 1) m)) ;; printFetched (i + 1) rest
  end.

Definition fetchOfflineMessages (peerID : string) : Prog (option error) :=
  let key := mailboxKey peerID in
  r <- call (GetValue key) ;;
  match r with
  | Err err => Ret (Some (ErrWrap "no messages or error: " err))
  | Ok val =>
      match UnmarshalMessages val with
      | (_, Some e) => Ret (Some (ErrJSON e))
      | (msgs, None) =>
          call (Print (LnFetched (length msgs))) ;;
          printFetched 0 msgs ;;
          Ret None
      end
  end.

End Mailbox.

(** ** IdentityStore: loadOrCreateIdentity *)

Section Identity.
Context `{L : Libs}.



End Identity.

(** ** AddressBook: printInvite, connectPeer *)

(** strings.Contains *)
Fixpoint Contains (s substr : string) : bool :=
  String.prefix substr s ||
  match s with
  | EmptyString => false
  | String _ rest => Contains rest substr
  end.

Section AddressBook.
Context `{L : Libs}.

(** The text of fmt.Printf("%s/p2p/%s\n", a.String(), id) before the
    newline. *)
Definition inviteString (a : Multiaddr) (id : string) : string :=
  ma_String a +:+ "/p2p/" +:+ id.

Fixpoint printInvites (id : string) (addrs : list Multiaddr) : Prog unit :=
  match addrs with
  | [] => Ret tt
  | a :: rest => call (Print (LnInvite (inviteString a id))) ;;
                 printInvites id rest
  end.

(** [self] is h.ID(). *)
Definition printInvite (self : PeerID) : Prog unit :=
  let id := peer_String self in
  addrs <- call HostAddrs ;;
  match addrs with
  | [] => call (Print LnNoListenAddrs)
  | _ => printInvites id addrs ;; call (Print LnShareHint)
  end.

Definition connectPeer (addrStr : string) : Prog (option error) :=
  let parsed :=
    match NewMultiaddr addrStr with
    | Ok maddr => Ok maddr
    | Err err =>
        if Contains addrStr "/p2p/" then NewMultiaddr addrStr else Err err
    end in
  match parsed with
  | Err err => Ret (Some err)
  | Ok maddr =>
      match AddrInfoFromP2pAddr maddr with
      | Err err => Ret (Some err)
      | Ok pi =>
          call (AddAddrs (ID pi) (Addrs pi) PermanentAddrTTL) ;;
          c <- call (Connect pi) ;;
          match c with
          | Some err => Ret (Some err)
          | None => call (Print (LnConnected (peer_String (ID pi)))) ;;
                    Ret None
          end
      end
  end.

End AddressBook.

(** ** DirectMessenger: sendMessage and the inbound stream handler *)

(** The byte '\n'. *)
Definition nl : ascii := "010"%char.

(** [defer d] in front of [body]: [d] runs when [body] returns, whatever
    it returns. *)
Definition defer `{L : Libs} {R : Type} (d : Prog unit) (body : Prog R)
  : Prog R :=
  r <- body ;; d ;; Ret r.

Section Send.
Context `{L : Libs}.

(** [self] is h.ID(). *)
Definition sendMessage (self : PeerID) (peerIDStr body : string)
  : Prog (option error) :=
  match peer_Decode peerIDStr with
  | Err err => Ret (Some err)
  | Ok pid =>
      o <- call (NewStream pid protocolID) ;;
      match o with
      | Err err => Ret (Some err)
      | Ok s =>
          defer (call (StreamClose s))
            (now <- call Now ;;
             let m := {| From := peer_String self; When := now;
                         Body := body |} in
             let b := MarshalMessage m +:+ String nl "" in
             w <- call (StreamWrite s b) ;;
             match w with
             | Some err => Ret (Some err)
             | None => call (Print LnSent) ;; Ret None
             end)
      end
  end.

End Send.

(** *** strings.TrimSpace

    TrimSpace removes the leading and the trailing runs of white-space
    runes (unicode.IsSpace), decoding UTF-8 forwards at the front and
    backwards at the end.  A white-space rune is one of the six ASCII
    bytes below, U+0085 or U+00A0 (two bytes), or one of U+1680,
    U+2000..U+200A, U+2028, U+2029, U+202F, U+205F, U+3000 (three
    bytes); an ill-formed sequence decodes to U+FFFD, which is not white
    space, so a rune is white space exactly when the bytes at that end
    are one of these encodings. *)

Definition byteIs (c : ascii) (n : N) : bool := (N_of_ascii c =? n)%N.
Definition byteIn (c : ascii) (lo hi : N) : bool :=
  ((lo <=? N_of_ascii c) && (N_of_ascii c <=? hi))%N.

(** '\t', '\n', '\v', '\f', '\r', ' ' *)
Definition asciiSpace (c : ascii) : bool := byteIn c 9 13 || byteIs c 32.

(** U+0085 (C2 85), U+00A0 (C2 A0) *)
Definition space2 (a b : ascii) : bool :=
  byteIs a 194 && (byteIs b 133 || byteIs b 160).

(** U+1680 (E1 9A 80), U+2000..U+200A (E2 80 80..8A), U+2028, U+2029,
    U+202F (E2 80 A8, A9, AF), U+205F (E2 81 9F), U+3000 (E3 80 80) *)
Definition space3 (a b c : ascii) : bool :=
  (byteIs a 225 && byteIs b 154 && byteIs c 128)
  || (byteIs a 226 && byteIs b 128
      && (byteIn c 128 138 || byteIs c 168 || byteIs c 169 || byteIs c 175))
  || (byteIs a 226 && byteIs b 129 && byteIs c 159)
  || (byteIs a 227 && byteIs b 128 && byteIs c 128).

(** TrimLeftFunc(s, unicode.IsSpace) *)
Fixpoint trimLeftSpace (l : list ascii) : list ascii :=
  match l with
  | [] => []
  | a :: t =>
      if asciiSpace a then trimLeftSpace t else
      match t with
      | [] => l
      | b :: t' =>
          if space2 a b then trimLeftSpace t' else
          match t' with
          | [] => l
          | c :: t'' => if space3 a b c then trimLeftSpace t'' else l
          end
      end
  end.

(** TrimRightFunc(s, unicode.IsSpace), on the reversed bytes: the last
    byte comes first. *)
Fixpoint trimRightSpaceRev (l : list ascii) : list ascii :=
  match l with
  | [] => []
  | a :: t =>
      if asciiSpace a then trimRightSpaceRev t else
      match t with
      | [] => l
      | b :: t' =>
          if space2 b a then trimRightSpaceRev t' else
          match t' with
          | [] => l
          | c :: t'' => if space3 c b a then trimRightSpaceRev t'' else l
          end
      end
  end.

Definition TrimSpace (s : string) : string :=
  string_of_list_ascii
    (rev (trimRightSpaceRev (rev (trimLeftSpace (list_ascii_of_string s))))).

(** *** bufio.Reader over an inbound stream

    The bytes the remote side still delivers, and the error the stream
    reports after them: io.EOF when the remote side closes it. *)
Record Reader : Type := { pending : string; final : error }.

(** The prefix of [s] up to and including the first [delim], and the
    rest. *)
Fixpoint cutAfter (delim : ascii) (s : string) : option (string * string) :=
  match s with
  | EmptyString => None
  | String c rest =>
      if Ascii.eqb c delim then Some (String c "", rest)
      else match cutAfter delim rest with
           | Some (line, rest') => Some (String c line, rest')
           | None => None
           end
  end.

(** r.ReadString(delim): the data up to and including the delimiter, or
    the data read before the error together with the error. *)
Definition ReadString (delim : ascii) (r : Reader)
  : string * option error * Reader :=
  match cutAfter delim (pending r) with
  | Some (line, rest) => (line, None, {| pending := rest; final := final r |})
  | None => (pending r, Some (final r), {| pending := ""; final := final r |})
  end.

(** err != io.EOF *)
Definition isEOF (e : error) : bool :=
  match e with EOF => true | _ => false end.

Definition inspect {A : Type} (a : A) : { b : A | a = b } := exist _ a eq_refl.

Section Receive.
Context `{L : Libs}.

(** The body of the handler's [for] loop. *)
Equations? readLoop (peerAddr : string) (r : Reader) : Prog unit
  by wf (String.length (pending r)) lt :=
readLoop peerAddr r with inspect (ReadString nl r) := {
  | exist _ (_, Some err, _) _ =>
      if isEOF err then Ret tt else call (Print (LnStreamReadErr err))
  | exist _ (line, None, r') Hread =>
      let line := TrimSpace line in
      match UnmarshalMessage line with
      | (_, Some _) =>
          call (Print (LnInvalidMessage peerAddr line)) ;;
          readLoop peerAddr r'
      | (m, None) =>
          call (Print (LnMessage m)) ;;
          readLoop peerAddr r'
      end }.
Proof.
  all: clear readLoop; unfold ReadString in Hread;
    destruct (cutAfter nl (pending r)) as [[l rest]|] eqn:Hcut;
    [|discriminate]; injection Hread as <- <-; simpl;
    clear - Hcut; revert l rest Hcut;
    induction (pending r) as [|c s IH]; intros l rest; simpl;
    [discriminate|];
    destruct (Ascii.eqb c nl); [intros [= <- <-]; lia|];
    destruct (cutAfter nl s) as [[l' r']|]; [|discriminate];
    intros [= <- <-]; specialize (IH _ _ eq_refl); lia.
Qed.

(** The function given to h.SetStreamHandler(protocolID, ...):
    [peerAddr] is s.Conn().RemotePeer().String() and [r] the bytes of the
    stream. *)
Definition streamHandler (s : Stream) (peerAddr : string) (r : Reader)
  : Prog unit :=
  defer (call (StreamClose s)) (readLoop peerAddr r).

End Receive.

(** * A reference implementation of the collaborators

    Concrete stand-ins for the libraries and the outside world, used to
    run the programs above on concrete inputs.  The JSON codec follows
    encoding/json on ASCII text and well-formed UTF-8 (it copies bytes
    above 0x7F and does not pair surrogate escapes); multiaddrs are
    sequences of named components with the textual syntax of
    go-multiaddr; keys and peer identifiers are plain text. *)

Module Ref.

(** ** encoding/json *)

#[local] Unset Elimination Schemes.
Inductive json : Type :=
| JNull
| JBool (b : bool)
| JNum (lit : string)
| JStr (s : string)
| JArr (l : list json)
| JObj (l : list (string * json)).
#[local] Set Elimination Schemes.

Inductive token : Type :=
| TLBrace | TRBrace | TLBrack | TRBrack | TColon | TComma
| TStr (s : string)
| TNum (lit : string)
| TNull | TTrue | TFalse.

Definition isDigit (c : ascii) : bool := byteIn c 48 57.

(** The white space of JSON: space, '\t', '\n', '\r'. *)
Definition isWS (c : ascii) : bool :=
  byteIs c 32 || byteIs c 9 || byteIs c 10 || byteIs c 13.

Definition hexVal (c : ascii) : option N :=
  let n := N_of_ascii c in
  if byteIn c 48 57 then Some (n - 48)%N
  else if byteIn c 97 102 then Some (n - 87)%N
  else if byteIn c 65 70 then Some (n - 55)%N
  else None.

(** The UTF-8 encoding of a code point below 0x10000; a surrogate half
    becomes U+FFFD. *)
Definition utf8 (cp : N) : list ascii :=
  if (cp <? 128)%N then [ascii_of_N cp]
  else if (cp <? 2048)%N then
    [ascii_of_N (192 + cp / 64); ascii_of_N (128 + cp mod 64)]
  else if ((55296 <=? cp) && (cp <=? 57343))%N then
    [ascii_of_N 239; ascii_of_N 191; ascii_of_N 189]
  else
    [ascii_of_N (224 + cp / 4096); ascii_of_N (128 + (cp / 64) mod 64);
     ascii_of_N (128 + cp mod 64)].

(** The character an escape letter stands for. *)
Definition unescape (e : ascii) : option ascii :=
  if byteIs e 34 || byteIs e 92 || byteIs e 47 then Some e
  else if byteIs e 98 then Some (ascii_of_N 8)
  else if byteIs e 102 then Some (ascii_of_N 12)
  else if byteIs e 110 then Some (ascii_of_N 10)
  else if byteIs e 114 then Some (ascii_of_N 13)
  else if byteIs e 116 then Some (ascii_of_N 9)
  else None.

(** A string literal after its opening quote: the text it denotes and
    what follows the closing quote. *)
Fixpoint scanString (l : list ascii) : option (list ascii * list ascii) :=
  match l with
  | [] => None
  | c :: t =>
      if byteIs c 34 then Some ([], t)
      else if byteIs c 92 then
        match t with
        | [] => None
        | e :: t1 =>
            if byteIs e 117 then
              match t1 with
              | h1 :: h2 :: h3 :: h4 :: t2 =>
                  match hexVal h1, hexVal h2, hexVal h3, hexVal h4 with
                  | Some a, Some b, Some c', Some d =>
                      match scanString t2 with
                      | Some (s, r) =>
                          Some (utf8 (((a * 16 + b) * 16 + c') * 16 + d)%N
                                  ++ s, r)
                      | None => None
                      end
                  | _, _, _, _ => None
                  end
              | _ => None
              end
            else
              match unescape e with
              | Some ch =>
                  match scanString t1 with
                  | Some (s, r) => Some (ch :: s, r)
                  | None => None
                  end
              | None => None
              end
        end
      else if (N_of_ascii c <? 32)%N then None
      else
        match scanString t with
        | Some (s, r) => Some (c :: s, r)
        | None => None
        end
  end.

Fixpoint span (f : ascii -> bool) (l : list ascii)
  : list ascii * list ascii :=
  match l with
  | c :: t => if f c then let (a, b) := span f t in (c :: a, b) else ([], l)
  | [] => ([], [])
  end.

(** A number literal: an optional minus sign, an integer part without a
    leading zero, an optional fraction and an optional exponent. *)
Definition scanNumber (l : list ascii) : option (list ascii * list ascii) :=
  let (sign, l1) :=
    match l with
    | c :: t => if byteIs c 45 then ([c], t) else ([], l)
    | [] => ([], l)
    end in
  let (int, l2) := span isDigit l1 in
  match int with
  | [] => None
  | d :: ds =>
      if byteIs d 48 && negb (Nat.eqb (length ds) 0) then None else
      let frac :=
        match l2 with
        | c :: t =>
            if byteIs c 46 then
              let (fr, l3) := span isDigit t in
              match fr with [] => None | _ => Some (c :: fr, l3) end
            else Some ([], l2)
        | [] => Some ([], l2)
        end in
      match frac with
      | None => None
      | Some (fr, l3) =>
          let ex :=
            match l3 with
            | c :: t =>
                if byteIs c 101 || byteIs c 69 then
                  let (sg, t1) :=
                    match t with
                    | s :: t' =>
                        if byteIs s 43 || byteIs s 45 then ([s], t')
                        else ([], t)
                    | [] => ([], t)
                    end in
                  let (digits, l4) := span isDigit t1 in
                  match digits with
                  | [] => None
                  | _ => Some (c :: sg ++ digits, l4)
                  end
                else Some ([], l3)
            | [] => Some ([], l3)
            end in
          match ex with
          | None => None
          | Some (e, l4) => Some (sign ++ int ++ fr ++ e, l4)
          end
      end
  end.

Fixpoint stripPrefix (p l : list ascii) : option (list ascii) :=
  match p, l with
  | [], _ => Some l
  | a :: p', b :: l' => if Ascii.eqb a b then stripPrefix p' l' else None
  | _ :: _, [] => None
  end.

Definition consTok (t : token) (r : option (list token))
  : option (list token) :=
  match r with Some ts => Some (t :: ts) | None => None end.

Fixpoint lex (fuel : nat) (l : list ascii) : option (list token) :=
  match fuel with
  | O => None
  | S fuel =>
      match l with
      | [] => Some []
      | c :: t =>
          if isWS c then lex fuel t
          else if byteIs c 123 then consTok TLBrace (lex fuel t)
          else if byteIs c 125 then consTok TRBrace (lex fuel t)
          else if byteIs c 91 then consTok TLBrack (lex fuel t)
          else if byteIs c 93 then consTok TRBrack (lex fuel t)
          else if byteIs c 58 then consTok TColon (lex fuel t)
          else if byteIs c 44 then consTok TComma (lex fuel t)
          else if byteIs c 34 then
            match scanString t with
            | Some (s, r) =>
                consTok (TStr (string_of_list_ascii s)) (lex fuel r)
            | None => None
            end
          else if byteIs c 45 || isDigit c then
            match scanNumber l with
            | Some (n, r) =>
                consTok (TNum (string_of_list_ascii n)) (lex fuel r)
            | None => None
            end
          else
            match stripPrefix (list_ascii_of_string "null") l,
                  stripPrefix (list_ascii_of_string "true") l,
                  stripPrefix (list_ascii_of_string "false") l with
            | Some r, _, _ => consTok TNull (lex fuel r)
            | _, Some r, _ => consTok TTrue (lex fuel r)
            | _, _, Some r => consTok TFalse (lex fuel r)
            | _, _, _ => None
            end
      end
  end.

Fixpoint parseValue (fuel : nat) (ts : list token)
  : option (json * list token) :=
  match fuel with
  | O => None
  | S fuel =>
      match ts with
      | TNull :: r => Some (JNull, r)
      | TTrue :: r => Some (JBool true, r)
      | TFalse :: r => Some (JBool false, r)
      | TNum n :: r => Some (JNum n, r)
      | TStr s :: r => Some (JStr s, r)
      | TLBrack :: TRBrack :: r => Some (JArr [], r)
      | TLBrack :: r =>
          match parseValue fuel r with
          | Some (v, r1) =>
              match parseElems fuel r1 with
              | Some (vs, r2) => Some (JArr (v :: vs), r2)
              | None => None
              end
          | None => None
          end
      | TLBrace :: TRBrace :: r => Some (JObj [], r)
      | TLBrace :: TStr k :: TColon :: r =>
          match parseValue fuel r with
          | Some (v, r1) =>
              match parseMembers fuel r1 with
              | Some (kvs, r2) => Some (JObj ((k, v) :: kvs), r2)
              | None => None
              end
          | None => None
          end
      | _ => None
      end
  end
with parseElems (fuel : nat) (ts : list token)
  : option (list json * list token) :=
  match fuel with
  | O => None
  | S fuel =>
      match ts with
      | TRBrack :: r => Some ([], r)
      | TComma :: r =>
          match parseValue fuel r with
          | Some (v, r1) =>
              match parseElems fuel r1 with
              | Some (vs, r2) => Some (v :: vs, r2)
              | None => None
              end
          | None => None
          end
      | _ => None
      end
  end
with parseMembers (fuel : nat) (ts : list token)
  : option (list (string * json) * list token) :=
  match fuel with
  | O => None
  | S fuel =>
      match ts with
      | TRBrace :: r => Some ([], r)
      | TComma :: TStr k :: TColon :: r =>
          match parseValue fuel r with
          | Some (v, r1) =>
              match parseMembers fuel r1 with
              | Some (kvs, r2) => Some ((k, v) :: kvs, r2)
              | None => None
              end
          | None => None
          end
      | _ => None
      end
  end.

(** The JSON value a text denotes, when it is one value and nothing
    else. *)
Definition parse (s : string) : option json :=
  let l := list_ascii_of_string s in
  match lex (S (length l)) l with
  | Some ts =>
      match parseValue (S (length ts)) ts with
      | Some (v, []) => Some v
      | _ => None
      end
  | None => None
  end.

(** *** Decoding into Message and []Message

    An object sets the fields whose names match its keys without regard
    to case and ignores other keys; null leaves the target as it is; a
    value of the wrong kind is recorded as the error (the first one is
    kept) and decoding goes on. *)

Definition lower (c : ascii) : ascii :=
  if byteIn c 65 90 then ascii_of_N (N_of_ascii c + 32) else c.

Definition foldName (s : string) : string :=
  string_of_list_ascii (map lower (list_ascii_of_string s)).

Fixpoint digitsToZ (acc : Z) (l : list ascii) : option Z :=
  match l with
  | [] => Some acc
  | c :: t =>
      if isDigit c
      then digitsToZ (acc * 10 + (Z.of_N (N_of_ascii c) - 48)) t
      else None
  end.

(** The int64 an integer literal denotes. *)
Definition parseInt64 (lit : string) : option Z :=
  let l := list_ascii_of_string lit in
  let r :=
    match l with
    | [] => None
    | c :: t =>
        if byteIs c 45 then option_map Z.opp (digitsToZ 0 t)
        else digitsToZ 0 l
    end in
  match r with
  | Some z =>
      if ((- 2 ^ 63 <=? z) && (z <=? 2 ^ 63 - 1))%Z then Some z else None
  | None => None
  end.

Definition keep (old new : option jsonError) : option jsonError :=
  match old with Some e => Some e | None => new end.

Definition zeroMessage : Message := {| From := ""; When := 0; Body := "" |}.

Definition decodeField (acc : Message * option jsonError)
  (kv : string * json) : Message * option jsonError :=
  let '(m, err) := acc in
  let '(k, v) := kv in
  let name := foldName k in
  if String.eqb name "from" then
    match v with
    | JStr s => ({| From := s; When := When m; Body := Body m |}, err)
    | JNull => acc
    | _ => (m, keep err (Some (UnmarshalTypeError "Message.from")))
    end
  else if String.eqb name "when" then
    match v with
    | JNum lit =>
        match parseInt64 lit with
        | Some z => ({| From := From m; When := z; Body := Body m |}, err)
        | None => (m, keep err (Some (UnmarshalTypeError "Message.when")))
        end
    | JNull => acc
    | _ => (m, keep err (Some (UnmarshalTypeError "Message.when")))
    end
  else if String.eqb name "body" then
    match v with
    | JStr s => ({| From := From m; When := When m; Body := s |}, err)
    | JNull => acc
    | _ => (m, keep err (Some (UnmarshalTypeError "Message.body")))
    end
  else acc.

Definition decodeMessage (j : json) : Message * option jsonError :=
  match j with
  | JObj kvs => fold_left decodeField kvs (zeroMessage, None)
  | JNull => (zeroMessage, None)
  | _ => (zeroMessage, Some (UnmarshalTypeError "Message"))
  end.

Definition decodeElem (acc : list Message * option jsonError) (j : json)
  : list Message * option jsonError :=
  let '(ms, err) := acc in
  let '(m, e) := decodeMessage j in
  (ms ++ [m], keep err e).

Definition decodeMessages (j : json) : list Message * option jsonError :=
  match j with
  | JArr vs => fold_left decodeElem vs ([], None)
  | JNull => ([], None)
  | _ => ([], Some (UnmarshalTypeError "[]Message"))
  end.

(** json.Unmarshal checks the whole text first: on a syntax error the
    target is left untouched. *)
Definition UnmarshalMessage (s : string) : Message * option jsonError :=
  match parse s with
  | Some j => decodeMessage j
  | None => (zeroMessage, Some (SyntaxError "invalid JSON"))
  end.

Definition UnmarshalMessages (s : string)
  : list Message * option jsonError :=
  match parse s with
  | Some j => decodeMessages j
  | None => ([], Some (SyntaxError "invalid JSON"))
  end.

(** *** Encoding *)

Definition dq : ascii := "034"%char.
Definition bsl : ascii := "092"%char.

Definition hexDigit (n : N) : ascii :=
  if (n <? 10)%N then ascii_of_N (48 + n) else ascii_of_N (87 + n).

Definition escapeByte (c : ascii) : list ascii :=
  let n := N_of_ascii c in
  if byteIs c 34 then [bsl; dq]
  else if byteIs c 92 then [bsl; bsl]
  else if byteIs c 10 then [bsl; "n"%char]
  else if byteIs c 13 then [bsl; "r"%char]
  else if byteIs c 9 then [bsl; "t"%char]
  else if (n <? 32)%N || byteIs c 60 || byteIs c 62 || byteIs c 38 then
    [bsl; "u"%char; "0"%char; "0"%char; hexDigit (n / 16); hexDigit (n mod 16)]
  else [c].

Definition encodeString (s : string) : string :=
  string_of_list_ascii
    (dq :: flat_map escapeByte (list_ascii_of_string s) ++ [dq]).

Definition MarshalMessage (m : Message) : string :=
  "{" +:+ encodeString "from" +:+ ":" +:+ encodeString (From m)
  +:+ "," +:+ encodeString "when" +:+ ":" +:+ pretty (When m)
  +:+ "," +:+ encodeString "body" +:+ ":" +:+ encodeString (Body m)
  +:+ "}".

Fixpoint joinWith (sep : string) (l : list string) : string :=
  match l with
  | [] => ""
  | [x] => x
  | x :: rest => x +:+ sep +:+ joinWith sep rest
  end.

(** A nil slice is written as null. *)
Definition MarshalMessages (l : list Message) : string :=
  match l with
  | [] => "null"
  | _ => "[" +:+ joinWith "," (map MarshalMessage l) +:+ "]"
  end.

(** ** go-multiaddr and peer identifiers *)

(** Components: the protocol name and its value (empty for a protocol
    that takes none). *)
Definition Multiaddr : Type := list (string * string).
Definition PeerID : Type := string.

(** Whether the protocol of that name takes a value. *)
Definition protocolWithName (name : string) : option bool :=
  if existsb (String.eqb name)
       ["ip4"; "ip6"; "tcp"; "udp"; "dns"; "dns4"; "dns6"; "dnsaddr"; "p2p"]
  then Some true
  else if existsb (String.eqb name)
            ["quic"; "quic-v1"; "ws"; "wss"; "tls"; "p2p-circuit"]
  then Some false
  else None.

Definition slash : ascii := "/"%char.

(** strings.Split(s, "/") *)
Fixpoint splitSlash (s : string) : list string :=
  match s with
  | EmptyString => [EmptyString]
  | String c t =>
      if Ascii.eqb c slash then EmptyString :: splitSlash t
      else match splitSlash t with
           | h :: r => String c h :: r
           | [] => [String c EmptyString]
           end
  end.

(** strings.TrimRight(s, "/") *)
Fixpoint trimRightSlash (s : string) : string :=
  match s with
  | EmptyString => EmptyString
  | String c t =>
      match trimRightSlash t with
      | EmptyString =>
          if Ascii.eqb c slash then EmptyString else String c EmptyString
      | t' => String c t'
      end
  end.

Fixpoint parseComponents (sp : list string) : result Multiaddr :=
  match sp with
  | [] => Ok []
  | name :: rest =>
      match protocolWithName name with
      | None => Err (ErrLib "no protocol with name")
      | Some false =>
          match parseComponents rest with
          | Ok m => Ok ((name, "") :: m)
          | Err e => Err e
          end
      | Some true =>
          match rest with
          | [] => Err (ErrLib "unexpected end of multiaddr")
          | v :: rest' =>
              if String.eqb v "" then Err (ErrLib "invalid value")
              else match parseComponents rest' with
                   | Ok m => Ok ((name, v) :: m)
                   | Err e => Err e
                   end
          end
      end
  end.

Definition NewMultiaddr (s : string) : result Multiaddr :=
  match splitSlash (trimRightSlash s) with
  | EmptyString :: [] => Err (ErrLib "empty multiaddr")
  | EmptyString :: sp => parseComponents sp
  | _ => Err (ErrLib "must begin with /")
  end.

Definition componentString (c : string * string) : string :=
  "/" +:+ fst c +:+ (if String.eqb (snd c) "" then "" else "/" +:+ snd c).

Definition ma_String (m : Multiaddr) : string :=
  fold_right (fun c s => componentString c +:+ s) "" m.

(** The last component must be /p2p/<id>; what precedes it, if anything,
    is the transport address. *)
Definition AddrInfoFromP2pAddr (m : Multiaddr)
  : result (PeerID * list Multiaddr) :=
  match rev m with
  | (name, id) :: r =>
      if String.eqb name "p2p"
      then Ok (id, match r with [] => [] | _ => [rev r] end)
      else Err (ErrLib "invalid p2p multiaddr")
  | [] => Err (ErrLib "invalid p2p multiaddr")
  end.

Definition peer_Decode (s : string) : result PeerID :=
  if String.eqb s "" then Err (ErrLib "empty peer ID") else Ok s.

(** ** core/crypto: a key is its seed *)

Definition keyHeader : string := "ed25519:".

Definition MarshalPrivateKey (k : string) : result string :=
  Ok (keyHeader +:+ k).

Definition UnmarshalPrivateKey (b : string) : result string :=
  if String.prefix keyHeader b
  then Ok (String.substring (String.length keyHeader)
             (String.length b - String.length keyHeader) b)
  else Err (ErrLib "malformed private key").

(** The libraries, in the order of the fields of [Libs]. *)
Definition libs : Libs :=
  Build_Libs string PeerID Multiaddr
    MarshalMessage UnmarshalMessage MarshalMessages UnmarshalMessages
    UnmarshalPrivateKey MarshalPrivateKey (fun k => "12D3KooW" +:+ k)
    (fun p => p) peer_Decode
    NewMultiaddr ma_String AddrInfoFromP2pAddr
    (2 ^ 63 - 1).

#[local] Existing Instance libs.

(** ** The outside world *)

(** A stream of the transport: the peer and protocol it was opened to,
    the writes it carried, and whether it has been closed.  A stream
    handle is its index in [streams]. *)
Record StreamState : Type := {
  remote : PeerID;
  proto : string;
  written : list string;
  closed : bool
}.

Record World : Type := {
  files : gmap string (string * Z);   (* path to contents and mode *)
  entropy : list string;              (* the keys rand.Reader will yield *)
  clock : Z;                          (* epoch milliseconds *)
  console : list Line;                (* what was printed, in order *)
  listen : list Multiaddr;            (* h.Addrs() *)
  peerstore : list (PeerID * Multiaddr * Z);
  reachable : list PeerID;            (* peers that can be dialled *)
  streams : list StreamState;
  dht : gmap string string;           (* the records of the DHT *)
  lookups : list (option error);      (* the outcome of the coming lookups:
                                         Some e makes GetValue fail with e *)
  maxValue : nat                      (* the largest value PutValue takes *)
}.

Definition setFiles (f : gmap string (string * Z)) (w : World) : World :=
  {| files := f; entropy := entropy w; clock := clock w;
     console := console w; listen := listen w; peerstore := peerstore w;
     reachable := reachable w; streams := streams w; dht := dht w;
     lookups := lookups w; maxValue := maxValue w |}.

Definition setEntropy (e : list string) (w : World) : World :=
  {| files := files w; entropy := e; clock := clock w;
     console := console w; listen := listen w; peerstore := peerstore w;
     reachable := reachable w; streams := streams w; dht := dht w;
     lookups := lookups w; maxValue := maxValue w |}.

Definition setClock (c : Z) (w : World) : World :=
  {| files := files w; entropy := entropy w; clock := c;
     console := console w; listen := listen w; peerstore := peerstore w;
     reachable := reachable w; streams := streams w; dht := dht w;
     lookups := lookups w; maxValue := maxValue w |}.

Definition setConsole (c : list Line) (w : World) : World :=
  {| files := files w; entropy := entropy w; clock := clock w;
     console := c; listen := listen w; peerstore := peerstore w;
     reachable := reachable w; streams := streams w; dht := dht w;
     lookups := lookups w; maxValue := maxValue w |}.

Definition setPeerstore (p : list (PeerID * Multiaddr * Z)) (w : World)
  : World :=
  {| files := files w; entropy := entropy w; clock := clock w;
     console := console w; listen := listen w; peerstore := p;
     reachable := reachable w; streams := streams w; dht := dht w;
     lookups := lookups w; maxValue := maxValue w |}.

Definition setStreams (s : list StreamState) (w : World) : World :=
  {| files := files w; entropy := entropy w; clock := clock w;
     console := console w; listen := listen w; peerstore := peerstore w;
     reachable := reachable w; streams := s; dht := dht w;
     lookups := lookups w; maxValue := maxValue w |}.

Definition setDht (d : gmap string string) (w : World) : World :=
  {| files := files w; entropy := entropy w; clock := clock w;
     console := console w; listen := listen w; peerstore := peerstore w;
     reachable := reachable w; streams := streams w; dht := d;
     lookups := lookups w; maxValue := maxValue w |}.

Definition setLookups (l : list (option error)) (w : World) : World :=
  {| files := files w; entropy := entropy w; clock := clock w;
     console := console w; listen := listen w; peerstore := peerstore w;
     reachable := reachable w; streams := streams w; dht := dht w;
     lookups := l; maxValue := maxValue w |}.

Definition isReachable (p : PeerID) (w : World) : bool :=
  existsb (String.eqb p) (reachable w).

(** A write on a stream: refused once the stream is closed. *)
Definition writeOn (s : Stream) (b : string) (w : World)
  : option error * World :=
  match streams w !! s with
  | Some st =>
      if closed st then (Some (ErrLib "stream closed"), w)
      else (None,
            setStreams (<[s := {| remote := remote st; proto := proto st;
                                  written := written st ++ [b];
                                  closed := false |}]> (streams w)) w)
  | None => (Some (ErrLib "no such stream"), w)
  end.

Definition closeOn (s : Stream) (w : World) : World :=
  match streams w !! s with
  | Some st =>
      setStreams (<[s := {| remote := remote st; proto := proto st;
                            written := written st; closed := true |}]>
                    (streams w)) w
  | None => w
  end.

(** A lookup: fails as [lookups] says, and otherwise finds the record or
    reports routing.ErrNotFound. *)
Definition lookup (key : string) (w : World) : result string * World :=
  let w' := setLookups (tail (lookups w)) w in
  match lookups w with
  | Some e :: _ => (Err e, w')
  | _ =>
      match dht w !! key with
      | Some v => (Ok v, w')
      | None => (Err ErrNotFound, w')
      end
  end.

Definition world : Handler World :=
  fun X op =>
    match op in Op X return World -> X * World with
    | Stat path => fun w =>
        match files w !! path with
        | Some _ => (None, w)
        | None => (Some (ErrLib "no such file or directory"), w)
        end
    | ReadFile path => fun w =>
        match files w !! path with
        | Some (b, _) => (Ok b, w)
        | None => (Err (ErrLib "no such file or directory"), w)
        end
    | WriteFile path data perm => fun w =>
        let mode := match files w !! path with
                    | Some (_, m) => m
                    | None => perm
                    end in
        (None, setFiles (<[path := (data, mode)]> (files w)) w)
    | GenerateKeyPair => fun w =>
        match entropy w with
        | k :: rest => (Ok k, setEntropy rest w)
        | [] => (Err (ErrLib "entropy source failed"), w)
        end
    | Now => fun w => (clock w, setClock (clock w + 1) w)
    | Print l => fun w => (tt, setConsole (console w ++ [l]) w)
    | HostAddrs => fun w => (listen w, w)
    | AddAddrs p addrs ttl => fun w =>
        (tt, setPeerstore
               (peerstore w ++ map (fun a => (p, a, ttl)) addrs) w)
    | Connect pi => fun w =>
        if isReachable (ID pi) w then (None, w)
        else (Some (ErrLib "failed to dial"), w)
    | NewStream p pr => fun w =>
        if isReachable p w
        then (Ok (length (streams w)),
              setStreams (streams w ++ [ {| remote := p; proto := pr;
                                            written := []; closed := false |} ])
                w)
        else (Err (ErrLib "failed to dial"), w)
    | StreamWrite s b => fun w => writeOn s b w
    | StreamClose s => fun w => (tt, closeOn s w)
    | GetValue key => fun w => lookup key w
    | PutValue key value => fun w =>
        if (String.length value <=? maxValue w)%nat
        then (None, setDht (<[key := value]> (dht w)) w)
        else (Some (ErrLib "value too large"), w)
    end.

(** A fresh world: nothing stored, nothing printed, every lookup
    answered. *)
Definition empty : World :=
  {| files := ∅; entropy := []; clock := 1700000000000; console := [];
     listen := []; peerstore := []; reachable := []; streams := [];
     dht := ∅; lookups := []; maxValue := 4096 |}.

End Ref.

(** * What a run shows

    Projections of a trace, and the vocabulary of the specification. *)

Section Observations.
Context `{L : Libs}.

(** The line a call printed, if it is a print. *)
Definition printed (e : Event) : option Line :=
  match e with
  | @Ev _ _ op _ => match op with Print l => Some l | _ => None end
  end.

(** The console output of a run, in order. *)
Definition printedOf (tr : list Event) : list Line := omap printed tr.

(** The messages a fetch listed. *)
Definition fetchedOf (ls : list Line) : list Message :=
  omap (fun l => match l with LnFetchedMessage _ m => Some m | _ => None end)
    ls.

(** The messages the stream handler displayed. *)
Definition dispatchedOf (ls : list Line) : list Message :=
  omap (fun l => match l with LnMessage m => Some m | _ => None end) ls.

(** The streams a run opened and the streams it closed. *)
Definition opened (e : Event) : option Stream :=
  match e with
  | @Ev _ X op x =>
      match op in Op X return X -> option Stream with
      | NewStream _ _ =>
          fun r => match r with Ok s => Some s | Err _ => None end
      | _ => fun _ => None
      end x
  end.

Definition closedBy (e : Event) : option Stream :=
  match e with
  | @Ev _ _ op _ => match op with StreamClose s => Some s | _ => None end
  end.

(** The key, the value and the outcome of a PutValue. *)
Definition putOf (e : Event) : option (string * string * option error) :=
  match e with
  | @Ev _ X op x =>
      match op in Op X return X -> option (string * string * option error)
      with
      | PutValue k v => fun r => Some (k, v, r)
      | _ => fun _ => None
      end x
  end.



(** The invite a line shows, if it is an invite line. *)
Definition inviteOf (l : Line) : option string :=
  match l with LnInvite s => Some s | _ => None end.

(** The frames a run wrote on stream [s]. *)
Definition wroteOn (s : Stream) (e : Event) : option string :=
  match e with
  | @Ev _ _ op _ =>
      match op with
      | StreamWrite s' b => if Nat.eqb s s' then Some b else None
      | _ => None
      end
  end.

(** What one iteration of the handler's loop prints for the line it
    read. *)
Definition dispatch (peerAddr line : string) : Line :=
  let line := TrimSpace line in
  match UnmarshalMessage line with
  | (_, Some _) => LnInvalidMessage peerAddr line
  | (m, None) => LnMessage m
  end.

(** The message one iteration of the loop displays for the line it
    read, if it displays one. *)
Definition accepted (line : string) : option Message :=
  match UnmarshalMessage (TrimSpace line) with
  | (_, Some _) => None
  | (m, None) => Some m
  end.

(** The trace of printing the given lines. *)
Definition prints (ls : list Line) : list Event :=
  map (fun l => Ev (Print l) tt) ls.

End Observations.

(** What the handler prints when the stream ends with [fin]. *)
Definition readErrLines (fin : error) : list Line :=
  if isEOF fin then [] else [LnStreamReadErr fin].

(** The lines a fetch prints for the messages it found, numbered after
    [i]. *)
Fixpoint fetchedLines (i : nat) (msgs : list Message) : list Line :=
  match msgs with
  | [] => []
  | m :: rest => LnFetchedMessage (i + 1) m :: fetchedLines (i + 1) rest
  end.

(** The line of a frame: the frame and its newline. *)
Definition lineOf (frame : string) : string := frame +:+ String nl "".

(** The error kinds the specification gives to Fetch.  In the program
    the first is the error built where the Get failed, "no messages or
    error: ..." around the cause, and any other error is of the second
    kind. *)
Inductive MailboxErrorKind : Type :=
| MailboxNotFoundError
| MailboxError.

Definition mailboxErrorKind (e : error) : MailboxErrorKind :=
  match e with
  | ErrWrap prefix _ =>
      if String.eqb prefix "no messages or error: "
      then MailboxNotFoundError else MailboxError
  | _ => MailboxError
  end.


(** A white-space rune, as the bytes that encode it. *)
Inductive spaceRune : list ascii -> Prop :=
| spaceRune1 a : asciiSpace a = true -> spaceRune [a]
| spaceRune2 a b : space2 a b = true -> spaceRune [a; b]
| spaceRune3 a b c : space3 a b c = true -> spaceRune [a; b; c].

(** Text made of white-space runes only. *)
Definition WhiteSpace (s : string) : Prop :=
  exists rs, Forall spaceRune rs /\ list_ascii_of_string s = concat rs.

(** Text with no white-space rune at its start and none at its end. *)
Definition noSpaceAtEnds (s : string) : Prop :=
  forall r rest, spaceRune r ->
    list_ascii_of_string s <> r ++ rest /\
    list_ascii_of_string s <> rest ++ r.

(** An ASCII byte that is not white space, and a test that is enough for
    [noSpaceAtEnds]: the first and the last byte are such bytes. *)
Definition plain (c : ascii) : bool :=
  (N_of_ascii c <? 128)%N && negb (asciiSpace c).

Definition plainEnds (s : string) : bool :=
  match list_ascii_of_string s with
  | [] => true
  | a :: _ => plain a
  end
  && match rev (list_ascii_of_string s) with
     | [] => true
     | z :: _ => plain z
     end.

(** A frame: the text of a line before its newline. *)
Definition isFrame (f : string) : Prop :=
  ~ In nl (list_ascii_of_string f).

(** The bytes of a stream carrying the given frames, one per line. *)
Fixpoint frameBytes (frames : list string) : string :=
  match frames with
  | [] => ""
  | f :: rest => f +:+ String nl (frameBytes rest)
  end.

(** Where trimming from the left stops: at a byte that starts no
    white-space rune. *)
Definition stuck (t : list ascii) : Prop :=
  match t with
  | [] => False
  | a :: t1 =>
      asciiSpace a = false /\
      match t1 with
      | [] => True
      | b :: t2 =>
          space2 a b = false /\
          match t2 with
          | [] => True
          | c :: _ => space3 a b c = false
          end
      end
  end.

(** [TrimSpace] on the bytes of a string. *)
Definition trimBytes (l : list ascii) : list ascii :=
  rev (trimRightSpaceRev (rev (trimLeftSpace l))).

(** * Well-formed multiaddrs of the reference implementation *)

Module RefAddr.
Import Ref.

Definition noSlash (s : string) : Prop :=
  ~ In slash (list_ascii_of_string s).

(** A component: a protocol of the table, with a value without slash
    when it takes one and none when it takes none. *)
Definition validComponent (c : string * string) : Prop :=
  (protocolWithName (fst c) = Some true /\ snd c <> "" /\ noSlash (snd c))
  \/ (protocolWithName (fst c) = Some false /\ snd c = "").

Definition wellFormed (m : Multiaddr) : Prop :=
  m <> [] /\ Forall validComponent m.

Definition validPeerID (p : PeerID) : Prop := p <> "" /\ noSlash p.

(** The fields of the text of a multiaddr. *)
Definition tokens (m : Multiaddr) : list string :=
  flat_map (fun c => if String.eqb (snd c) "" then [fst c]
                     else [fst c; snd c]) m.

Fixpoint joinSlash (ts : list string) : string :=
  match ts with
  | [] => ""
  | t :: rest =>
      match rest with
      | [] => t
      | _ => t +:+ String slash (joinSlash rest)
      end
  end.

End RefAddr.

(** * Two statements of the specification, as it words them *)

(** Store answers a mailbox it cannot deserialize with an error. *)
Definition StoreReportsCorruptMailbox `{L : Libs} {W : Type} (h : Handler W)
    (w : W) (recipient from body : string) : Prop :=
  forall val,
    fst (h _ (GetValue (mailboxKey recipient)) w) = Ok val ->
    snd (UnmarshalMessages val) <> None ->
    exists e,
      fst (fst (exec h (storeOfflineMessage recipient from body) w)) = Some e.

(** A successful Store followed by Fetch lists the sequence stored before
    with the new message at its end. *)
Definition StoreThenFetchAppends (w : Ref.World)
    (recipient from body : string) : Prop :=
  forall prev,
    Ref.dht w !! mailboxKey recipient = Some (Ref.MarshalMessages prev) ->
    let s := exec Ref.world
               (@storeOfflineMessage Ref.libs recipient from body) w in
    let f := exec Ref.world (@fetchOfflineMessages Ref.libs recipient)
               (snd (fst s)) in
    fst (fst s) = None ->
    exists now,
      fetchedOf (printedOf (snd f))
      = prev ++ [ {| From := from; When := now; Body := body |} ].

(** * Example worlds *)

Module Examples.
Import Ref.
#[local] Existing Instance libs.

Definition oldMessage : Message :=
  {| From := "12D3KooWalice"; When := 1699999999000; Body := "old" |}.

(** A world whose DHT holds [blob] as the mailbox of [X]. *)
Definition mailboxOf (X blob : string) : World :=
  setDht (<[mailboxKey X := blob]> ∅) empty.

(** The mailbox of X holds bytes that are not JSON. *)
Definition corruptWorld : World := mailboxOf "X" "not json".

(** The mailbox of X holds one message and the coming lookup times
    out. *)
Definition lossyWorld : World :=
  setLookups [Some (ErrLib "lookup timed out")]
    (mailboxOf "X" (MarshalMessages [oldMessage])).

(** The mailbox of X holds one message and lookups work. *)
Definition steadyWorld : World :=
  mailboxOf "X" (MarshalMessages [oldMessage]).


(** A world in which the peer alice can be dialled. *)
Definition onlineWorld : World :=
  {| files := ∅; entropy := []; clock := 1700000000000; console := [];
     listen := [[("ip4", "127.0.0.1"); ("tcp", "4001")];
                [("ip4", "192.168.1.7"); ("tcp", "4001")]];
     peerstore := []; reachable := ["12D3KooWalice"]; streams := [];
     dht := ∅; lookups := []; maxValue := 4096 |}.

Definition aliceAddr : Multiaddr := [("ip4", "127.0.0.1"); ("tcp", "4001")].
Definition aliceInvite : string := "/ip4/127.0.0.1/tcp/4001/p2p/12D3KooWalice".

Definition hi : Message :=
  {| From := "12D3KooWbob"; When := 1700000000000; Body := "hi" |}.

End Examples.

(** A text without newline is a frame: the test of [isFrame]. *)
Definition frameb (f : string) : bool :=
  forallb (fun c => negb (Ascii.eqb c nl)) (list_ascii_of_string f).

(** * The command line: main, printHelp, listPeers *)

(** strings.SplitN(s, sep, n) for a separator of one byte: the text before
    the first separator and the text after it. *)
Fixpoint cutAt (sep : ascii) (s : string) : option (string * string) :=
  match s with
  | EmptyString => None
  | String c rest =>
      if Ascii.eqb c sep then Some (EmptyString, rest)
      else match cutAt sep rest with
           | Some (a, b) => Some (String c a, b)
           | None => None
           end
  end.

(** At most [n] fields; the last one is the rest of the text, unsplit.
    (The program calls it with n = 3; a negative n is not modelled.) *)
Fixpoint SplitN (s : string) (sep : ascii) (n : nat) : list string :=
  match n with
  | O => []
  | S n' =>
      match n' with
      | O => [s]
      | S _ =>
          match cutAt sep s with
          | Some (a, rest) => a :: SplitN rest sep n'
          | None => [s]
          end
      end
  end.

(** The lines main prints itself, one constructor per shape of print
    statement. *)
Inductive CliLine : Type :=
| CPrompt                            (* fmt.Printf("> ") *)
| CText (s : string)                 (* fmt.Println(s), s a literal *)
| CErr (what : string) (e : error)   (* fmt.Println(what, err) *)
| CPeerID (id : string)              (* fmt.Println("  Peer ID:", id) *)
| CAddr (a : string)                 (* fmt.Println("  -", a) *)
| CPeer (p : string)                 (* fmt.Println(" -", p.String()) *)
| CId (id : string).                 (* fmt.Println(h.ID().String()) *)

Section Console.
Context `{L : Libs}.

(** The calls of main: those of the functions above, its own prints, and
    the life cycle of the host and of the DHT. *)
Inductive MainOp : Type -> Type :=
| Core {X : Type} (op : Op X) : MainOp X
| Say (l : CliLine) : MainOp unit
| NetworkPeers : MainOp (list PeerID)        (* h.Network().Peers() *)
| NewHost (priv : PrivKey) : MainOp (option error)
                                     (* libp2p.New(libp2p.Identity(priv)) *)
| HostClose : MainOp unit                    (* h.Close() *)
| NewDHT : MainOp (option error)             (* kaddht.New(ctx, h) *)
| Bootstrap : MainOp (option error)          (* dht.Bootstrap(ctx) *)
| SetStreamHandler (proto : string) : MainOp unit.

Inductive Cli (R : Type) : Type :=
| Done (r : R)
| Step {X : Type} (op : MainOp X) (k : X -> Cli R).
Arguments Done {R} r.
Arguments Step {R X} op k.

Fixpoint cbind {A B : Type} (p : Cli A) (f : A -> Cli B) : Cli B :=
  match p with
  | Done a => f a
  | Step op k => Step op (fun x => cbind (k x) f)
  end.

Definition ccall {X : Type} (op : MainOp X) : Cli X := Step op Done.

Definition say (l : CliLine) : Cli unit := ccall (Say l).

(** A function of the sections above, called from main. *)
Fixpoint lift {R : Type} (p : Prog R) : Cli R :=
  match p with
  | Ret r => Done r
  | Do op k => Step (Core op) (fun x => lift (k x))
  end.

Inductive MainEvent : Type :=
| MEv {X : Type} (op : MainOp X) (x : X).

Definition MainHandler (W : Type) : Type :=
  forall X : Type, MainOp X -> W -> X * W.

Fixpoint run {W R : Type} (h : MainHandler W) (p : Cli R) (w : W)
  : R * W * list MainEvent :=
  match p with
  | Done r => (r, w, [])
  | Step op k =>
      let '(x, w1) := h _ op w in
      let '(r, w2, tr) := run h (k x) w1 in
      (r, w2, MEv op x :: tr)
  end.

End Console.

Arguments Done {L R} r.
Arguments Step {L R X} op k.

Declare Scope cli_scope.
Delimit Scope cli_scope with cli.
Notation "x <- c1 ;; c2" := (cbind c1 (fun x => c2))
  (at level 100, c1 at next level, right associativity) : cli_scope.
Notation "c1 ;; c2" := (cbind c1 (fun _ => c2))
  (at level 100, right associativity) : cli_scope.

Section Main.
Context `{L : Libs}.
Local Open Scope cli_scope.

Definition printHelp : Cli unit :=
  say (CText "commands:") ;;
  say (CText "  peers                  - list connected peers") ;;
  say (CText "  invite                 - print invite multiaddr") ;;
  say (CText "  connect <multiaddr>    - connect to a peer using their invite string") ;;
  say (CText "  msg <peerID> <message> - send immediate message to peer (if online)") ;;
  say (CText "  store <peerID> <text>  - append message to recipient's DHT inbox (offline delivery)") ;;
  say (CText "  fetch <peerID>         - fetch stored messages for peerID from DHT") ;;
  say (CText "  id                     - print your peer id") ;;
  say (CText "  help                   - help") ;;
  say (CText "  quit                   - exit").

(** for _, p := range peers { fmt.Println(" -", p.String()) } *)
Fixpoint sayPeers (peers : list PeerID) : Cli unit :=
  match peers with
  | [] => Done tt
  | p :: rest => say (CPeer (peer_String p)) ;; sayPeers rest
  end.

Definition listPeers : Cli unit :=
  peers <- ccall NetworkPeers ;;
  match peers with
  | [] => say (CText "no connected peers")
  | _ => say (CText "connected peers:") ;; sayPeers peers
  end.

(** if err := f(...); err != nil { fmt.Println(what, err) } *)
Definition report (what : string) (err : option error) : Cli unit :=
  match err with
  | Some e => say (CErr what e)
  | None => Done tt
  end.

(** The body of the [for] loop of main after the line is read: [true]
    when main returns, [false] when the loop goes on.  [self] is
    h.ID(). *)
Definition command (self : PeerID) (text : string) : Cli bool :=
  let text := TrimSpace text in
  if String.eqb text "" then Done false else
  match SplitN text " " 3 with
  | [] => Done false
  | cmd :: args =>
      if String.eqb cmd "help" then printHelp ;; Done false
      else if String.eqb cmd "peers" then listPeers ;; Done false
      else if String.eqb cmd "invite" then
        lift (printInvite self) ;; Done false
      else if String.eqb cmd "connect" then
        match args with
        | [] => say (CText "usage: connect <multiaddr>") ;; Done false
        | addr :: _ =>
            err <- lift (connectPeer addr) ;;
            report "connect error:" err ;; Done false
        end
      else if String.eqb cmd "msg" then
        match args with
        | target :: body :: _ =>
            err <- lift (sendMessage self target body) ;;
            report "send error:" err ;; Done false
        | _ => say (CText "usage: msg <peerID> <message>") ;; Done false
        end
      else if String.eqb cmd "store" then
        match args with
        | target :: body :: _ =>
            err <- lift (storeOfflineMessage target (peer_String self)
                           body) ;;
            report "store error:" err ;; Done false
        | _ => say (CText "usage: store <peerID> <text>") ;; Done false
        end
      else if String.eqb cmd "fetch" then
        match args with
        | [] => say (CText "usage: fetch <peerID>") ;; Done false
        | p :: _ =>
            err <- lift (fetchOfflineMessages p) ;;
            report "fetch error:" err ;; Done false
        end
      else if String.eqb cmd "id" then
        say (CId (peer_String self)) ;; Done false
      else if String.eqb cmd "quit" || String.eqb cmd "exit" then
        say (CText "bye") ;; Done true
      else say (CText "unknown command. type 'help'") ;; Done false
  end.

(** The [for] loop of main over the bytes of os.Stdin; the error of
    ReadString is dropped, as in [text, _ := reader.ReadString('\n')].
    The loop has no exit but the return of quit and exit: [fuel] bounds
    the number of iterations, and the result is [None] when the loop is
    still running after them and [Some tt] when main has returned. *)
Fixpoint cliLoop (fuel : nat) (self : PeerID) (stdin : Reader)
  : Cli (option unit) :=
  match fuel with
  | O => Done None
  | S fuel =>
      say CPrompt ;;
      let '(text, _, stdin') := ReadString nl stdin in
      quit <- command self text ;;
      if (quit : bool) then Done (Some tt) else cliLoop fuel self stdin'
  end.




End Main.

(** * More vocabulary for the properties *)

(** The key of a call to the DHT. *)
Definition dhtKey `{L : Libs} (e : Event) : option string :=
  match e with
  | @Ev _ _ op _ =>
      match op with
      | GetValue k => Some k
      | PutValue k _ => Some k
      | _ => None
      end
  end.

(** The lines of a text: the frames that a newline closes, in order, and
    the text after the last newline. *)
Fixpoint splitLines (s : string) : list string * string :=
  match s with
  | EmptyString => ([], EmptyString)
  | String c rest =>
      let (frames, last) := splitLines rest in
      if Ascii.eqb c nl then (EmptyString :: frames, last)
      else match frames with
           | [] => ([], String c last)
           | f :: fs => (String c f :: fs, last)
           end
  end.

(** The bytes a stream carries after the given writes. *)
Definition streamBytes (writes : list string) : string :=
  fold_right String.append EmptyString writes.

(** ** Vocabulary for the command loop *)

(** A text without the byte ' ': one field of a command line. *)
Definition oneWord (s : string) : Prop :=
  ~ In " "%char (list_ascii_of_string s).

(** Whether the command of a line is quit or exit. *)
Definition quits (line : string) : bool :=
  match SplitN (TrimSpace line) " " 3 with
  | cmd :: _ => String.eqb cmd "quit" || String.eqb cmd "exit"
  | [] => false
  end.

(** Steps of the life cycle of the host and of the DHT, with their
    outcome. *)
Inductive Life : Type :=
| HostMade (o : option error)
| HostClosed
| DhtMade (o : option error)
| Bootstrapped (o : option error)
| HandlerSet (proto : string).

Section CliVocabulary.
Context `{L : Libs}.
Local Open Scope cli_scope.

(** The prompt and the command of every line in turn, then [rest]. *)
Fixpoint steps {R : Type} (self : PeerID) (lines : list string)
    (rest : Cli R) : Cli R :=
  match lines with
  | [] => rest
  | l :: ls => say CPrompt ;; command self l ;; steps self ls rest
  end.

(** [n] prompts in a row, and the loop still running. *)
Fixpoint idle (n : nat) : Cli (option unit) :=
  match n with
  | O => Done None
  | S n => say CPrompt ;; idle n
  end.

(** The line a call of main printed, if it is one of its prints. *)
Definition said (e : MainEvent) : option CliLine :=
  match e with
  | @MEv _ _ op _ => match op with Say l => Some l | _ => None end
  end.

(** The call a function of the sections above made, if it is one. *)
Definition coreOf (e : MainEvent) : option Event :=
  match e with
  | @MEv _ X op x =>
      match op in MainOp X return X -> option Event with
      | Core op' => fun x => Some (Ev op' x)
      | _ => fun _ => None
      end x
  end.

(** The step of the life cycle a call is, if it is one. *)
Definition lifecycle (e : MainEvent) : option Life :=
  match e with
  | @MEv _ X op x =>
      match op in MainOp X return X -> option Life with
      | NewHost _ => fun o => Some (HostMade o)
      | HostClose => fun _ => Some HostClosed
      | NewDHT => fun o => Some (DhtMade o)
      | Bootstrap => fun o => Some (Bootstrapped o)
      | SetStreamHandler p => fun _ => Some (HandlerSet p)
      | _ => fun _ => None
      end x
  end.

(** A program all of whose calls satisfy [P]. *)
Fixpoint only {R : Type} (P : forall X : Type, MainOp X -> Prop)
    (p : Cli R) : Prop :=
  match p with
  | Done _ => True
  | Step op k => P _ op /\ forall x, only P (k x)
  end.

(** A call that is no step of the life cycle. *)
Definition ordinary (X : Type) (op : MainOp X) : Prop :=
  forall x : X, lifecycle (MEv op x) = None.

(** A call that is one of main's own prints. *)
Definition isSay (X : Type) (op : MainOp X) : Prop :=
  match op with Say _ => True | _ => False end.

End CliVocabulary.


(** * The reference world of main *)

Module RefMain.
Import Ref.
#[local] Existing Instance libs.

Record Shell : Type := {
  net : World;                      (* the world of the functions above *)
  screen : list CliLine;            (* what main printed, in order *)
  neighbours : list PeerID;         (* h.Network().Peers() *)
  hostError : option error;         (* the outcome of libp2p.New *)
  dhtError : option error;          (* the outcome of kaddht.New *)
  bootstrapError : option error;    (* the outcome of dht.Bootstrap *)
  running : bool;                   (* the host is created and not closed *)
  protocols : list string           (* the protocols with a stream handler *)
}.

Definition setNet (w : World) (s : Shell) : Shell :=
  {| net := w; screen := screen s; neighbours := neighbours s;
     hostError := hostError s; dhtError := dhtError s;
     bootstrapError := bootstrapError s; running := running s;
     protocols := protocols s |}.

Definition setScreen (c : list CliLine) (s : Shell) : Shell :=
  {| net := net s; screen := c; neighbours := neighbours s;
     hostError := hostError s; dhtError := dhtError s;
     bootstrapError := bootstrapError s; running := running s;
     protocols := protocols s |}.

Definition setRunning (b : bool) (s : Shell) : Shell :=
  {| net := net s; screen := screen s; neighbours := neighbours s;
     hostError := hostError s; dhtError := dhtError s;
     bootstrapError := bootstrapError s; running := b;
     protocols := protocols s |}.

Definition setProtocols (p : list string) (s : Shell) : Shell :=
  {| net := net s; screen := screen s; neighbours := neighbours s;
     hostError := hostError s; dhtError := dhtError s;
     bootstrapError := bootstrapError s; running := running s;
     protocols := p |}.

Definition shell : MainHandler Shell :=
  fun X op =>
    match op in MainOp X return Shell -> X * Shell with
    | Core op' => fun s =>
        let (x, w) := world _ op' (net s) in (x, setNet w s)
    | Say l => fun s => (tt, setScreen (screen s ++ [l]) s)
    | NetworkPeers => fun s => (neighbours s, s)
    | NewHost _ => fun s =>
        match hostError s with
        | Some e => (Some e, s)
        | None => (None, setRunning true s)
        end
    | HostClose => fun s => (tt, setRunning false s)
    | NewDHT => fun s => (dhtError s, s)
    | Bootstrap => fun s => (bootstrapError s, s)
    | SetStreamHandler p => fun s =>
        (tt, setProtocols (protocols s ++ [p]) s)
    end.

(** A shell over a world: nothing printed, no neighbour, no failure. *)
Definition over (w : World) : Shell :=
  {| net := w; screen := []; neighbours := []; hostError := None;
     dhtError := None; bootstrapError := None; running := false;
     protocols := [] |}.

End RefMain.

(** ** main and the functions it calls *)

Section CoreCalls.
Context `{L : Libs}.



End CoreCalls.

(** The parts of the outside world a call touches. *)
Inductive Effect : Type :=
| OnFiles          (* os.Stat, os.ReadFile, os.WriteFile *)
| OnEntropy        (* crypto.GenerateKeyPairWithReader *)
| OnClock          (* time.Now *)
| OnConsole        (* fmt.Println, fmt.Printf *)
| OnHostState      (* h.Addrs(), h.Network().Peers() *)
| OnPeerstore      (* h.Peerstore().AddAddrs *)
| OnDial           (* h.Connect, h.NewStream *)
| OnStream         (* s.Write, s.Close *)
| OnDhtRead        (* dht.GetValue *)
| OnDhtWrite       (* dht.PutValue *)
| OnLifeCycle.     (* libp2p.New, h.Close, kaddht.New, dht.Bootstrap,
                      h.SetStreamHandler *)

Definition effectOfCore `{L : Libs} {X : Type} (op : Op X) : Effect :=
  match op with
  | Stat _ | ReadFile _ | WriteFile _ _ _ => OnFiles
  | GenerateKeyPair => OnEntropy
  | Now => OnClock
  | Print _ => OnConsole
  | HostAddrs => OnHostState
  | AddAddrs _ _ _ => OnPeerstore
  | Connect _ | NewStream _ _ => OnDial
  | StreamWrite _ _ | StreamClose _ => OnStream
  | GetValue _ => OnDhtRead
  | PutValue _ _ => OnDhtWrite
  end.

Definition effectOf `{L : Libs} {X : Type} (op : MainOp X) : Effect :=
  match op with
  | Core op' => effectOfCore op'
  | Say _ => OnConsole
  | NetworkPeers => OnHostState
  | NewHost _ | HostClose | NewDHT | Bootstrap | SetStreamHandler _ =>
      OnLifeCycle
  end.

(** The first word of a line: parts[0]. *)
Definition firstWord (line : string) : string :=
  hd EmptyString (SplitN (TrimSpace line) " " 3).

(** What the command with the given first word may touch. *)
Definition mayTouch (cmd : string) : list Effect :=
  if String.eqb cmd "peers" then [OnHostState; OnConsole]
  else if String.eqb cmd "invite" then [OnHostState; OnConsole]
  else if String.eqb cmd "connect" then [OnPeerstore; OnDial; OnConsole]
  else if String.eqb cmd "msg" then [OnDial; OnClock; OnStream; OnConsole]
  else if String.eqb cmd "store" then
    [OnDhtRead; OnClock; OnDhtWrite; OnConsole]
  else if String.eqb cmd "fetch" then [OnDhtRead; OnConsole]
  else [OnConsole].

(** A call whose effect is one of [es]. *)
Definition within `{L : Libs} (es : list Effect) (X : Type)
    (op : MainOp X) : Prop :=
  In (effectOf op) es.

(** * The identity record when os.Stat fails *)


Module Faults.
Import Ref.
#[local] Existing Instance libs.



End Faults.

(** * Properties *)

(** ** Running programs *)

Section ExecFacts.
Context `{L : Libs} {W : Type} (h : Handler W).

Lemma exec_bind {A B : Type} (p : Prog A) (f : A -> Prog B) (w : W) :
  exec h (bind p f) w =
  let '(a, w1, t1) := exec h p w in
  let '(b, w2, t2) := exec h (f a) w1 in
  (b, w2, t1 ++ t2).
Proof.
  revert w. induction p as [a | X op k IH]; intros w; simpl.
  - destruct (exec h (f a) w) as [[b w2] t2]. reflexivity.
  - destruct (h X op w) as [x w1]. rewrite IH.
    destruct (exec h (k x) w1) as [[a w2] t1].
    destruct (exec h (f a) w2) as [[b w3] t2]. reflexivity.
Qed.

Lemma exec_call_bind {X B : Type} (op : Op X) (f : X -> Prog B) (w : W) :
  exec h (bind (call op) f) w =
  let '(b, w2, t2) := exec h (f (fst (h X op w))) (snd (h X op w)) in
  (b, w2, Ev op (fst (h X op w)) :: t2).
Proof. simpl. destruct (h X op w) as [x w1]. reflexivity. Qed.

Lemma exec_call {X : Type} (op : Op X) (w : W) :
  exec h (call op) w
  = (fst (h X op w), snd (h X op w), [Ev op (fst (h X op w))]).
Proof. unfold call. simpl. destruct (h X op w). reflexivity. Qed.

Lemma printedOf_prints (ls : list Line) : printedOf (prints ls) = ls.
Proof.
  induction ls as [|l ls IH]; [reflexivity|].
  unfold printedOf, prints in *. simpl. f_equal. exact IH.
Qed.

Lemma printedOf_app (t1 t2 : list Event) :
  printedOf (t1 ++ t2) = printedOf t1 ++ printedOf t2.
Proof. apply omap_app. Qed.

Lemma prints_app (l1 l2 : list Line) :
  prints (l1 ++ l2) = prints l1 ++ prints l2.
Proof. apply map_app. Qed.

End ExecFacts.

(** ** MailboxService *)

Section MailboxFacts.
Context `{L : Libs} {W : Type} (h : Handler W).

(** A run of Store, call by call. *)
Lemma store_run (w : W) (recipient from body : string) :
  let key := mailboxKey recipient in
  let r := fst (h _ (GetValue key) w) in
  let w1 := snd (h _ (GetValue key) w) in
  let msgs := match r with
              | Ok val => fst (UnmarshalMessages val)
              | Err _ => []
              end in
  let now := fst (h _ Now w1) in
  let w2 := snd (h _ Now w1) in
  let n := MarshalMessages
             (msgs ++ [ {| From := from; When := now; Body := body |} ]) in
  let err := fst (h _ (PutValue key n) w2) in
  let w3 := snd (h _ (PutValue key n) w2) in
  exec h (storeOfflineMessage recipient from body) w =
  match err with
  | Some e =>
      (Some e, w3,
       [Ev (GetValue key) r; Ev Now now; Ev (PutValue key n) err])
  | None =>
      (None, snd (h _ (Print LnStored) w3),
       [Ev (GetValue key) r; Ev Now now; Ev (PutValue key n) err;
        Ev (Print LnStored) tt])
  end.
Proof.
  intros key r w1 msgs now w2 n err w3. unfold storeOfflineMessage.
  rewrite !exec_call_bind. fold key r w1 msgs now w2 n w3.
  change (fst (h _ (PutValue key n) w2)) with err.
  destruct err as [e|]; [reflexivity|].
  rewrite exec_call_bind. simpl.
  destruct (fst (h _ (Print LnStored) w3)). reflexivity.
Qed.

Lemma printFetched_run (i : nat) (msgs : list Message) (w : W) :
  fst (fst (exec h (printFetched i msgs) w)) = tt /\
  snd (exec h (printFetched i msgs) w) = prints (fetchedLines i msgs).
Proof.
  revert i w. induction msgs as [|m rest IH]; intros i w; simpl; [auto|].
  destruct (h _ (Print (LnFetchedMessage (i + 1) m)) w) as [[] w1].
  destruct (IH (i + 1)%nat w1) as [_ Ht].
  destruct (exec h (printFetched (i + 1) rest) w1) as [[[] w2] t].
  simpl in *. rewrite Ht. auto.
Qed.

(** A run of Fetch, call by call. *)
Lemma fetch_run (w : W) (peerID : string) :
  let key := mailboxKey peerID in
  let r := fst (h _ (GetValue key) w) in
  let x := exec h (fetchOfflineMessages peerID) w in
  match r with
  | Err err =>
      fst (fst x) = Some (ErrWrap "no messages or error: " err) /\
      snd x = [Ev (GetValue key) r]
  | Ok val =>
      match UnmarshalMessages val with
      | (_, Some e) =>
          fst (fst x) = Some (ErrJSON e) /\ snd x = [Ev (GetValue key) r]
      | (msgs, None) =>
          fst (fst x) = None /\
          snd x = Ev (GetValue key) r
                  :: prints (LnFetched (length msgs) :: fetchedLines 0 msgs)
      end
  end.
Proof.
  intros key r x. subst x. unfold fetchOfflineMessages.
  rewrite exec_call_bind. fold key r.
  destruct r as [val|err]; [|simpl; auto].
  destruct (UnmarshalMessages val) as [msgs [e|]]; [simpl; auto|].
  rewrite exec_call_bind, exec_bind.
  destruct (printFetched_run 0 msgs
              (snd (h _ (Print (LnFetched (length msgs)))
                      (snd (h _ (GetValue key) w))))) as [_ Ht].
  destruct (exec h (printFetched 0 msgs) _) as [[[] w2] t].
  simpl in *. rewrite Ht.
  destruct (fst (h _ (Print _) _)). rewrite app_nil_r. auto.
Qed.

Lemma store_failed_get_run (w : W) (recipient from body : string)
    (e : error) :
  fst (h _ (GetValue (mailboxKey recipient)) w) = Err e ->
  let key := mailboxKey recipient in
  let w1 := snd (h _ (GetValue key) w) in
  let now := fst (h _ Now w1) in
  let blob :=
    MarshalMessages [ {| From := from; When := now; Body := body |} ] in
  let put := fst (h _ (PutValue key blob) (snd (h _ Now w1))) in
  fst (fst (exec h (storeOfflineMessage recipient from body) w)) = put /\
  snd (exec h (storeOfflineMessage recipient from body) w) =
    [Ev (GetValue key) (Err e); Ev Now now; Ev (PutValue key blob) put]
    ++ match put with None => [Ev (Print LnStored) tt] | Some _ => [] end.
Proof.
  intros He key w1 now blob put.
  pose proof (store_run w recipient from body) as H. cbv zeta in H.
  rewrite He in H. cbn [app] in H. fold key w1 now blob put in H.
  rewrite H. destruct put; simpl; auto.
Qed.

(** C1, amended.  When the Get of Store returns a blob that fails to
    deserialize, Store reports no error for it: it keeps the sequence the
    decoder left in the fresh slice, appends the new Message, Puts the
    serialization under the mailbox key and returns the outcome of that
    Put.  And every failed Get, not only NotFound, gives the empty
    starting sequence. *)
Theorem store_keeps_going_on_corrupt_mailbox (w : W)
    (recipient from body : string) :
  let key := mailboxKey recipient in
  let x := exec h (storeOfflineMessage recipient from body) w in
  let w1 := snd (h _ (GetValue key) w) in
  let now := fst (h _ Now w1) in
  let m := {| From := from; When := now; Body := body |} in
  let put blob := fst (h _ (PutValue key blob) (snd (h _ Now w1))) in
  let after blob :=
    match put blob with None => [Ev (Print LnStored) tt] | Some _ => [] end in
  (forall val je,
   fst (h _ (GetValue key) w) = Ok val ->
   snd (UnmarshalMessages val) = Some je ->
   let blob := MarshalMessages (fst (UnmarshalMessages val) ++ [m]) in
   fst (fst x) = put blob /\
   snd x = [Ev (GetValue key) (Ok val); Ev Now now;
            Ev (PutValue key blob) (put blob)] ++ after blob) /\
  (forall e,
   fst (h _ (GetValue key) w) = Err e ->
   let blob := MarshalMessages [m] in
   fst (fst x) = put blob /\
   snd x = [Ev (GetValue key) (Err e); Ev Now now;
            Ev (PutValue key blob) (put blob)] ++ after blob).
Proof.
  intros key x w1 now m put after.
  pose proof (store_run w recipient from body) as H. cbv zeta in H.
  fold key x in H. split.
  - intros val je Hv _ blob. rewrite Hv in H.
    fold w1 now m blob in H. rewrite H. unfold after, put.
    destruct (fst (h _ (PutValue key blob) _)); simpl; auto.
  - intros e He blob. rewrite He in H. cbn [app] in H.
    fold w1 now m blob in H. rewrite H. unfold after, put.
    destruct (fst (h _ (PutValue key blob) _)); simpl; auto.
Qed.

(** C4.  When the Get of Fetch finds no record, or fails for another
    cause, Fetch returns the error "no messages or error: ..." around
    that cause: an error of the kind MailboxNotFoundError, which is no
    deserialization error, and which errors.Is recognises as NotFound
    exactly when the cause is; Fetch then makes no other call.  When the
    Get returns a blob that fails to deserialize, Fetch returns that
    deserialization error, of the kind MailboxError. *)
Theorem fetch_error_kinds (w : W) (peerID : string) :
  let key := mailboxKey peerID in
  let x := exec h (fetchOfflineMessages peerID) w in
  (forall cause,
   fst (h _ (GetValue key) w) = Err cause ->
   exists e, fst (fst x) = Some e /\
             e = ErrWrap "no messages or error: " cause /\
             mailboxErrorKind e = MailboxNotFoundError /\
             (forall je, e <> ErrJSON je) /\
             errorsIs e ErrNotFound = errorsIs cause ErrNotFound /\
             snd x = [Ev (GetValue key) (Err cause)]) /\
  (forall val je,
   fst (h _ (GetValue key) w) = Ok val ->
   snd (UnmarshalMessages val) = Some je ->
   fst (fst x) = Some (ErrJSON je) /\
   mailboxErrorKind (ErrJSON je) = MailboxError /\
   snd x = [Ev (GetValue key) (Ok val)]).
Proof.
  intros key x. pose proof (fetch_run w peerID) as H. cbv zeta in H.
  subst key x. split.
  - intros cause Hg. rewrite Hg in H. destruct H as [H1 H2].
    eexists. split; [exact H1|]. repeat split; [discriminate|exact H2].
  - intros val je Hg Hu. rewrite Hg in H.
    destruct (UnmarshalMessages val) as [msgs o]. simpl in Hu. subst o.
    destruct H as [H1 H2]. auto.
Qed.

Lemma fetchedOf_fetchedLines (i : nat) (msgs : list Message) :
  fetchedOf (fetchedLines i msgs) = msgs.
Proof.
  revert i. induction msgs as [|m rest IH]; intros i; [reflexivity|].
  simpl. unfold fetchedOf in *. simpl. rewrite IH. reflexivity.
Qed.

(** C2, amended.  Let the Get of Store answer NotFound (the previous
    sequence is empty) or a blob that deserializes to the previous
    sequence.  If Store succeeds, the key-value service gives Fetch the
    value Store put under the key, and that value deserializes to what
    was serialized, then Fetch succeeds and lists the previous sequence,
    whole and in order, followed by the one new Message with the given
    sender and body; both use the key [mailboxKey recipient]. *)
Theorem store_then_fetch (w : W) (recipient from body : string)
    (prev : list Message) :
  let key := mailboxKey recipient in
  let s := exec h (storeOfflineMessage recipient from body) w in
  let now := fst (h _ Now (snd (h _ (GetValue key) w))) in
  let m := {| From := from; When := now; Body := body |} in
  let f := exec h (fetchOfflineMessages recipient) (snd (fst s)) in
  (fst (h _ (GetValue key) w) = Err ErrNotFound /\ prev = [] \/
   exists val, fst (h _ (GetValue key) w) = Ok val /\
               UnmarshalMessages val = (prev, None)) ->
  fst (fst s) = None ->
  (forall blob, In (key, blob, None) (omap putOf (snd s)) ->
                fst (h _ (GetValue key) (snd (fst s))) = Ok blob) ->
  UnmarshalMessages (MarshalMessages (prev ++ [m])) = (prev ++ [m], None) ->
  fst (fst f) = None /\
  printedOf (snd f)
  = LnFetched (length prev + 1) :: fetchedLines 0 (prev ++ [m]) /\
  fetchedOf (printedOf (snd f)) = prev ++ [m].
Proof.
  intros key s now m f Hread Hok Hkv Hrt.
  pose proof (store_run w recipient from body) as Hs. cbv zeta in Hs.
  fold key in Hs.
  assert (Hmsgs : match fst (h _ (GetValue key) w) with
                  | Ok val => fst (UnmarshalMessages val)
                  | Err _ => []
                  end = prev).
  { destruct Hread as [[-> ->]|[val [-> Hu]]]; [reflexivity|].
    rewrite Hu. reflexivity. }
  rewrite Hmsgs in Hs. fold now m in Hs. fold s in Hs.
  set (n := MarshalMessages (prev ++ [m])) in *.
  assert (Hput : In (key, n, None) (omap putOf (snd s))).
  { rewrite Hs in Hok |- *.
    destruct (fst (h _ (PutValue key n) _)); [discriminate|].
    simpl. auto. }
  apply Hkv in Hput.
  pose proof (fetch_run (snd (fst s)) recipient) as Hf. cbv zeta in Hf.
  fold key in Hf. rewrite Hput in Hf. rewrite Hrt in Hf. fold f in Hf.
  destruct Hf as [Hf1 Hf2]. split; [exact Hf1|].
  rewrite Hf2.
  change (printedOf (?e :: prints ?ls)) with (printedOf (prints ls)).
  rewrite printedOf_prints, length_app. simpl. split; [reflexivity|].
  change (fetchedOf (LnFetched ?k :: ?ls)) with (fetchedOf ls).
  apply fetchedOf_fetchedLines.
Qed.

End MailboxFacts.

(** In the reference world a Store whose lookup fails leaves, under the
    mailbox key, the new message alone, whatever was stored there. *)
Lemma Ref_store_replaces (rw : Ref.World) (recipient from body : string)
    (e : error) (rest : list (option error)) :
  Ref.lookups rw = Some e :: rest ->
  let x := exec Ref.world (@storeOfflineMessage Ref.libs recipient from body)
             rw in
  fst (fst x) = None ->
  Ref.dht (snd (fst x)) !! mailboxKey recipient
  = Some (Ref.MarshalMessages
            [ {| From := from; When := Ref.clock rw; Body := body |} ]).
Proof.
  intros Hl x. subst x.
  pose proof (store_run Ref.world rw recipient from body) as H.
  cbv zeta in H.
  assert (Hg : Ref.world _ (@GetValue Ref.libs (mailboxKey recipient)) rw
               = (Err e, Ref.setLookups rest rw)).
  { simpl. unfold Ref.lookup. rewrite Hl. reflexivity. }
  rewrite Hg in H. cbn [fst snd app] in H.
  change (Ref.world _ (@Now Ref.libs) (Ref.setLookups rest rw))
    with (Ref.clock rw,
          Ref.setClock (Ref.clock rw + 1) (Ref.setLookups rest rw)) in H.
  cbn [fst snd] in H.
  set (blob := MarshalMessages _) in H.
  change (Ref.world _ (@PutValue Ref.libs (mailboxKey recipient) blob) ?w)
    with (if (String.length blob <=? Ref.maxValue w)%nat
          then (None,
                Ref.setDht (<[mailboxKey recipient := blob]> (Ref.dht w)) w)
          else (Some (ErrLib "value too large"), w)) in H.
  destruct (String.length blob <=? _)%nat; rewrite H; cbn [fst snd];
    [|discriminate].
  intros _. simpl. apply lookup_insert_eq.
Qed.

(** C3.  When the Get of Store fails, for whatever reason, Store starts
    from the empty sequence: its Put writes, under the mailbox key, the
    serialization of the one new Message and nothing else, and Store
    returns the outcome of that Put.  In the reference world, where a Put
    replaces the value of its key, a successful such Store leaves the new
    message alone under the key, whatever sequence was stored there. *)
Theorem store_after_failed_get :
  (forall (L : Libs) (W : Type) (h : Handler W) (w : W)
          (recipient from body : string) (e : error),
   fst (h _ (GetValue (mailboxKey recipient)) w) = Err e ->
   let key := mailboxKey recipient in
   let w1 := snd (h _ (GetValue key) w) in
   let now := fst (h _ Now w1) in
   let blob :=
     MarshalMessages [ {| From := from; When := now; Body := body |} ] in
   let put := fst (h _ (PutValue key blob) (snd (h _ Now w1))) in
   fst (fst (exec h (storeOfflineMessage recipient from body) w)) = put /\
   snd (exec h (storeOfflineMessage recipient from body) w) =
     [Ev (GetValue key) (Err e); Ev Now now; Ev (PutValue key blob) put]
     ++ match put with None => [Ev (Print LnStored) tt] | Some _ => [] end)
  /\
  (forall (rw : Ref.World) (recipient from body : string) (e : error)
          (rest : list (option error)),
   Ref.lookups rw = Some e :: rest ->
   let x := exec Ref.world
              (@storeOfflineMessage Ref.libs recipient from body) rw in
   fst (fst x) = None ->
   Ref.dht (snd (fst x)) !! mailboxKey recipient
   = Some (Ref.MarshalMessages
             [ {| From := from; When := Ref.clock rw; Body := body |} ])).
Proof.
  split.
  - intros L W h w recipient from body e He.
    exact (store_failed_get_run h w recipient from body e He).
  - exact Ref_store_replaces.
Qed.

(** C1, as stated, fails: the mailbox of X holds bytes that are not JSON,
    and Store returns no error. *)
Lemma store_corrupt_mailbox_counterexample :
  ~ @StoreReportsCorruptMailbox Ref.libs _ Ref.world Examples.corruptWorld
      "X" "12D3KooWbob" "hello".
Proof.
  intros H. destruct (H "not json") as [e He].
  - vm_compute. reflexivity.
  - vm_compute. discriminate.
  - vm_compute in He. discriminate.
Qed.

Lemma store_keeps_going_on_corrupt_mailbox_witness :
  let x := exec Ref.world
             (@storeOfflineMessage Ref.libs "X" "12D3KooWbob" "hello")
             Examples.corruptWorld in
  snd (Ref.UnmarshalMessages "not json") = Some (SyntaxError "invalid JSON")
  /\ fst (fst x) = None
  /\ Ref.dht (snd (fst x)) !! mailboxKey "X"
     = Some (Ref.MarshalMessages
               [ {| From := "12D3KooWbob"; When := 1700000000000;
                    Body := "hello" |} ]).
Proof.
  intros x.
  destruct (@store_keeps_going_on_corrupt_mailbox Ref.libs Ref.World
              Ref.world Examples.corruptWorld "X" "12D3KooWbob" "hello")
    as [H _].
  destruct (H "not json" (SyntaxError "invalid JSON")) as [H1 _].
  - vm_compute. reflexivity.
  - vm_compute. reflexivity.
  - split; [vm_compute; reflexivity|]. split.
    + subst x. rewrite H1. vm_compute. reflexivity.
    + vm_compute. reflexivity.
Defined.

Lemma store_after_failed_get_witness :
  let x := exec Ref.world
             (@storeOfflineMessage Ref.libs "X" "12D3KooWbob" "new")
             Examples.lossyWorld in
  Ref.dht Examples.lossyWorld !! mailboxKey "X"
  = Some (Ref.MarshalMessages [Examples.oldMessage])
  /\ fst (fst x) = None
  /\ Ref.dht (snd (fst x)) !! mailboxKey "X"
     = Some (Ref.MarshalMessages
               [ {| From := "12D3KooWbob"; When := 1700000000000;
                    Body := "new" |} ]).
Proof.
  intros x. destruct store_after_failed_get as [Hgen Href].
  destruct (Hgen Ref.libs Ref.World Ref.world Examples.lossyWorld "X"
              "12D3KooWbob" "new" (ErrLib "lookup timed out"))
    as [H1 _].
  - vm_compute. reflexivity.
  - assert (Hok : fst (fst x) = None)
      by (subst x; rewrite H1; vm_compute; reflexivity).
    split; [vm_compute; reflexivity|]. split; [exact Hok|].
    apply (Href Examples.lossyWorld "X" "12D3KooWbob" "new"
             (ErrLib "lookup timed out") []).
    + reflexivity.
    + exact Hok.
Defined.

Lemma fetch_error_kinds_witness :
  let notFound := fst (fst (exec Ref.world (@fetchOfflineMessages Ref.libs "Y")
                              Examples.corruptWorld)) in
  let corrupt := fst (fst (exec Ref.world (@fetchOfflineMessages Ref.libs "X")
                             Examples.corruptWorld)) in
  Ref.dht Examples.corruptWorld !! mailboxKey "Y" = None /\
  notFound = Some (ErrWrap "no messages or error: " ErrNotFound) /\
  corrupt = Some (ErrJSON (SyntaxError "invalid JSON")).
Proof.
  intros notFound corrupt. split; [vm_compute; reflexivity|]. split.
  - destruct (@fetch_error_kinds Ref.libs Ref.World Ref.world
                Examples.corruptWorld "Y") as [H _].
    destruct (H ErrNotFound) as (e & He & -> & _);
      [vm_compute; reflexivity|].
    exact He.
  - destruct (@fetch_error_kinds Ref.libs Ref.World Ref.world
                Examples.corruptWorld "X") as [_ H].
    destruct (H "not json" (SyntaxError "invalid JSON")) as (He & _ & _);
      [vm_compute; reflexivity|vm_compute; reflexivity|].
    exact He.
Defined.

(** C2, as stated, fails: the mailbox of X holds one message, the lookup
    of Store times out, Store succeeds and Fetch then lists the new
    message alone. *)
Lemma store_then_fetch_counterexample :
  ~ StoreThenFetchAppends Examples.lossyWorld "X" "12D3KooWbob" "new".
Proof.
  intros H. destruct (H [Examples.oldMessage]) as [now Hn].
  - vm_compute. reflexivity.
  - vm_compute. reflexivity.
  - vm_compute in Hn. discriminate.
Qed.

Lemma store_then_fetch_witness :
  let s := exec Ref.world
             (@storeOfflineMessage Ref.libs "X" "12D3KooWbob" "new")
             Examples.steadyWorld in
  let f := exec Ref.world (@fetchOfflineMessages Ref.libs "X")
             (snd (fst s)) in
  fetchedOf (printedOf (snd f))
  = [Examples.oldMessage;
     {| From := "12D3KooWbob"; When := 1700000000000; Body := "new" |}].
Proof.
  intros s f.
  destruct (@store_then_fetch Ref.libs Ref.World Ref.world
              Examples.steadyWorld "X" "12D3KooWbob" "new"
              [Examples.oldMessage])
    as (_ & _ & H).
  - right. exists (Ref.MarshalMessages [Examples.oldMessage]).
    split; vm_compute; reflexivity.
  - vm_compute. reflexivity.
  - intros blob Hin. vm_compute in Hin.
    destruct Hin as [[= <-]|[]]. vm_compute. reflexivity.
  - vm_compute. reflexivity.
  - exact H.
Defined.

(** ** DirectMessenger *)

(** *** strings.TrimSpace *)

Ltac bytes :=
  unfold space3, space2, asciiSpace, byteIn, byteIs in *;
  repeat match goal with
    | H : _ && _ = true |- _ => apply andb_prop in H; destruct H
    | H : _ || _ = true |- _ => apply orb_prop in H; destruct H
    | H : (_ =? _)%N = true |- _ => apply N.eqb_eq in H
    | H : (_ <=? _)%N = true |- _ => apply N.leb_le in H
    | H : _ && _ = false |- _ => apply andb_false_iff in H; destruct H
    | H : _ || _ = false |- _ => apply orb_false_iff in H; destruct H
    | H : (_ =? _)%N = false |- _ => apply N.eqb_neq in H
    | H : (_ <=? _)%N = false |- _ => apply N.leb_gt in H
    end.

Lemma asciiSpace_low a : asciiSpace a = true -> (N_of_ascii a < 128)%N.
Proof. intros H. bytes; lia. Qed.

Lemma space2_high a b :
  space2 a b = true ->
  (N_of_ascii a = 194 /\ 128 <= N_of_ascii b < 192)%N.
Proof. intros H. bytes; lia. Qed.

Lemma space3_high a b c :
  space3 a b c = true ->
  (224 < N_of_ascii a /\ 128 <= N_of_ascii b < 192
   /\ 128 <= N_of_ascii c < 192)%N.
Proof. intros H. bytes; lia. Qed.

Lemma not_asciiSpace a : (128 <= N_of_ascii a)%N -> asciiSpace a = false.
Proof.
  intros H. apply not_true_is_false. intros E.
  apply asciiSpace_low in E. lia.
Qed.

Lemma not_space2_l a b : (N_of_ascii a <> 194)%N -> space2 a b = false.
Proof.
  intros H. apply not_true_is_false. intros E. apply space2_high in E. lia.
Qed.

Lemma not_space2_r a b :
  (N_of_ascii b < 128 \/ 192 <= N_of_ascii b)%N -> space2 a b = false.
Proof.
  intros H. apply not_true_is_false. intros E. apply space2_high in E. lia.
Qed.

Lemma not_space3_m a b c :
  (N_of_ascii b < 128 \/ 192 <= N_of_ascii b)%N -> space3 a b c = false.
Proof.
  intros H. apply not_true_is_false. intros E. apply space3_high in E. lia.
Qed.

Lemma not_space3_r a b c :
  (N_of_ascii c < 128 \/ 192 <= N_of_ascii c)%N -> space3 a b c = false.
Proof.
  intros H. apply not_true_is_false. intros E. apply space3_high in E. lia.
Qed.

(** The first byte of a white-space rune is not a continuation byte. *)
Lemma spaceRune_head r a t :
  spaceRune r -> r = a :: t -> (N_of_ascii a < 128 \/ 192 <= N_of_ascii a)%N.
Proof.
  intros [x Hx|x y Hxy|x y z Hxyz] [= -> _].
  - apply asciiSpace_low in Hx. lia.
  - apply space2_high in Hxy. lia.
  - apply space3_high in Hxyz. lia.
Qed.

Lemma trimLeftSpace_rune r l :
  spaceRune r -> trimLeftSpace (r ++ l) = trimLeftSpace l.
Proof.
  intros [a Ha|a b Hab|a b c Habc]; simpl.
  - rewrite Ha. reflexivity.
  - rewrite Hab. pose proof (space2_high _ _ Hab).
    rewrite not_asciiSpace by lia. reflexivity.
  - rewrite Habc. pose proof (space3_high _ _ _ Habc).
    rewrite not_asciiSpace by lia. rewrite not_space2_l by lia. reflexivity.
Qed.

Lemma trimRightSpaceRev_rune r l :
  spaceRune r -> trimRightSpaceRev (rev r ++ l) = trimRightSpaceRev l.
Proof.
  intros [a Ha|a b Hab|a b c Habc]; simpl.
  - rewrite Ha. reflexivity.
  - rewrite Hab. pose proof (space2_high _ _ Hab).
    rewrite not_asciiSpace by lia. reflexivity.
  - rewrite Habc. pose proof (space3_high _ _ _ Habc).
    rewrite not_asciiSpace by lia. rewrite not_space2_l by lia. reflexivity.
Qed.

Lemma trimLeftSpace_runes rs l :
  Forall spaceRune rs -> trimLeftSpace (concat rs ++ l) = trimLeftSpace l.
Proof.
  induction 1 as [|r rs Hr _ IH]; simpl; [reflexivity|].
  rewrite <- app_assoc, trimLeftSpace_rune by assumption. exact IH.
Qed.

Lemma trimRightSpaceRev_runes rs l :
  Forall spaceRune rs ->
  trimRightSpaceRev (rev (concat rs) ++ l) = trimRightSpaceRev l.
Proof.
  intros H. revert l. induction H as [|r rs Hr _ IH]; intros l; simpl;
    [reflexivity|].
  rewrite rev_app_distr, <- app_assoc, IH.
  apply trimRightSpaceRev_rune. assumption.
Qed.

Lemma stuck_fixed t : stuck t -> trimLeftSpace t = t.
Proof.
  destruct t as [|a [|b [|c t]]]; simpl; try tauto.
  - intros [-> _]. reflexivity.
  - intros [-> [-> _]]. reflexivity.
  - intros [-> [-> ->]]. reflexivity.
Qed.

Lemma trimLeftSpace_split l :
  exists rs, Forall spaceRune rs /\ l = concat rs ++ trimLeftSpace l
             /\ (trimLeftSpace l = [] \/ stuck (trimLeftSpace l)).
Proof.
  remember (length l) as n eqn:Hn. revert l Hn.
  induction n as [n IH] using lt_wf_ind. intros l Hn.
  destruct l as [|a t]; [exists []; simpl; auto|].
  simpl. destruct (asciiSpace a) eqn:Ha.
  { destruct (IH (length t) ltac:(simpl in Hn; lia) t eq_refl)
      as (rs & Hrs & Heq & Hst).
    exists ([a] :: rs). split; [constructor; [constructor 1|]; auto|].
    simpl. rewrite <- Heq. split; [reflexivity|exact Hst]. }
  destruct t as [|b t1].
  { exists []. simpl. rewrite Ha. repeat split; auto. }
  destruct (space2 a b) eqn:Hab.
  { destruct (IH (length t1) ltac:(simpl in Hn; lia) t1 eq_refl)
      as (rs & Hrs & Heq & Hst).
    exists ([a; b] :: rs). split; [constructor; [constructor 2|]; auto|].
    simpl. rewrite <- Heq. split; [reflexivity|exact Hst]. }
  destruct t1 as [|c t2].
  { exists []. simpl. rewrite Ha, Hab. repeat split; auto. }
  destruct (space3 a b c) eqn:Habc.
  { destruct (IH (length t2) ltac:(simpl in Hn; lia) t2 eq_refl)
      as (rs & Hrs & Heq & Hst).
    exists ([a; b; c] :: rs). split; [constructor; [constructor 3|]; auto|].
    simpl. rewrite <- Heq. split; [reflexivity|exact Hst]. }
  exists []. simpl. rewrite Ha, Hab, Habc. repeat split; auto.
Qed.

Lemma concat_head rs (a : ascii) t :
  Forall spaceRune rs -> concat rs = a :: t ->
  (N_of_ascii a < 128 \/ 192 <= N_of_ascii a)%N.
Proof.
  induction 1 as [|r rs Hr _ IH]; simpl; [discriminate|].
  destruct r as [|x r'].
  - inversion Hr.
  - intros [= -> _]. eapply spaceRune_head; eauto.
Qed.

Lemma stuck_app t rs :
  stuck t -> Forall spaceRune rs -> stuck (t ++ concat rs).
Proof.
  intros Ht Hrs.
  destruct t as [|a [|b [|c t]]]; simpl in *; try tauto.
  - destruct Ht as [Ha _]. split; [exact Ha|].
    destruct (concat rs) as [|x [|y ws]] eqn:E; [exact I| |].
    + split; [|exact I]. apply not_space2_r. eapply concat_head; eauto.
    + pose proof (concat_head _ _ _ Hrs E).
      split; [apply not_space2_r|apply not_space3_m]; assumption.
  - destruct Ht as [Ha [Hab _]]. repeat split; try assumption.
    destruct (concat rs) as [|x ws] eqn:E; [exact I|].
    apply not_space3_r. eapply concat_head; eauto.
Qed.

Lemma trimLeftSpace_app_runes l rs :
  Forall spaceRune rs ->
  trimLeftSpace (l ++ concat rs) =
  match trimLeftSpace l with
  | [] => []
  | t => t ++ concat rs
  end.
Proof.
  intros Hrs. destruct (trimLeftSpace_split l) as (pre & Hpre & Heq & Hst).
  rewrite Heq at 1. rewrite <- app_assoc, trimLeftSpace_runes by assumption.
  destruct Hst as [E|Hst].
  - rewrite E. simpl. rewrite <- (app_nil_r (concat rs)).
    rewrite trimLeftSpace_runes by assumption. reflexivity.
  - rewrite stuck_fixed by (apply stuck_app; assumption).
    destruct (trimLeftSpace l); [destruct Hst|reflexivity].
Qed.

Lemma trimBytes_pad ws1 l ws2 :
  Forall spaceRune ws1 -> Forall spaceRune ws2 ->
  trimBytes (concat ws1 ++ l ++ concat ws2) = trimBytes l.
Proof.
  intros H1 H2. unfold trimBytes.
  rewrite trimLeftSpace_runes, trimLeftSpace_app_runes by assumption.
  destruct (trimLeftSpace l) as [|a t]; [reflexivity|].
  rewrite rev_app_distr, trimRightSpaceRev_runes by assumption. reflexivity.
Qed.

Lemma list_ascii_of_string_app (a b : string) :
  list_ascii_of_string (a +:+ b)
  = list_ascii_of_string a ++ list_ascii_of_string b.
Proof.
  induction a as [|c a IH]; simpl; [reflexivity|]. rewrite IH. reflexivity.
Qed.

Lemma TrimSpace_trimBytes (s : string) :
  TrimSpace s = string_of_list_ascii (trimBytes (list_ascii_of_string s)).
Proof. reflexivity. Qed.

Lemma WhiteSpace_nl : WhiteSpace (String nl "").
Proof.
  exists [[nl]]. split; [|reflexivity].
  constructor; [constructor 1; reflexivity|constructor].
Qed.

Lemma WhiteSpace_cr : WhiteSpace (String "013"%char "").
Proof.
  exists [["013"%char]]. split; [|reflexivity].
  constructor; [constructor 1; reflexivity|constructor].
Qed.

Lemma WhiteSpace_empty : WhiteSpace "".
Proof. exists []. split; [constructor|reflexivity]. Qed.

Lemma WhiteSpace_app (a b : string) :
  WhiteSpace a -> WhiteSpace b -> WhiteSpace (a +:+ b).
Proof.
  intros (ra & Ha & Ea) (rb & Hb & Eb). exists (ra ++ rb). split.
  - apply Forall_app. auto.
  - rewrite list_ascii_of_string_app, Ea, Eb, concat_app. reflexivity.
Qed.

(** White space around a text does not change what TrimSpace returns. *)
Lemma TrimSpace_pad (ws1 s ws2 : string) :
  WhiteSpace ws1 -> WhiteSpace ws2 ->
  TrimSpace (ws1 +:+ s +:+ ws2) = TrimSpace s.
Proof.
  intros (r1 & H1 & E1) (r2 & H2 & E2).
  rewrite !TrimSpace_trimBytes, !list_ascii_of_string_app, E1, E2.
  rewrite trimBytes_pad by assumption. reflexivity.
Qed.

(** TrimSpace of white space is the empty string. *)
Lemma TrimSpace_WhiteSpace (s : string) : WhiteSpace s -> TrimSpace s = "".
Proof.
  intros (rs & H & E). rewrite TrimSpace_trimBytes, E.
  pose proof (trimBytes_pad rs [] [] H (List.Forall_nil _)) as P.
  simpl in P. rewrite app_nil_r in P. rewrite P. reflexivity.
Qed.

Lemma trimLeftSpace_fixed l :
  (forall r rest, spaceRune r -> l <> r ++ rest) -> trimLeftSpace l = l.
Proof.
  intros H. destruct l as [|a [|b [|c t]]]; simpl; [reflexivity| | |].
  - destruct (asciiSpace a) eqn:Ha; [|reflexivity].
    exfalso. apply (H [a] [] (spaceRune1 a Ha)). reflexivity.
  - destruct (asciiSpace a) eqn:Ha.
    { exfalso. apply (H [a] [b] (spaceRune1 a Ha)). reflexivity. }
    destruct (space2 a b) eqn:Hab; [|reflexivity].
    exfalso. apply (H [a; b] [] (spaceRune2 a b Hab)). reflexivity.
  - destruct (asciiSpace a) eqn:Ha.
    { exfalso. apply (H [a] (b :: c :: t) (spaceRune1 a Ha)). reflexivity. }
    destruct (space2 a b) eqn:Hab.
    { exfalso. apply (H [a; b] (c :: t) (spaceRune2 a b Hab)). reflexivity. }
    destruct (space3 a b c) eqn:Habc; [|reflexivity].
    exfalso. apply (H [a; b; c] t (spaceRune3 a b c Habc)). reflexivity.
Qed.

Lemma trimRightSpaceRev_fixed l :
  (forall r rest, spaceRune r -> l <> rest ++ r) ->
  trimRightSpaceRev (rev l) = rev l.
Proof.
  intros H.
  assert (H' : forall r rest, spaceRune r -> rev l <> rev r ++ rest).
  { intros r rest Hr E. apply (H r (rev rest) Hr).
    rewrite <- (rev_involutive l), E, rev_app_distr, rev_involutive.
    reflexivity. }
  clear H. destruct (rev l) as [|a [|b [|c t]]]; simpl; [reflexivity| | |].
  - destruct (asciiSpace a) eqn:Ha; [|reflexivity].
    exfalso. apply (H' [a] [] (spaceRune1 a Ha)). reflexivity.
  - destruct (asciiSpace a) eqn:Ha.
    { exfalso. apply (H' [a] [b] (spaceRune1 a Ha)). reflexivity. }
    destruct (space2 b a) eqn:Hab; [|reflexivity].
    exfalso. apply (H' [b; a] [] (spaceRune2 b a Hab)). reflexivity.
  - destruct (asciiSpace a) eqn:Ha.
    { exfalso. apply (H' [a] (b :: c :: t) (spaceRune1 a Ha)). reflexivity. }
    destruct (space2 b a) eqn:Hab.
    { exfalso. apply (H' [b; a] (c :: t) (spaceRune2 b a Hab)). reflexivity. }
    destruct (space3 c b a) eqn:Habc; [|reflexivity].
    exfalso. apply (H' [c; b; a] t (spaceRune3 c b a Habc)). reflexivity.
Qed.

(** TrimSpace leaves a text without white space at its ends as it is. *)
Lemma TrimSpace_fixed (s : string) : noSpaceAtEnds s -> TrimSpace s = s.
Proof.
  intros H. unfold TrimSpace.
  rewrite trimLeftSpace_fixed by (intros r rest Hr; apply (H r rest Hr)).
  rewrite trimRightSpaceRev_fixed by (intros r rest Hr; apply (H r rest Hr)).
  rewrite rev_involutive. apply string_of_list_ascii_of_string.
Qed.

(** The last byte of a white-space rune is an ASCII white space or a
    continuation byte. *)
Lemma spaceRune_last r z t :
  spaceRune r -> rev r = z :: t ->
  asciiSpace z = true \/ (128 <= N_of_ascii z)%N.
Proof.
  intros [x Hx|x y Hxy|x y y' Hxyz] [= -> _].
  - left. assumption.
  - right. apply space2_high in Hxy. lia.
  - right. apply space3_high in Hxyz. lia.
Qed.

Lemma plain_not_space c :
  plain c = true -> asciiSpace c = false /\ (N_of_ascii c < 128)%N.
Proof.
  unfold plain. intros H. apply andb_prop in H as [H1 H2].
  apply N.ltb_lt in H1. apply negb_true_iff in H2. auto.
Qed.

Lemma plainEnds_noSpaceAtEnds (s : string) :
  plainEnds s = true -> noSpaceAtEnds s.
Proof.
  unfold plainEnds, noSpaceAtEnds. intros H r rest Hr.
  apply andb_prop in H as [Hh Hl]. split; intros E.
  - rewrite E in Hh. destruct r as [|a r'] eqn:Er; [inversion Hr|].
    simpl in Hh. apply plain_not_space in Hh as [Hns Hlow].
    pose proof (spaceRune_head _ a r' Hr eq_refl) as [Hlt|Hge]; [|lia].
    inversion Hr; subst.
    + congruence.
    + match goal with X : space2 _ _ = true |- _ =>
        apply space2_high in X end. lia.
    + match goal with X : space3 _ _ _ = true |- _ =>
        apply space3_high in X end. lia.
  - rewrite E, rev_app_distr in Hl.
    destruct (rev r) as [|z t] eqn:Er.
    + apply (f_equal (@rev ascii)) in Er. rewrite rev_involutive in Er.
      subst r. inversion Hr.
    + simpl in Hl. apply plain_not_space in Hl as [Hns Hlow].
      destruct (spaceRune_last r z t Hr Er) as [Hsp|Hge]; [congruence|lia].
Qed.

(** *** The read loop *)

Lemma cutAfter_frame (frame rest : string) :
  isFrame frame ->
  cutAfter nl (frame +:+ String nl rest) = Some (frame +:+ String nl "", rest).
Proof.
  unfold isFrame. induction frame as [|c f IH]; simpl; intros H.
  - reflexivity.
  - destruct (Ascii.eqb_spec c nl) as [->|Hne]; [exfalso; auto|].
    rewrite IH by tauto. reflexivity.
Qed.

Lemma cutAfter_none (s : string) :
  isFrame s -> cutAfter nl s = None.
Proof.
  unfold isFrame. induction s as [|c f IH]; simpl; intros H; [reflexivity|].
  destruct (Ascii.eqb_spec c nl) as [->|Hne]; [exfalso; auto|].
  rewrite IH by tauto. reflexivity.
Qed.

Section Loop.
Context `{L : Libs}.

Lemma readLoop_line (peerAddr frame rest : string) (fin : error) :
  isFrame frame ->
  readLoop peerAddr {| pending := frame +:+ String nl rest; final := fin |} =
  (call (Print (dispatch peerAddr (lineOf frame))) ;;
   readLoop peerAddr {| pending := rest; final := fin |}).
Proof.
  intros Hf. unfold lineOf. rewrite readLoop_equation_1.
  destruct (inspect (ReadString nl _)) as [[[line err] r'] Heq].
  assert (E : (line, err, r')
              = (frame +:+ String nl "", None,
                 {| pending := rest; final := fin |})).
  { rewrite <- Heq. unfold ReadString. simpl pending.
    rewrite (cutAfter_frame _ _ Hf). reflexivity. }
  injection E as -> -> ->.
  simp readLoop. unfold dispatch. cbv zeta.
  destruct (UnmarshalMessage _) as [m [e|]]; reflexivity.
Qed.

Lemma readLoop_end (peerAddr partial : string) (fin : error) :
  isFrame partial ->
  readLoop peerAddr {| pending := partial; final := fin |} =
  if isEOF fin then Ret tt else call (Print (LnStreamReadErr fin)).
Proof.
  intros Hf. rewrite readLoop_equation_1.
  destruct (inspect (ReadString nl _)) as [[[line err] r'] Heq].
  assert (E : (line, err, r')
              = (partial, Some fin, {| pending := ""; final := fin |})).
  { rewrite <- Heq. unfold ReadString. simpl pending.
    rewrite (cutAfter_none _ Hf). reflexivity. }
  injection E as -> -> ->.
  simp readLoop. reflexivity.
Qed.
End Loop.

Lemma append_String_assoc (a : string) (c : ascii) (b d : string) :
  (a +:+ String c b) +:+ d = a +:+ String c (b +:+ d).
Proof.
  induction a as [|x a IH]; [reflexivity|].
  change (String x ((a +:+ String c b) +:+ d)
          = String x (a +:+ String c (b +:+ d))).
  f_equal. exact IH.
Qed.

Lemma append_assoc (a b c : string) : (a +:+ b) +:+ c = a +:+ (b +:+ c).
Proof.
  induction a as [|x a IH]; [reflexivity|].
  change (String x ((a +:+ b) +:+ c) = String x (a +:+ (b +:+ c))).
  f_equal. exact IH.
Qed.

Section HandlerFacts.
Context `{L : Libs} {W : Type} (h : Handler W).

Lemma exec_print_bind {B : Type} (l : Line) (p : Prog B) (w : W) :
  snd (exec h (call (Print l) ;; p) w)
  = Ev (Print l) tt :: snd (exec h p (snd (h _ (Print l) w))) /\
  fst (fst (exec h (call (Print l) ;; p) w))
  = fst (fst (exec h p (snd (h _ (Print l) w)))).
Proof.
  rewrite exec_call_bind. destruct (fst (h _ (Print l) w)).
  destruct (exec h p _) as [[b w2] t]. auto.
Qed.

(** The loop prints one line per frame and stops at the end of the
    stream; a last line without its newline is dropped. *)
Lemma readLoop_frames (peerAddr : string) (frames : list string)
    (partial : string) (fin : error) (w : W) :
  Forall isFrame frames -> isFrame partial ->
  snd (exec h (readLoop peerAddr
                 {| pending := frameBytes frames +:+ partial;
                    final := fin |}) w)
  = prints (map (fun f => dispatch peerAddr (lineOf f)) frames
            ++ readErrLines fin).
Proof.
  intros Hfs Hp. revert w. induction Hfs as [|f rest Hf _ IH]; intros w.
  - simpl. rewrite readLoop_end by assumption. unfold readErrLines.
    destruct (isEOF fin); [reflexivity|].
    rewrite exec_call. simpl. destruct (fst (h _ _ w)). reflexivity.
  - change (frameBytes (f :: rest))
      with (f +:+ String nl (frameBytes rest)).
    rewrite append_String_assoc.
    rewrite readLoop_line by assumption.
    destruct (exec_print_bind (dispatch peerAddr (lineOf f))
                (readLoop peerAddr
                   {| pending := frameBytes rest +:+ partial; final := fin |})
                w) as [-> _].
    rewrite IH. reflexivity.
Qed.

Lemma streamHandler_frames (s : Stream) (peerAddr : string)
    (frames : list string) (partial : string) (fin : error) (w : W) :
  Forall isFrame frames -> isFrame partial ->
  snd (exec h (streamHandler s peerAddr
                 {| pending := frameBytes frames +:+ partial;
                    final := fin |}) w)
  = prints (map (fun f => dispatch peerAddr (lineOf f)) frames
            ++ readErrLines fin)
    ++ [Ev (StreamClose s) tt].
Proof.
  intros Hfs Hp. unfold streamHandler, defer.
  rewrite exec_bind.
  pose proof (readLoop_frames peerAddr frames partial fin w Hfs Hp) as H.
  destruct (exec h (readLoop _ _) w) as [[[] w1] t1]. simpl in H. subst t1.
  rewrite exec_call_bind. simpl. destruct (fst (h _ _ w1)). reflexivity.
Qed.

Lemma dispatchedOf_dispatch (peerAddr : string) (frames : list string)
    (fin : error) :
  dispatchedOf (map (fun f => dispatch peerAddr (lineOf f)) frames
                ++ readErrLines fin)
  = omap (fun f => accepted (lineOf f)) frames.
Proof.
  unfold dispatchedOf. rewrite omap_app.
  assert (E : omap (fun l => match l with LnMessage m => Some m | _ => None end)
                (readErrLines fin) = []).
  { unfold readErrLines. destruct (isEOF fin); reflexivity. }
  rewrite E, app_nil_r. clear E.
  induction frames as [|f rest IH]; [reflexivity|].
  change (omap ?g (map ?k (f :: rest)))
    with (match g (k f) with
          | Some y => y :: omap g (map k rest)
          | None => omap g (map k rest)
          end).
  change (omap ?g (f :: rest))
    with (match g f with
          | Some y => y :: omap g rest
          | None => omap g rest
          end).
  rewrite IH. unfold dispatch, accepted. cbv zeta.
  destruct (UnmarshalMessage _) as [m [e|]]; reflexivity.
Qed.

(** C5.  On a stream carrying any sequence of frames, the handler prints
    one line per frame, in order: the message when the frame parses, a
    report naming the peer and the text when it does not; it goes on to
    the next frame either way and closes the stream at the end.  So the
    messages it displays are those of the frames that parse, and a
    malformed frame followed by a well-formed one yields the report and
    then exactly one displayed message. *)
Theorem handler_skips_malformed_frames (w : W) (s : Stream)
    (peerAddr : string) (frames : list string) (partial : string)
    (fin : error) :
  Forall isFrame frames -> isFrame partial ->
  let r := {| pending := frameBytes frames +:+ partial; final := fin |} in
  let tr := snd (exec h (streamHandler s peerAddr r) w) in
  tr = prints (map (fun f => dispatch peerAddr (lineOf f)) frames
               ++ readErrLines fin)
       ++ [Ev (StreamClose s) tt] /\
  dispatchedOf (printedOf tr) = omap (fun f => accepted (lineOf f)) frames /\
  (forall bad good m,
     frames = [bad; good] ->
     accepted (lineOf bad) = None ->
     accepted (lineOf good) = Some m ->
     printedOf tr
     = [LnInvalidMessage peerAddr (TrimSpace (lineOf bad)); LnMessage m]
       ++ readErrLines fin /\
     dispatchedOf (printedOf tr) = [m]).
Proof.
  intros Hfs Hp r tr.
  assert (Htr : tr = prints (map (fun f => dispatch peerAddr (lineOf f)) frames
                             ++ readErrLines fin)
                     ++ [Ev (StreamClose s) tt])
    by (apply streamHandler_frames; assumption).
  assert (Hpr : printedOf tr
                = map (fun f => dispatch peerAddr (lineOf f)) frames
                  ++ readErrLines fin).
  { rewrite Htr, printedOf_app, printedOf_prints. apply app_nil_r. }
  assert (Hd : dispatchedOf (printedOf tr)
               = omap (fun f => accepted (lineOf f)) frames)
    by (rewrite Hpr; apply dispatchedOf_dispatch).
  split; [exact Htr|]. split; [exact Hd|].
  intros bad good m -> Hbad Hgood. split.
  - rewrite Hpr. simpl. unfold dispatch, accepted in *. cbv zeta.
    destruct (UnmarshalMessage (TrimSpace (lineOf bad))) as [m1 [e1|]];
      [|discriminate].
    destruct (UnmarshalMessage (TrimSpace (lineOf good))) as [m2 [e2|]];
      [discriminate|].
    injection Hgood as ->. reflexivity.
  - rewrite Hd. simpl. rewrite Hbad, Hgood. reflexivity.
Qed.

(** C10.  The line the handler read is passed through TrimSpace before it
    is parsed: white space before and after the text of the line, a
    carriage return before the newline included, does not reach the
    parser, which is given the text between them, and that text itself
    when it has no white space at its ends.  A line of white space only
    is parsed as the empty text, which the decoder rejects: the handler
    reports it as an invalid message and goes on with the rest of the
    stream. *)
Theorem handler_trims_lines (peerAddr ws1 core ws2 rest : string)
    (fin : error) :
  WhiteSpace ws1 -> WhiteSpace ws2 -> isFrame (ws1 +:+ core +:+ ws2) ->
  let r := {| pending := (ws1 +:+ core +:+ ws2) +:+ String nl rest;
              final := fin |} in
  let r' := {| pending := rest; final := fin |} in
  WhiteSpace (String "013"%char "") /\
  TrimSpace (lineOf (ws1 +:+ core +:+ ws2)) = TrimSpace core /\
  readLoop peerAddr r
  = (call (Print (dispatch peerAddr core)) ;; readLoop peerAddr r') /\
  (noSpaceAtEnds core ->
   TrimSpace (lineOf (ws1 +:+ core +:+ ws2)) = core /\
   readLoop peerAddr r
   = (call (Print match UnmarshalMessage core with
                  | (_, Some _) => LnInvalidMessage peerAddr core
                  | (m, None) => LnMessage m
                  end) ;;
      readLoop peerAddr r')) /\
  (WhiteSpace core -> snd (UnmarshalMessage "") <> None ->
   readLoop peerAddr r
   = (call (Print (LnInvalidMessage peerAddr "")) ;; readLoop peerAddr r')).
Proof.
  intros H1 H2 Hf r r'.
  assert (Ht : TrimSpace (lineOf (ws1 +:+ core +:+ ws2)) = TrimSpace core).
  { unfold lineOf. rewrite !append_assoc.
    apply TrimSpace_pad; [assumption|].
    apply WhiteSpace_app; [assumption|apply WhiteSpace_nl]. }
  assert (Hr : readLoop peerAddr r
               = (call (Print (dispatch peerAddr core)) ;;
                  readLoop peerAddr r')).
  { unfold r. rewrite readLoop_line by assumption. fold r'.
    unfold dispatch. rewrite Ht. reflexivity. }
  split; [apply WhiteSpace_cr|]. split; [exact Ht|]. split; [exact Hr|].
  split.
  - intros Hc. rewrite Ht, Hr. unfold dispatch.
    rewrite (TrimSpace_fixed core Hc). split; reflexivity.
  - intros Hc Hrej. rewrite Hr. unfold dispatch.
    rewrite (TrimSpace_WhiteSpace core Hc).
    destruct (UnmarshalMessage "") as [m [e|]]; [reflexivity|].
    exfalso. apply Hrej. reflexivity.
Qed.

End HandlerFacts.

Section SendFacts.
Context `{L : Libs} {W : Type} (h : Handler W).

Lemma exec_defer_close {R : Type} (s : Stream) (body : Prog R) (w : W) :
  exec h (defer (call (StreamClose s)) body) w =
  let '(r, w1, t1) := exec h body w in
  (r, snd (h _ (StreamClose s) w1), t1 ++ [Ev (StreamClose s) tt]).
Proof.
  unfold defer. rewrite exec_bind.
  destruct (exec h body w) as [[r w1] t1].
  rewrite exec_call_bind. simpl.
  destruct (fst (h _ (StreamClose s) w1)). reflexivity.
Qed.

(** C7.  Send opens one stream to the decoded peer under [protocolID],
    reads the clock once and writes one frame on that stream: the
    serialization of the Message with the local identifier, that time
    and the given body, followed by one newline.  It returns the outcome
    of the write, prints "sent" when the write succeeded, and in both
    cases its last call closes the stream.  When the stream cannot be
    opened there is nothing to close, and when the identifier does not
    decode no call is made at all. *)
Theorem send_writes_one_frame (w : W) (self : PeerID)
    (peerIDStr body : string) :
  let x := exec h (sendMessage self peerIDStr body) w in
  match peer_Decode peerIDStr with
  | Err e => x = (Some e, w, [])
  | Ok pid =>
      let o := fst (h _ (NewStream pid protocolID) w) in
      let w1 := snd (h _ (NewStream pid protocolID) w) in
      match o with
      | Err e => x = (Some e, w1, [Ev (NewStream pid protocolID) (Err e)])
      | Ok s =>
          let now := fst (h _ Now w1) in
          let frame :=
            MarshalMessage {| From := peer_String self; When := now;
                              Body := body |} +:+ String nl "" in
          let wr := fst (h _ (StreamWrite s frame) (snd (h _ Now w1))) in
          fst (fst x) = wr /\
          snd x = [Ev (NewStream pid protocolID) (Ok s); Ev Now now;
                   Ev (StreamWrite s frame) wr]
                  ++ match wr with
                     | None => [Ev (Print LnSent) tt]
                     | Some _ => []
                     end
                  ++ [Ev (StreamClose s) tt] /\
          omap opened (snd x) = [s] /\
          omap (wroteOn s) (snd x) = [frame] /\
          omap closedBy (snd x) = [s]
      end
  end.
Proof.
  intros x. subst x. unfold sendMessage.
  destruct (peer_Decode peerIDStr) as [pid|e]; [|reflexivity].
  rewrite exec_call_bind.
  destruct (fst (h _ (NewStream pid protocolID) w)) as [s|e]; [|reflexivity].
  cbv zeta. rewrite exec_defer_close, exec_call_bind.
  set (w1 := snd (h _ (NewStream pid protocolID) w)).
  set (now := fst (h _ Now w1)).
  set (frame := MarshalMessage _ +:+ String nl "").
  rewrite exec_call_bind.
  set (wr := fst (h _ (StreamWrite s frame) (snd (h _ Now w1)))).
  assert (Hs : (s =? s)%nat = true) by apply Nat.eqb_refl.
  destruct wr as [e|].
  - simpl. unfold wroteOn. simpl. rewrite Hs. repeat split; reflexivity.
  - rewrite exec_call_bind. simpl.
    destruct (fst (h _ (Print LnSent) _)).
    unfold wroteOn. simpl. rewrite Hs. repeat split; reflexivity.
Qed.

End SendFacts.

(** ** AddressBook *)

Section AddressBookFacts.
Context `{L : Libs} {W : Type} (h : Handler W).

Lemma connectPeer_run (w : W) (addrStr : string) (maddr : Multiaddr)
    (pi : AddrInfo) :
  NewMultiaddr addrStr = Ok maddr ->
  AddrInfoFromP2pAddr maddr = Ok pi ->
  let reg := AddAddrs (ID pi) (Addrs pi) PermanentAddrTTL in
  let w1 := snd (h _ reg w) in
  let c := fst (h _ (Connect pi) w1) in
  let w2 := snd (h _ (Connect pi) w1) in
  exec h (connectPeer addrStr) w =
  match c with
  | Some e => (Some e, w2, [Ev reg tt; Ev (Connect pi) c])
  | None =>
      (None, snd (h _ (Print (LnConnected (peer_String (ID pi)))) w2),
       [Ev reg tt; Ev (Connect pi) c;
        Ev (Print (LnConnected (peer_String (ID pi)))) tt])
  end.
Proof.
  intros Hm Hp reg w1 c w2. unfold connectPeer.
  rewrite Hm, Hp. rewrite !exec_call_bind. fold reg.
  destruct (fst (h _ reg w)). fold w1. fold c w2.
  destruct c as [e|]; [reflexivity|].
  rewrite exec_call_bind. simpl. destruct (fst (h _ (Print _) w2)).
  reflexivity.
Qed.

(** Connect on the text of a multiaddr that splits into [a] and [p]. *)
Lemma connectPeer_invite (w : W) (a : Multiaddr) (p : PeerID)
    (m : Multiaddr) :
  ma_String m = inviteString a (peer_String p) ->
  NewMultiaddr (ma_String m) = Ok m ->
  AddrInfoFromP2pAddr m = Ok (p, [a]) ->
  exists c rest,
    snd (exec h (connectPeer (inviteString a (peer_String p))) w)
    = Ev (AddAddrs p [a] PermanentAddrTTL) tt
      :: Ev (Connect (p, [a])) c :: rest.
Proof.
  intros Hs Hm Hp. rewrite Hs in Hm.
  pose proof (connectPeer_run w _ m (p, [a]) Hm Hp) as H.
  cbv zeta in H. rewrite H.
  destruct (fst (h _ (Connect (p, [a])) _)); simpl; eauto.
Qed.

Lemma printInvites_run (id : string) (addrs : list Multiaddr) (w : W) :
  snd (exec h (printInvites id addrs) w)
  = prints (map (fun a => LnInvite (inviteString a id)) addrs).
Proof.
  revert w. induction addrs as [|a rest IH]; intros w; [reflexivity|].
  change (printInvites id (a :: rest))
    with (call (Print (LnInvite (inviteString a id))) ;;
          printInvites id rest).
  destruct (exec_print_bind h (LnInvite (inviteString a id))
              (printInvites id rest) w) as [-> _].
  rewrite IH. reflexivity.
Qed.

Lemma printInvite_run (self : PeerID) (w : W) :
  let addrs := fst (h _ HostAddrs w) in
  printedOf (snd (exec h (printInvite self) w))
  = match addrs with
    | [] => [LnNoListenAddrs]
    | _ => map (fun a => LnInvite (inviteString a (peer_String self))) addrs
           ++ [LnShareHint]
    end.
Proof.
  intros addrs. unfold printInvite. rewrite exec_call_bind. fold addrs.
  destruct addrs as [|a rest] eqn:E.
  - rewrite exec_call. reflexivity.
  - rewrite exec_bind.
    pose proof (printInvites_run (peer_String self) (a :: rest)
                  (snd (h _ HostAddrs w))) as H.
    destruct (exec h (printInvites _ _) _) as [[[] w1] t1].
    cbn [snd] in H. subst t1. rewrite exec_call. cbn [snd].
    change (Ev HostAddrs (a :: rest) :: ?t)
      with ([Ev HostAddrs (a :: rest)] ++ t).
    rewrite !printedOf_app, printedOf_prints. reflexivity.
Qed.

End AddressBookFacts.

(** In the reference world a failed Connect leaves the addresses of the
    invite in the peerstore, with the permanent TTL. *)
Lemma Ref_connect_keeps (rw : Ref.World) (addrStr : string)
    (maddr : Ref.Multiaddr) (p : Ref.PeerID) (addrs : list Ref.Multiaddr)
    (e : error) :
  Ref.NewMultiaddr addrStr = Ok maddr ->
  Ref.AddrInfoFromP2pAddr maddr = Ok (p, addrs) ->
  let x := exec Ref.world (@connectPeer Ref.libs addrStr) rw in
  fst (fst x) = Some e ->
  Ref.peerstore (snd (fst x))
  = Ref.peerstore rw ++ map (fun a => (p, a, 2 ^ 63 - 1)) addrs.
Proof.
  intros Hm Hp x. subst x.
  pose proof (@connectPeer_run Ref.libs _ Ref.world rw addrStr maddr
                (p, addrs) Hm Hp) as H.
  cbv zeta in H. rewrite H. clear H.
  change (fst (Ref.world _ (@Connect Ref.libs (p, addrs)) ?w))
    with (fst (if Ref.isReachable p w then (None, w)
               else (Some (ErrLib "failed to dial"), w))).
  change (snd (Ref.world _ (@Connect Ref.libs (p, addrs)) ?w))
    with (snd (if Ref.isReachable p w then (@None error, w)
               else (Some (ErrLib "failed to dial"), w))).
  destruct (Ref.isReachable p _); cbn [fst snd]; [discriminate|].
  intros _. reflexivity.
Qed.

(** C6.  For an invite string whose multiaddr and peer part parse,
    Connect first records the embedded addresses for the embedded peer
    with the permanent TTL and then asks the host to connect; it returns
    the outcome of that connection.  When the connection fails, the
    error is returned and Connect makes no further call: the world is
    left as the failed connection attempt left it.  In the reference
    world the peerstore then holds the addresses of the invite, with the
    permanent TTL, after what it held before. *)
Theorem connect_registers_then_dials :
  (forall (L : Libs) (W : Type) (h : Handler W) (w : W) (addrStr : string)
          (maddr : Multiaddr) (pi : AddrInfo),
   NewMultiaddr addrStr = Ok maddr ->
   AddrInfoFromP2pAddr maddr = Ok pi ->
   let x := exec h (connectPeer addrStr) w in
   let reg := AddAddrs (ID pi) (Addrs pi) PermanentAddrTTL in
   let w1 := snd (h _ reg w) in
   let c := fst (h _ (Connect pi) w1) in
   let w2 := snd (h _ (Connect pi) w1) in
   fst (fst x) = c /\
   snd x = [Ev reg tt; Ev (Connect pi) c]
           ++ match c with
              | None => [Ev (Print (LnConnected (peer_String (ID pi)))) tt]
              | Some _ => []
              end /\
   (forall e, c = Some e ->
              x = (Some e, w2, [Ev reg tt; Ev (Connect pi) (Some e)])))
  /\
  (forall (rw : Ref.World) (addrStr : string) (maddr : Ref.Multiaddr)
          (p : Ref.PeerID) (addrs : list Ref.Multiaddr) (e : error),
   Ref.NewMultiaddr addrStr = Ok maddr ->
   Ref.AddrInfoFromP2pAddr maddr = Ok (p, addrs) ->
   let x := exec Ref.world (@connectPeer Ref.libs addrStr) rw in
   fst (fst x) = Some e ->
   Ref.peerstore (snd (fst x))
   = Ref.peerstore rw ++ map (fun a => (p, a, 2 ^ 63 - 1)) addrs).
Proof.
  split; [|exact Ref_connect_keeps].
  intros L W h w addrStr maddr pi Hm Hp x reg w1 c w2.
  pose proof (connectPeer_run h w addrStr maddr pi Hm Hp) as H.
  cbv zeta in H. fold reg w1 c w2 x in H. rewrite H.
  destruct c as [e|]; simpl; repeat split; try discriminate.
  intros e' [= ->]. reflexivity.
Qed.


(** ** The reference multiaddrs: the text of a multiaddr parses back *)

Module RefAddrFacts.
Import Ref RefAddr.

Lemma append_nil_r (s : string) : s +:+ "" = s.
Proof.
  induction s as [|c s IH]; [reflexivity|].
  change (String c (s +:+ "") = String c s). f_equal. exact IH.
Qed.

Lemma noSlash_cons c s : noSlash (String c s) -> c <> slash /\ noSlash s.
Proof. unfold noSlash. simpl. intros H. split; intros E; apply H; auto. Qed.

Lemma splitSlash_noSlash s : noSlash s -> splitSlash s = [s].
Proof.
  induction s as [|c s IH]; intros H; [reflexivity|].
  apply noSlash_cons in H as [Hc Hs]. simpl.
  destruct (Ascii.eqb_spec c slash) as [E|_]; [contradiction|].
  rewrite (IH Hs). reflexivity.
Qed.

Lemma splitSlash_app s t :
  noSlash s -> splitSlash (s +:+ String slash t) = s :: splitSlash t.
Proof.
  induction s as [|c s IH]; intros H; [reflexivity|].
  apply noSlash_cons in H as [Hc Hs].
  change (String c s +:+ String slash t)
    with (String c (s +:+ String slash t)).
  simpl. destruct (Ascii.eqb_spec c slash) as [E|_]; [contradiction|].
  rewrite (IH Hs). reflexivity.
Qed.

Lemma splitSlash_join ts :
  ts <> [] -> Forall noSlash ts -> splitSlash (joinSlash ts) = ts.
Proof.
  induction ts as [|t rest IH]; intros Hne H; [contradiction|].
  inversion H as [|? ? Ht Hrest]; subst.
  destruct rest as [|t2 rest].
  - simpl. apply splitSlash_noSlash. assumption.
  - change (joinSlash (t :: t2 :: rest))
      with (t +:+ String slash (joinSlash (t2 :: rest))).
    rewrite splitSlash_app by assumption.
    rewrite IH by (auto; discriminate). reflexivity.
Qed.

Lemma trimRightSlash_noSlash s :
  noSlash s -> s <> "" -> trimRightSlash s = s.
Proof.
  induction s as [|c s IH]; intros H Hne; [contradiction|].
  apply noSlash_cons in H as [Hc Hs]. simpl.
  destruct s as [|c2 s].
  - simpl. destruct (Ascii.eqb_spec c slash); [contradiction|reflexivity].
  - rewrite IH by (auto; discriminate). reflexivity.
Qed.

Lemma trimRightSlash_app a b :
  b <> "" -> trimRightSlash b = b -> trimRightSlash (a +:+ b) = a +:+ b.
Proof.
  intros Hne Hb. induction a as [|c a IH]; [exact Hb|].
  change (String c a +:+ b) with (String c (a +:+ b)). simpl.
  rewrite IH. destruct (a +:+ b) eqn:E; [|reflexivity].
  destruct a; [simpl in E; contradiction|discriminate].
Qed.

Lemma trimRightSlash_cons c s :
  trimRightSlash s = s -> s <> "" -> trimRightSlash (String c s) = String c s.
Proof.
  intros H Hne. simpl. rewrite H. destruct s; [contradiction|reflexivity].
Qed.

Lemma trimRightSlash_join ts :
  ts <> [] -> Forall (fun t => noSlash t /\ t <> "") ts ->
  trimRightSlash (joinSlash ts) = joinSlash ts /\ joinSlash ts <> "".
Proof.
  induction ts as [|t rest IH]; intros Hne H; [contradiction|].
  inversion H as [|? ? [Ht Htne] Hrest]; subst.
  destruct rest as [|t2 rest].
  - simpl. split; [apply trimRightSlash_noSlash|]; assumption.
  - change (joinSlash (t :: t2 :: rest))
      with (t +:+ String slash (joinSlash (t2 :: rest))).
    destruct (IH ltac:(discriminate) Hrest) as [IH1 IH2].
    assert (Hs : trimRightSlash (String slash (joinSlash (t2 :: rest)))
                 = String slash (joinSlash (t2 :: rest)))
      by (apply trimRightSlash_cons; assumption).
    split.
    + apply trimRightSlash_app; [discriminate|exact Hs].
    + destruct t; discriminate.
Qed.

(** The names of the protocol table are not empty and hold no slash. *)
Lemma protocolWithName_name n b :
  protocolWithName n = Some b -> noSlash n /\ n <> "".
Proof.
  unfold protocolWithName.
  destruct (existsb _ _) eqn:E1.
  - intros _. apply existsb_exists in E1 as (x & Hin & Heq).
    apply String.eqb_eq in Heq. subst x. simpl in Hin.
    repeat (destruct Hin as [<-|Hin];
            [split; [unfold noSlash; simpl; intuition discriminate
                    |discriminate]|]).
    destruct Hin.
  - clear E1. destruct (existsb _ _) eqn:E2; [|intros; discriminate].
    intros _. apply existsb_exists in E2 as (x & Hin & Heq).
    apply String.eqb_eq in Heq. subst x. simpl in Hin.
    repeat (destruct Hin as [<-|Hin];
            [split; [unfold noSlash; simpl; intuition discriminate
                    |discriminate]|]).
    destruct Hin.
Qed.

Lemma tokens_valid m :
  Forall validComponent m ->
  Forall (fun t => noSlash t /\ t <> "") (tokens m).
Proof.
  induction 1 as [|[n v] rest Hc _ IH]; [constructor|].
  unfold tokens. simpl. fold (tokens rest).
  destruct Hc as [(Hn & Hv & Hs)|(Hn & Hv)]; simpl in *.
  - apply protocolWithName_name in Hn.
    destruct (String.eqb_spec v ""); [contradiction|].
    simpl. repeat constructor; tauto.
  - apply protocolWithName_name in Hn. subst v. simpl.
    repeat constructor; tauto.
Qed.

Lemma tokens_nonempty m : Forall validComponent m -> m <> [] -> tokens m <> [].
Proof.
  intros _ Hne. destruct m as [|[n v] rest]; [contradiction|].
  unfold tokens. simpl. destruct (String.eqb v ""); discriminate.
Qed.

Lemma ma_String_tokens m :
  Forall validComponent m -> m <> [] ->
  ma_String m = String slash (joinSlash (tokens m)).
Proof.
  induction 1 as [|[n v] rest Hc Hrest IH]; intros Hne; [contradiction|].
  change (ma_String ((n, v) :: rest))
    with (componentString (n, v) +:+ ma_String rest).
  unfold componentString. simpl fst. simpl snd.
  change (tokens ((n, v) :: rest))
    with ((if String.eqb v "" then [n] else [n; v]) ++ tokens rest).
  destruct rest as [|c2 rest].
  - change (ma_String []) with "". rewrite append_nil_r.
    change (tokens []) with (@nil string). rewrite app_nil_r.
    destruct (String.eqb v "").
    + simpl joinSlash. rewrite append_nil_r. reflexivity.
    + reflexivity.
  - rewrite (IH ltac:(discriminate)).
    pose proof (tokens_nonempty (c2 :: rest) Hrest ltac:(discriminate)) as Ht.
    destruct (tokens (c2 :: rest)) as [|t0 ts] eqn:E; [contradiction|].
    destruct (String.eqb v "").
    + rewrite append_nil_r. reflexivity.
    + change ("/" +:+ n +:+ "/" +:+ v)
        with (String slash (n +:+ String slash v)).
      change (String slash (n +:+ String slash v) +:+ ?x)
        with (String slash ((n +:+ String slash v) +:+ x)).
      rewrite append_String_assoc. reflexivity.
Qed.

Lemma parseComponents_tokens m :
  Forall validComponent m -> parseComponents (tokens m) = Ok m.
Proof.
  induction 1 as [|[n v] rest Hc _ IH]; [reflexivity|].
  change (tokens ((n, v) :: rest))
    with ((if String.eqb v "" then [n] else [n; v]) ++ tokens rest).
  destruct Hc as [(Hn & Hv & Hs)|(Hn & Hv)]; simpl in *.
  - destruct (String.eqb_spec v ""); [contradiction|].
    simpl. rewrite Hn.
    destruct (String.eqb_spec v ""); [contradiction|].
    rewrite IH. reflexivity.
  - subst v. simpl. rewrite Hn, IH. reflexivity.
Qed.

(** The text of a well-formed multiaddr parses to that multiaddr. *)
Lemma NewMultiaddr_ma_String m :
  wellFormed m -> NewMultiaddr (ma_String m) = Ok m.
Proof.
  intros [Hne Hv]. unfold NewMultiaddr.
  rewrite (ma_String_tokens m Hv Hne).
  pose proof (tokens_valid m Hv) as Ht.
  pose proof (tokens_nonempty m Hv Hne) as Htne.
  destruct (trimRightSlash_join (tokens m) Htne Ht) as [H1 H2].
  assert (Hs : trimRightSlash (String slash (joinSlash (tokens m)))
               = String slash (joinSlash (tokens m)))
    by (apply trimRightSlash_cons; assumption).
  rewrite Hs.
  change (splitSlash (String slash ?x)) with (EmptyString :: splitSlash x).
  rewrite splitSlash_join; [|assumption|].
  - destruct (tokens m) as [|t0 ts] eqn:E; [contradiction|].
    rewrite <- E. apply parseComponents_tokens. assumption.
  - eapply Forall_impl; [exact Ht|]. simpl. tauto.
Qed.

Lemma ma_String_app (a b : Multiaddr) :
  ma_String (a ++ b) = ma_String a +:+ ma_String b.
Proof.
  induction a as [|c a IH]; [reflexivity|].
  change (ma_String ((c :: a) ++ b))
    with (componentString c +:+ ma_String (a ++ b)).
  change (ma_String (c :: a)) with (componentString c +:+ ma_String a).
  rewrite IH, append_assoc. reflexivity.
Qed.

(** What go-multiaddr is asked for in the round trip of an invite, for
    every well-formed address and peer identifier. *)
Lemma invite_laws (a : Multiaddr) (p : PeerID) :
  wellFormed a -> validPeerID p ->
  let m := a ++ [("p2p", p)] in
  ma_String m = @inviteString libs a p /\
  NewMultiaddr (ma_String m) = Ok m /\
  AddrInfoFromP2pAddr m = Ok (p, [a]).
Proof.
  intros [Hne Hv] [Hp Hps] m. split; [|split].
  - unfold m, inviteString. rewrite ma_String_app. f_equal.
    change (ma_String [("p2p", p)])
      with (componentString ("p2p", p) +:+ "").
    rewrite append_nil_r. unfold componentString. simpl.
    destruct (String.eqb_spec p ""); [contradiction|reflexivity].
  - apply NewMultiaddr_ma_String. split.
    + unfold m. destruct a; discriminate.
    + apply Forall_app. split; [assumption|].
      constructor; [|constructor]. left. simpl. auto.
  - unfold AddrInfoFromP2pAddr, m. rewrite rev_app_distr. simpl.
    destruct (rev a) as [|x r] eqn:E.
    + apply (f_equal (@rev _)) in E. rewrite rev_involutive in E.
      contradiction.
    + rewrite <- E, rev_involutive. reflexivity.
Qed.

End RefAddrFacts.

(** C8.  Encoding prints one invite per local address, the text of the
    address followed by /p2p/ and the text of the peer identifier, in the
    order of the addresses.  Decoding such an invite, as Connect does,
    yields the address and the identifier it was made from: Connect
    records exactly that address for exactly that peer and dials it.
    This rests on three facts of go-multiaddr: the invite is the text of
    a multiaddr, that text parses to the multiaddr, and the multiaddr
    splits into the address and the identifier.  They hold in the
    reference implementation for every well-formed address and
    identifier. *)
Theorem invite_round_trip `{L : Libs} {W : Type} (h : Handler W) (w : W)
    (self : PeerID) :
  let addrs := fst (h _ HostAddrs w) in
  omap inviteOf (printedOf (snd (exec h (printInvite self) w)))
  = map (fun a => inviteString a (peer_String self)) addrs /\
  (forall (a : Multiaddr) (p : PeerID) (m : Multiaddr),
   ma_String m = inviteString a (peer_String p) ->
   NewMultiaddr (ma_String m) = Ok m ->
   AddrInfoFromP2pAddr m = Ok (p, [a]) ->
   forall (W' : Type) (h' : Handler W') (w' : W'),
   exists c rest,
     snd (exec h' (connectPeer (inviteString a (peer_String p))) w')
     = Ev (AddAddrs p [a] PermanentAddrTTL) tt
       :: Ev (Connect (p, [a])) c :: rest) /\
  (forall (a : Ref.Multiaddr) (p : Ref.PeerID),
   RefAddr.wellFormed a -> RefAddr.validPeerID p ->
   forall (W' : Type) (h' : @Handler Ref.libs W') (w' : W'),
   exists c rest,
     snd (exec h' (@connectPeer Ref.libs (@inviteString Ref.libs a p)) w')
     = Ev (@AddAddrs Ref.libs p [a] (2 ^ 63 - 1)) tt
       :: Ev (@Connect Ref.libs (p, [a])) c :: rest).
Proof.
  intros addrs. split; [|split].
  - rewrite printInvite_run. fold addrs.
    destruct addrs as [|a0 rest]; [reflexivity|].
    rewrite omap_app. simpl (omap inviteOf [LnShareHint]).
    rewrite app_nil_r. generalize (a0 :: rest). intros l.
    induction l as [|x l IH]; [reflexivity|].
    cbn [map]. rewrite <- IH. reflexivity.
  - intros a p m Hs Hm Hp W' h' w'.
    exact (connectPeer_invite h' w' a p m Hs Hm Hp).
  - intros a p Ha Hp W' h' w'.
    destruct (RefAddrFacts.invite_laws a p Ha Hp) as (Hs & Hm & Hi).
    exact (@connectPeer_invite Ref.libs W' h' w' a p _ Hs Hm Hi).
Qed.

(** ** IdentityStore *)

Section IdentityFacts.
Context `{L : Libs} {W : Type} (h : Handler W).


End IdentityFacts.

Section IdentityStable.
Context `{L : Libs} {W : Type} (h : Handler W).


End IdentityStable.

(** ** The theorems at concrete inputs *)

Lemma frameb_isFrame (f : string) : frameb f = true -> isFrame f.
Proof.
  unfold frameb, isFrame. intros H Hin.
  rewrite forallb_forall in H. specialize (H _ Hin).
  rewrite (proj2 (Ascii.eqb_eq nl nl) eq_refl) in H. discriminate.
Qed.

Lemma handler_skips_malformed_frames_witness :
  let good := Ref.MarshalMessage Examples.hi in
  let r := {| pending := frameBytes ["garbage"; good] +:+ "lost";
              final := EOF |} in
  printedOf (snd (exec Ref.world
                    (@streamHandler Ref.libs 0%nat "12D3KooWbob" r)
                    Ref.empty))
  = [LnInvalidMessage "12D3KooWbob" "garbage"; LnMessage Examples.hi].
Proof.
  intros good r.
  destruct (@handler_skips_malformed_frames Ref.libs Ref.World Ref.world
              Ref.empty 0%nat "12D3KooWbob" ["garbage"; good] "lost" EOF)
    as (_ & _ & H).
  - repeat constructor; apply frameb_isFrame; vm_compute; reflexivity.
  - apply frameb_isFrame. vm_compute. reflexivity.
  - destruct (H "garbage" good Examples.hi) as [Hp _].
    + reflexivity.
    + vm_compute. reflexivity.
    + vm_compute. reflexivity.
    + exact Hp.
Defined.

Lemma handler_trims_lines_witness :
  let good := Ref.MarshalMessage Examples.hi in
  let cr := String "013"%char "" in
  @readLoop Ref.libs "12D3KooWbob"
    {| pending := ("  " +:+ good +:+ cr) +:+ String nl "rest"; final := EOF |}
  = (call (Print (LnMessage Examples.hi)) ;;
     @readLoop Ref.libs "12D3KooWbob" {| pending := "rest"; final := EOF |})
  /\
  @readLoop Ref.libs "12D3KooWbob"
    {| pending := ("  " +:+ " " +:+ cr) +:+ String nl "rest"; final := EOF |}
  = (call (Print (LnInvalidMessage "12D3KooWbob" "")) ;;
     @readLoop Ref.libs "12D3KooWbob" {| pending := "rest"; final := EOF |}).
Proof.
  intros good cr.
  assert (Hsp : WhiteSpace "  ").
  { exists [[" "%char]; [" "%char]]. split; [|reflexivity].
    repeat constructor. }
  assert (Hs1 : WhiteSpace " ").
  { exists [[" "%char]]. split; [|reflexivity]. repeat constructor. }
  assert (Hcr : WhiteSpace cr).
  { exists [["013"%char]]. split; [|reflexivity]. repeat constructor. }
  split.
  - destruct (@handler_trims_lines Ref.libs "12D3KooWbob" "  " good cr
                "rest" EOF Hsp Hcr) as (_ & _ & _ & H & _).
    + apply frameb_isFrame. vm_compute. reflexivity.
    + destruct H as [_ H].
      * apply plainEnds_noSpaceAtEnds. vm_compute. reflexivity.
      * exact H.
  - destruct (@handler_trims_lines Ref.libs "12D3KooWbob" "  " " " cr
                "rest" EOF Hsp Hcr) as (_ & _ & _ & _ & H).
    + apply frameb_isFrame. vm_compute. reflexivity.
    + apply H; [exact Hs1|]. vm_compute. discriminate.
Defined.

Lemma send_writes_one_frame_witness :
  let x := exec Ref.world
             (@sendMessage Ref.libs "12D3KooWbob" "12D3KooWalice" "hi")
             Examples.onlineWorld in
  fst (fst x) = None /\
  Ref.streams (snd (fst x))
  = [ {| Ref.remote := "12D3KooWalice"; Ref.proto := protocolID;
         Ref.written := [Ref.MarshalMessage Examples.hi +:+ String nl ""];
         Ref.closed := true |} ].
Proof.
  intros x.
  pose proof (@send_writes_one_frame Ref.libs Ref.World Ref.world
                Examples.onlineWorld "12D3KooWbob" "12D3KooWalice" "hi")
    as H.
  cbv zeta in H.
  change (@peer_Decode Ref.libs "12D3KooWalice")
    with (@Ok string "12D3KooWalice") in H.
  cbv beta iota in H.
  assert (E : fst (Ref.world _
                     (@NewStream Ref.libs "12D3KooWalice" protocolID)
                     Examples.onlineWorld) = Ok 0%nat)
    by (vm_compute; reflexivity).
  rewrite E in H. destruct H as (H1 & _).
  split; [|vm_compute; reflexivity].
  subst x. rewrite H1. vm_compute. reflexivity.
Defined.

Lemma connect_registers_then_dials_witness :
  let x := exec Ref.world (@connectPeer Ref.libs Examples.aliceInvite)
             Ref.empty in
  fst (fst x) = Some (ErrLib "failed to dial") /\
  Ref.peerstore (snd (fst x))
  = [("12D3KooWalice", Examples.aliceAddr, 2 ^ 63 - 1)].
Proof.
  intros x. destruct connect_registers_then_dials as [Hgen Href].
  destruct (Hgen Ref.libs Ref.World Ref.world
              Ref.empty Examples.aliceInvite
              (Examples.aliceAddr ++ [("p2p", "12D3KooWalice")])
              ("12D3KooWalice", [Examples.aliceAddr]))
    as (_ & _ & H).
  - vm_compute. reflexivity.
  - vm_compute. reflexivity.
  - specialize (H (ErrLib "failed to dial") eq_refl).
    assert (Hfail : fst (fst x) = Some (ErrLib "failed to dial"))
      by (subst x; rewrite H; reflexivity).
    split; [exact Hfail|].
    apply (Href Ref.empty Examples.aliceInvite
             (Examples.aliceAddr ++ [("p2p", "12D3KooWalice")])
             "12D3KooWalice" [Examples.aliceAddr]
             (ErrLib "failed to dial")).
    + vm_compute. reflexivity.
    + vm_compute. reflexivity.
    + exact Hfail.
Defined.

Lemma invite_round_trip_witness :
  let tr := snd (exec Ref.world (@printInvite Ref.libs "12D3KooWalice")
                   Examples.onlineWorld) in
  omap inviteOf (printedOf tr)
  = [Examples.aliceInvite; "/ip4/192.168.1.7/tcp/4001/p2p/12D3KooWalice"]
  /\
  exists c rest,
    snd (exec Ref.world (@connectPeer Ref.libs Examples.aliceInvite)
           Ref.empty)
    = Ev (@AddAddrs Ref.libs "12D3KooWalice" [Examples.aliceAddr]
            (2 ^ 63 - 1)) tt
      :: Ev (@Connect Ref.libs ("12D3KooWalice", [Examples.aliceAddr])) c
      :: rest.
Proof.
  intros tr.
  destruct (@invite_round_trip Ref.libs Ref.World Ref.world
              Examples.onlineWorld "12D3KooWalice")
    as (H1 & H2 & _).
  split.
  - subst tr. rewrite H1. vm_compute. reflexivity.
  - apply (H2 Examples.aliceAddr "12D3KooWalice"
              (Examples.aliceAddr ++ [("p2p", "12D3KooWalice")])
              ltac:(vm_compute; reflexivity) ltac:(vm_compute; reflexivity)
              ltac:(vm_compute; reflexivity) Ref.World Ref.world Ref.empty).
Defined.



(** * Further properties of the functions of main.go *)

(** ** The mailbox: keys, listing *)

Lemma append_inj_l (p a b : string) : p +:+ a = p +:+ b -> a = b.
Proof.
  induction p as [|c p IH]; [trivial|].
  change (String c (p +:+ a) = String c (p +:+ b) -> a = b).
  intros [= H]. auto.
Qed.

Lemma mailboxKey_inj (a b : string) : mailboxKey a = mailboxKey b -> a = b.
Proof. apply append_inj_l. Qed.

Lemma Ref_store_dht (rw : Ref.World) (recipient from body : string) :
  let x := exec Ref.world (@storeOfflineMessage Ref.libs recipient from body)
             rw in
  Ref.dht (snd (fst x)) = Ref.dht rw \/
  exists blob,
    Ref.dht (snd (fst x)) = <[mailboxKey recipient := blob]> (Ref.dht rw).
Proof.
  intros x. subst x.
  pose proof (store_run Ref.world rw recipient from body) as H.
  cbv zeta in H.
  set (w1 := snd (Ref.world _ (@GetValue Ref.libs (mailboxKey recipient)) rw))
    in *.
  assert (H1 : Ref.dht w1 = Ref.dht rw /\ Ref.maxValue w1 = Ref.maxValue rw).
  { subst w1. simpl. unfold Ref.lookup.
    destruct (Ref.lookups rw) as [|[e|] ?];
      try destruct (Ref.dht rw !! _); auto. }
  set (r := fst (Ref.world _ (@GetValue Ref.libs (mailboxKey recipient)) rw))
    in *.
  change (Ref.world _ (@Now Ref.libs) w1)
    with (Ref.clock w1, Ref.setClock (Ref.clock w1 + 1) w1) in H.
  cbn [fst snd] in H.
  set (blob := MarshalMessages _) in H.
  change (Ref.world _ (@PutValue Ref.libs (mailboxKey recipient) blob) ?w)
    with (if (String.length blob <=? Ref.maxValue w)%nat
          then (None,
                Ref.setDht (<[mailboxKey recipient := blob]> (Ref.dht w)) w)
          else (Some (ErrLib "value too large"), w)) in H.
  destruct (String.length blob <=? _)%nat; rewrite H; cbn [fst snd].
  - right. exists blob. simpl. f_equal. apply H1.
  - left. simpl. apply H1.
Qed.

Section MailboxMore.
Context `{L : Libs} {W : Type} (h : Handler W).

(** The DHT calls of Store and of Fetch. *)
Lemma mailbox_keys (w : W) (recipient from body : string) :
  omap dhtKey (snd (exec h (storeOfflineMessage recipient from body) w))
  = [mailboxKey recipient; mailboxKey recipient] /\
  omap dhtKey (snd (exec h (fetchOfflineMessages recipient) w))
  = [mailboxKey recipient].
Proof.
  split.
  - pose proof (store_run h w recipient from body) as H. cbv zeta in H.
    rewrite H. destruct (fst (h _ (PutValue _ _) _)); reflexivity.
  - pose proof (fetch_run h w recipient) as H. cbv zeta in H.
    destruct (fst (h _ (GetValue (mailboxKey recipient)) w)) as [val|e].
    + destruct (UnmarshalMessages val) as [msgs [e|]];
        destruct H as [_ ->]; [reflexivity|].
      simpl. clear. generalize (fetchedLines 0 msgs). intros ls.
      induction ls as [|l ls IH]; [reflexivity|exact IH].
    + destruct H as [_ ->]. reflexivity.
Qed.

(** The lines of a listing are numbered from one, in the order of the
    messages. *)
Lemma fetchedLines_nth (i k : nat) (msgs : list Message) (m : Message) :
  nth_error msgs k = Some m ->
  nth_error (fetchedLines i msgs) k
  = Some (LnFetchedMessage (i + k + 1) m).
Proof.
  revert i k. induction msgs as [|m0 rest IH]; intros i k.
  - destruct k; discriminate.
  - destruct k as [|k]; simpl.
    + intros [= ->]. do 2 f_equal. lia.
    + intros H. rewrite (IH (i + 1)%nat k H). do 2 f_equal. lia.
Qed.

Lemma putOf_prints (ls : list Line) : omap putOf (prints ls) = [].
Proof. induction ls as [|l ls IH]; [reflexivity|exact IH]. Qed.

(** What Fetch prints, and that it makes no Put. *)
Lemma fetch_listing (w : W) (peerID : string) :
  let x := exec h (fetchOfflineMessages peerID) w in
  omap putOf (snd x) = [] /\
  (forall val msgs,
     fst (h _ (GetValue (mailboxKey peerID)) w) = Ok val ->
     UnmarshalMessages val = (msgs, None) ->
     fst (fst x) = None /\
     printedOf (snd x) = LnFetched (length msgs) :: fetchedLines 0 msgs /\
     length (printedOf (snd x)) = S (length msgs) /\
     (forall k m, nth_error msgs k = Some m ->
        nth_error (printedOf (snd x)) (S k)
        = Some (LnFetchedMessage (S k) m)) /\
     (msgs = [] -> printedOf (snd x) = [LnFetched 0])) /\
  (fst (fst x) <> None -> printedOf (snd x) = []).
Proof.
  intros x. pose proof (fetch_run h w peerID) as H. cbv zeta in H.
  fold x in H. split; [|split].
  - destruct (fst (h _ (GetValue (mailboxKey peerID)) w)) as [val|e].
    + destruct (UnmarshalMessages val) as [msgs [e|]];
        destruct H as [_ ->]; [reflexivity|].
      change (omap putOf (?e :: ?t)) with (omap putOf t).
      apply putOf_prints.
    + destruct H as [_ ->]. reflexivity.
  - intros val msgs Hg Hu. rewrite Hg, Hu in H. destruct H as [H1 H2].
    assert (Hp : printedOf (snd x)
                 = LnFetched (length msgs) :: fetchedLines 0 msgs).
    { rewrite H2.
      change (printedOf (?e :: prints ?ls)) with (printedOf (prints ls)).
      apply printedOf_prints. }
    split; [exact H1|]. split; [exact Hp|]. rewrite Hp. split; [|split].
    + simpl. f_equal. clear. generalize 0%nat.
      induction msgs as [|m rest IH]; intros i; simpl; [reflexivity|].
      f_equal. apply IH.
    + intros k m Hk. simpl.
      rewrite (fetchedLines_nth 0 k msgs m Hk). do 2 f_equal. lia.
    + intros ->. reflexivity.
  - intros Hne.
    destruct (fst (h _ (GetValue (mailboxKey peerID)) w)) as [val|e].
    + destruct (UnmarshalMessages val) as [msgs [e|]];
        destruct H as [H1 H2]; [rewrite H2; reflexivity|].
      contradiction.
    + destruct H as [_ ->]. reflexivity.
Qed.

End MailboxMore.

Lemma Ref_printFetched_dht (i : nat) (msgs : list Message) (rw : Ref.World) :
  Ref.dht (snd (fst (exec Ref.world (@printFetched Ref.libs i msgs) rw)))
  = Ref.dht rw.
Proof.
  revert i rw. induction msgs as [|m rest IH]; intros i rw; [reflexivity|].
  cbn [printFetched]. rewrite exec_call_bind.
  specialize (IH (i + 1)%nat
                (snd (Ref.world _ (@Print Ref.libs
                                     (LnFetchedMessage (i + 1) m)) rw))).
  destruct (exec Ref.world (printFetched (i + 1) rest) _) as [[[] w2] t2].
  cbn [fst snd] in *. rewrite IH. reflexivity.
Qed.

(** In the reference world Fetch leaves every record of the DHT as it
    is. *)
Lemma Ref_fetch_dht (rw : Ref.World) (peerID : string) :
  Ref.dht (snd (fst (exec Ref.world (@fetchOfflineMessages Ref.libs peerID)
                       rw)))
  = Ref.dht rw.
Proof.
  unfold fetchOfflineMessages. cbv zeta. rewrite exec_call_bind.
  set (g := Ref.world _ (@GetValue Ref.libs (mailboxKey peerID)) rw).
  assert (Hg : Ref.dht (snd g) = Ref.dht rw).
  { subst g. simpl. unfold Ref.lookup.
    destruct (Ref.lookups rw) as [|[e|] ?];
      try destruct (Ref.dht rw !! _); reflexivity. }
  destruct (fst g) as [val|e]; [|exact Hg].
  destruct (UnmarshalMessages val) as [msgs [e|]]; [exact Hg|].
  rewrite exec_call_bind, exec_bind.
  pose proof (Ref_printFetched_dht 0 msgs
                (snd (Ref.world _ (@Print Ref.libs (LnFetched (length msgs)))
                        (snd g)))) as Hp.
  destruct (exec Ref.world (printFetched 0 msgs) _) as [[[] w2] t2].
  cbn [fst snd exec] in *. rewrite Hp. exact Hg.
Qed.

(** X1.  Fetch only reads: it never Puts, whatever the DHT answers, and
    in the reference world it leaves every record of the DHT as it is,
    the mailbox it listed included.  When the mailbox deserializes,
    Fetch succeeds and prints the number of messages and then every
    message once, in the stored order, the k-th one (from zero) numbered
    k+1; a mailbox that holds no message gives the count zero and no
    other line.  When Fetch fails it prints nothing. *)
Theorem fetch_lists_in_order :
  (forall (L : Libs) (W : Type) (h : Handler W) (w : W) (peerID : string),
   let x := exec h (fetchOfflineMessages peerID) w in
   omap putOf (snd x) = [] /\
   (forall val msgs,
      fst (h _ (GetValue (mailboxKey peerID)) w) = Ok val ->
      UnmarshalMessages val = (msgs, None) ->
      fst (fst x) = None /\
      printedOf (snd x) = LnFetched (length msgs) :: fetchedLines 0 msgs /\
      length (printedOf (snd x)) = S (length msgs) /\
      (forall k m, nth_error msgs k = Some m ->
         nth_error (printedOf (snd x)) (S k)
         = Some (LnFetchedMessage (S k) m)) /\
      (msgs = [] -> printedOf (snd x) = [LnFetched 0])) /\
   (fst (fst x) <> None -> printedOf (snd x) = [])) /\
  (forall (rw : Ref.World) (peerID : string),
   Ref.dht (snd (fst (exec Ref.world
                        (@fetchOfflineMessages Ref.libs peerID) rw)))
   = Ref.dht rw).
Proof.
  split.
  - intros L W h w peerID. exact (fetch_listing h w peerID).
  - exact Ref_fetch_dht.
Qed.

(** X2.  Store and Fetch for a recipient touch the DHT under the key of
    that recipient only, "/p2pchat/messages/" followed by the
    identifier: Store with one Get and one Put, Fetch with one Get.
    Different recipients have different keys, so in the reference world
    a Store for one recipient leaves the mailbox of every other
    recipient as it was. *)
Theorem mailbox_uses_own_key :
  (forall (L : Libs) (W : Type) (h : Handler W) (w : W)
          (recipient from body : string),
   omap dhtKey (snd (exec h (storeOfflineMessage recipient from body) w))
   = [mailboxKey recipient; mailboxKey recipient] /\
   omap dhtKey (snd (exec h (fetchOfflineMessages recipient) w))
   = [mailboxKey recipient] /\
   mailboxKey recipient = "/p2pchat/messages/" +:+ recipient /\
   (forall other,
      mailboxKey other = mailboxKey recipient -> other = recipient)) /\
  (forall (rw : Ref.World) (recipient from body other : string),
   other <> recipient ->
   Ref.dht (snd (fst (exec Ref.world
                        (@storeOfflineMessage Ref.libs recipient from body)
                        rw))) !! mailboxKey other
   = Ref.dht rw !! mailboxKey other).
Proof.
  split.
  - intros L W h w recipient from body.
    destruct (mailbox_keys h w recipient from body) as [H1 H2].
    split; [exact H1|]. split; [exact H2|]. split; [reflexivity|].
    intros other. apply mailboxKey_inj.
  - intros rw recipient from body other Hne.
    destruct (Ref_store_dht rw recipient from body) as [->|[blob ->]];
      [reflexivity|].
    apply lookup_insert_ne. intros E. apply Hne. symmetry.
    exact (mailboxKey_inj _ _ E).
Qed.

(** ** Invites that do not parse *)

Section ConnectMore.
Context `{L : Libs} {W : Type} (h : Handler W).

(** X3.  When the invite is no multiaddr, or is a multiaddr without a
    peer identifier, connectPeer returns the error of the parser and
    makes no call: no address is registered, nothing is dialled and
    nothing is printed.  The second parse that the program attempts when
    the text contains "/p2p/" is the first parse again, so it fails
    with the same error. *)
Theorem connect_rejects_bad_invite (w : W) (addrStr : string) :
  (forall e, NewMultiaddr addrStr = Err e ->
     exec h (connectPeer addrStr) w = (Some e, w, [])) /\
  (forall maddr e,
     NewMultiaddr addrStr = Ok maddr ->
     AddrInfoFromP2pAddr maddr = Err e ->
     exec h (connectPeer addrStr) w = (Some e, w, [])).
Proof.
  split.
  - intros e He. unfold connectPeer. rewrite He.
    destruct (Contains addrStr "/p2p/"); reflexivity.
  - intros maddr e Hm Hp. unfold connectPeer. rewrite Hm, Hp. reflexivity.
Qed.

End ConnectMore.

(** ** The stream handler on any bytes *)

Lemma splitLines_frames (s : string) :
  s = frameBytes (fst (splitLines s)) +:+ snd (splitLines s) /\
  Forall isFrame (fst (splitLines s)) /\ isFrame (snd (splitLines s)).
Proof.
  induction s as [|c s (IH1 & IH2 & IH3)].
  - simpl. repeat split; [constructor|intros []].
  - simpl. destruct (splitLines s) as [frames last]. simpl in *.
    destruct (Ascii.eqb_spec c nl) as [->|Hne].
    + simpl. repeat split.
      * change (String nl s = String nl (frameBytes frames +:+ last)).
        f_equal. exact IH1.
      * constructor; [intros []|exact IH2].
      * exact IH3.
    + destruct frames as [|f fs]; simpl in *.
      * repeat split; [|constructor|].
        -- change (String c s = String c ("" +:+ last)).
           f_equal. exact IH1.
        -- unfold isFrame in *. simpl. intros [E|E]; [congruence|auto].
      * pose proof (Forall_inv IH2) as Hf.
        pose proof (Forall_inv_tail IH2) as Hfs. repeat split.
        -- change (String c s
                   = String c ((f +:+ String nl (frameBytes fs)) +:+ last)).
           f_equal. exact IH1.
        -- constructor; [|exact Hfs].
           unfold isFrame in *. simpl. intros [E|E]; [congruence|auto].
        -- exact IH3.
Qed.

Lemma string_app_nil_r (s : string) : s +:+ "" = s.
Proof.
  induction s as [|c s IH]; [reflexivity|].
  change (String c (s +:+ "") = String c s). f_equal. exact IH.
Qed.

Section HandlerMore.
Context `{L : Libs} {W : Type} (h : Handler W).

Lemma omap_prints {A : Type} (f : Event -> option A) (ls : list Line) :
  (forall l, f (Ev (Print l) tt) = None) -> omap f (prints ls) = [].
Proof.
  intros Hf. induction ls as [|l ls IH]; [reflexivity|].
  simpl. rewrite Hf. exact IH.
Qed.

(** X4.  Whatever bytes the stream carries, the handler prints one line
    for every line that a newline closes, in order, then the read error
    unless it is io.EOF, and its last call closes the stream.  The bytes
    after the last newline are dropped without a report: the run is the
    run on the stream cut after its last newline.  The handler closes
    its stream once and opens no stream, writes on none and makes no
    call to the DHT. *)
Theorem handler_reads_whole_lines (w : W) (s : Stream) (peerAddr : string)
    (bytes : string) (fin : error) :
  let frames := fst (splitLines bytes) in
  let tr := snd (exec h (streamHandler s peerAddr
                           {| pending := bytes; final := fin |}) w) in
  bytes = frameBytes frames +:+ snd (splitLines bytes) /\
  tr = prints (map (fun f => dispatch peerAddr (lineOf f)) frames
               ++ readErrLines fin)
       ++ [Ev (StreamClose s) tt] /\
  tr = snd (exec h (streamHandler s peerAddr
                      {| pending := frameBytes frames; final := fin |}) w) /\
  omap closedBy tr = [s] /\
  omap opened tr = [] /\
  omap dhtKey tr = [] /\
  (forall s', omap (wroteOn s') tr = []).
Proof.
  intros frames tr.
  destruct (splitLines_frames bytes) as (Hb & Hfs & Hl). fold frames in Hb, Hfs.
  assert (Htr : tr = prints (map (fun f => dispatch peerAddr (lineOf f)) frames
                             ++ readErrLines fin)
                     ++ [Ev (StreamClose s) tt]).
  { subst tr. rewrite Hb at 1. apply streamHandler_frames; assumption. }
  split; [exact Hb|]. split; [exact Htr|]. split.
  - rewrite Htr. rewrite <- (string_app_nil_r (frameBytes frames)).
    symmetry. apply streamHandler_frames;
      [assumption|unfold isFrame; simpl; tauto].
  - rewrite Htr. rewrite !omap_app.
    rewrite !omap_prints by reflexivity.
    repeat split; try reflexivity.
    intros s'. rewrite omap_app, omap_prints by reflexivity. reflexivity.
Qed.

End HandlerMore.

(** ** From sendMessage to the handler of the remote side *)

Section SendMore.
Context `{L : Libs} {W : Type} (h : Handler W).

(** A run of sendMessage on a stream that opens. *)
Lemma send_run (w : W) (self pid : PeerID) (peerIDStr body : string)
    (s : Stream) :
  peer_Decode peerIDStr = Ok pid ->
  fst (h _ (NewStream pid protocolID) w) = Ok s ->
  let x := exec h (sendMessage self peerIDStr body) w in
  let w1 := snd (h _ (NewStream pid protocolID) w) in
  let now := fst (h _ Now w1) in
  let frame :=
    MarshalMessage {| From := peer_String self; When := now; Body := body |}
    +:+ String nl "" in
  let wr := fst (h _ (StreamWrite s frame) (snd (h _ Now w1))) in
  fst (fst x) = wr /\ omap (wroteOn s) (snd x) = [frame].
Proof.
  intros Hd Ho x. subst x. unfold sendMessage. rewrite Hd.
  rewrite exec_call_bind, Ho. cbv zeta.
  rewrite exec_defer_close, exec_call_bind.
  set (w1 := snd (h _ (NewStream pid protocolID) w)).
  set (now := fst (h _ Now w1)).
  set (frame := MarshalMessage _ +:+ String nl "").
  rewrite exec_call_bind.
  set (wr := fst (h _ (StreamWrite s frame) (snd (h _ Now w1)))).
  assert (Hs : (s =? s)%nat = true) by apply Nat.eqb_refl.
  destruct wr as [e|].
  - simpl. unfold wroteOn. simpl. rewrite Hs. split; reflexivity.
  - rewrite exec_call_bind. simpl.
    unfold wroteOn. simpl. rewrite Hs. split; reflexivity.
Qed.

End SendMore.

Section SendReceive.
Context `{L : Libs} {W W' : Type} (h : Handler W) (h' : Handler W').

(** X5.  A sent message arrives as sent.  Let sendMessage succeed on the
    stream it opened, and let the handler of the remote side read the
    bytes written on that stream up to the end of the stream.  If the
    serialization of the Message contains no newline, has no white space
    at its ends and deserializes to the Message, the handler displays
    exactly one message: the one with the identifier of the sender, the
    clock reading of the sender and the body given to sendMessage; it
    reports no invalid frame and no read error. *)
Theorem send_then_receive (w : W) (self pid : PeerID)
    (peerIDStr body : string) (s : Stream)
    (w' : W') (s' : Stream) (peerAddr : string) :
  let x := exec h (sendMessage self peerIDStr body) w in
  let now := fst (h _ Now (snd (h _ (NewStream pid protocolID) w))) in
  let m := {| From := peer_String self; When := now; Body := body |} in
  let r := {| pending := streamBytes (omap (wroteOn s) (snd x));
              final := EOF |} in
  peer_Decode peerIDStr = Ok pid ->
  fst (h _ (NewStream pid protocolID) w) = Ok s ->
  fst (fst x) = None ->
  isFrame (MarshalMessage m) ->
  noSpaceAtEnds (MarshalMessage m) ->
  UnmarshalMessage (MarshalMessage m) = (m, None) ->
  snd (exec h' (streamHandler s' peerAddr r) w')
  = [Ev (Print (LnMessage m)) tt; Ev (StreamClose s') tt].
Proof.
  intros x now m r Hd Ho _ Hf Hn Hu.
  destruct (send_run h w self pid peerIDStr body s Hd Ho) as [_ Hw].
  fold x now m in Hw. subst r. rewrite Hw.
  change (streamBytes [MarshalMessage m +:+ String nl ""])
    with ((MarshalMessage m +:+ String nl "") +:+ "").
  change (MarshalMessage m +:+ String nl "")
    with (frameBytes [MarshalMessage m]).
  rewrite (streamHandler_frames h' s' peerAddr [MarshalMessage m] "" EOF w')
    by first [constructor; [exact Hf|constructor]
             |unfold isFrame; simpl; tauto].
  simpl. unfold dispatch.
  assert (Ht : TrimSpace (lineOf (MarshalMessage m)) = MarshalMessage m).
  { unfold lineOf.
    pose proof (TrimSpace_pad "" (MarshalMessage m) (String nl "")
                  WhiteSpace_empty WhiteSpace_nl) as P.
    change ("" +:+ ?a) with a in P. rewrite P.
    apply TrimSpace_fixed. exact Hn. }
  rewrite Ht, Hu. reflexivity.
Qed.

End SendReceive.

(** ** strings.TrimSpace, whole *)

Ltac norune :=
  let r := fresh "r" in let rest := fresh "rest" in
  let Hr := fresh "Hr" in let E := fresh "E" in
  intros r rest Hr E; destruct Hr; simpl in E;
  repeat match goal with
    | H : _ :: _ = _ :: _ |- _ => injection H as ? ?; subst
    end;
  try discriminate; congruence.

Lemma trimRightSpaceRev_split l :
  exists rs, Forall spaceRune rs
             /\ l = rev (concat rs) ++ trimRightSpaceRev l
             /\ (forall r rest, spaceRune r ->
                   trimRightSpaceRev l <> rev r ++ rest).
Proof.
  remember (length l) as n eqn:Hn. revert l Hn.
  induction n as [n IH] using lt_wf_ind. intros l Hn.
  assert (Hsnoc : forall (rs : list (list ascii)) r t,
            rev r ++ rev (concat rs) ++ t = rev (concat (rs ++ [r])) ++ t).
  { intros rs r t. rewrite concat_app. simpl.
    rewrite app_nil_r, rev_app_distr, <- app_assoc. reflexivity. }
  destruct l as [|a t].
  { exists []. simpl. repeat split; [constructor|]. norune. }
  simpl. destruct (asciiSpace a) eqn:Ha.
  { destruct (IH (length t) ltac:(simpl in Hn; lia) t eq_refl)
      as (rs & Hrs & Heq & Hst).
    exists (rs ++ [[a]]). split.
    - apply Forall_app. split; [exact Hrs|].
      constructor; [constructor 1; exact Ha|constructor].
    - split; [|exact Hst].
      rewrite <- (Hsnoc rs [a]). simpl. f_equal. exact Heq. }
  destruct t as [|b t1].
  { exists []. simpl. split; [constructor|]. split; [reflexivity|]. norune. }
  destruct (space2 b a) eqn:Hab.
  { destruct (IH (length t1) ltac:(simpl in Hn; lia) t1 eq_refl)
      as (rs & Hrs & Heq & Hst).
    exists (rs ++ [[b; a]]). split.
    - apply Forall_app. split; [exact Hrs|].
      constructor; [constructor 2; exact Hab|constructor].
    - split; [|exact Hst].
      rewrite <- (Hsnoc rs [b; a]). simpl. do 2 f_equal. exact Heq. }
  destruct t1 as [|c t2].
  { exists []. simpl. split; [constructor|]. split; [reflexivity|]. norune. }
  destruct (space3 c b a) eqn:Habc.
  { destruct (IH (length t2) ltac:(simpl in Hn; lia) t2 eq_refl)
      as (rs & Hrs & Heq & Hst).
    exists (rs ++ [[c; b; a]]). split.
    - apply Forall_app. split; [exact Hrs|].
      constructor; [constructor 3; exact Habc|constructor].
    - split; [|exact Hst].
      rewrite <- (Hsnoc rs [c; b; a]). simpl. do 3 f_equal. exact Heq. }
  exists []. simpl. split; [constructor|]. split; [reflexivity|]. norune.
Qed.

Lemma stuck_no_rune t r rest : stuck t -> spaceRune r -> t <> r ++ rest.
Proof.
  intros Ht Hr E. subst t.
  destruct Hr as [x Hx|x y Hxy|x y z Hxyz]; simpl in Ht.
  - destruct Ht as [Ht _]. congruence.
  - destruct Ht as [_ [Ht _]]. congruence.
  - destruct Ht as [_ [_ Ht]]. congruence.
Qed.

(** The bytes of a text are white-space runes, the trimmed bytes and
    white-space runes, and the trimmed bytes have no white-space rune at
    their ends. *)
Lemma trimBytes_split (l : list ascii) :
  exists rs1 rs2,
    Forall spaceRune rs1 /\ Forall spaceRune rs2 /\
    l = concat rs1 ++ trimBytes l ++ concat rs2 /\
    (forall r rest, spaceRune r ->
       trimBytes l <> r ++ rest /\ trimBytes l <> rest ++ r).
Proof.
  unfold trimBytes.
  destruct (trimLeftSpace_split l) as (rs1 & Hrs1 & Hl & Hst).
  destruct (trimRightSpaceRev_split (rev (trimLeftSpace l)))
    as (rs2 & Hrs2 & Hr & Hend).
  set (u := trimRightSpaceRev (rev (trimLeftSpace l))) in *.
  assert (Ht : trimLeftSpace l = rev u ++ concat rs2).
  { rewrite <- (rev_involutive (trimLeftSpace l)), Hr, rev_app_distr,
      rev_involutive. reflexivity. }
  exists rs1, rs2. split; [exact Hrs1|]. split; [exact Hrs2|]. split.
  - rewrite Hl at 1. rewrite Ht. reflexivity.
  - intros r rest Hrune. split; intros E.
    + destruct Hst as [E0|Hstuck].
      * rewrite E0 in Ht. rewrite E in Ht. destruct Hrune; discriminate.
      * apply (stuck_no_rune _ r (rest ++ concat rs2) Hstuck Hrune).
        rewrite Ht, E, <- app_assoc. reflexivity.
    + apply (Hend r (rev rest) Hrune).
      rewrite <- (rev_involutive u), E, rev_app_distr. reflexivity.
Qed.

Lemma TrimSpace_bytes (s : string) :
  list_ascii_of_string (TrimSpace s) = trimBytes (list_ascii_of_string s).
Proof. apply list_ascii_of_string_of_list_ascii. Qed.

Lemma TrimSpace_noSpaceAtEnds (s : string) : noSpaceAtEnds (TrimSpace s).
Proof.
  destruct (trimBytes_split (list_ascii_of_string s))
    as (_ & _ & _ & _ & _ & H).
  intros r rest Hr. rewrite TrimSpace_bytes. exact (H r rest Hr).
Qed.

Lemma TrimSpace_idem (s : string) : TrimSpace (TrimSpace s) = TrimSpace s.
Proof. apply TrimSpace_fixed, TrimSpace_noSpaceAtEnds. Qed.

(** X6.  strings.TrimSpace, which the stream handler and the command
    loop apply to every line they read, removes white space at the two
    ends and nothing else: every text is white space, then its trimmed
    text, then white space; the trimmed text has no white-space rune at
    its start or at its end; and trimming twice is trimming once. *)
Theorem TrimSpace_cuts_both_ends (s : string) :
  exists ws1 ws2,
    WhiteSpace ws1 /\ WhiteSpace ws2 /\
    s = ws1 +:+ TrimSpace s +:+ ws2 /\
    noSpaceAtEnds (TrimSpace s) /\
    TrimSpace (TrimSpace s) = TrimSpace s.
Proof.
  destruct (trimBytes_split (list_ascii_of_string s))
    as (rs1 & rs2 & Hrs1 & Hrs2 & Hl & _).
  exists (string_of_list_ascii (concat rs1)),
         (string_of_list_ascii (concat rs2)).
  split; [exists rs1; split;
          [exact Hrs1|apply list_ascii_of_string_of_list_ascii]|].
  split; [exists rs2; split;
          [exact Hrs2|apply list_ascii_of_string_of_list_ascii]|].
  split; [|split; [apply TrimSpace_noSpaceAtEnds|apply TrimSpace_idem]].
  rewrite <- (string_of_list_ascii_of_string s) at 1.
  rewrite <- (string_of_list_ascii_of_string
                (string_of_list_ascii (concat rs1) +:+ TrimSpace s
                 +:+ string_of_list_ascii (concat rs2))).
  f_equal. rewrite !list_ascii_of_string_app, TrimSpace_bytes.
  rewrite !list_ascii_of_string_of_list_ascii. exact Hl.
Qed.

Section HandlerSender.
Context `{L : Libs} {W : Type} (h : Handler W).

Lemma dispatch_accepted (peerAddr line : string) (m : Message) :
  accepted line = Some m -> dispatch peerAddr line = LnMessage m.
Proof.
  unfold accepted, dispatch. cbv zeta.
  destruct (UnmarshalMessage (TrimSpace line)) as [m' [e|]];
    [discriminate|].
  intros [= ->]. reflexivity.
Qed.

(** X7.  The handler displays the sender a frame names.  The
    identifier of the remote peer of the stream is used in the report of
    an invalid frame only: on a stream all of whose lines parse, the run
    of the handler is the same whoever the remote peer is, and a frame
    that parses to a Message is displayed with the [From] of that
    Message, which is not compared with the remote peer. *)
Theorem handler_shows_claimed_sender (w : W) (s : Stream)
    (peerAddr peerAddr' : string) (bytes : string) (fin : error) :
  let r := {| pending := bytes; final := fin |} in
  Forall (fun f => accepted (lineOf f) <> None) (fst (splitLines bytes)) ->
  snd (exec h (streamHandler s peerAddr r) w)
  = snd (exec h (streamHandler s peerAddr' r) w) /\
  printedOf (snd (exec h (streamHandler s peerAddr r) w))
  = map LnMessage (omap (fun f => accepted (lineOf f)) (fst (splitLines bytes)))
    ++ readErrLines fin.
Proof.
  intros r Hacc. subst r.
  destruct (splitLines_frames bytes) as (Hb & Hfs & Hl).
  set (frames := fst (splitLines bytes)) in *.
  assert (Hd : forall p,
            map (fun f => dispatch p (lineOf f)) frames
            = map LnMessage (omap (fun f => accepted (lineOf f)) frames)).
  { intros p. clear Hb Hfs. induction frames as [|f fs IH]; [reflexivity|].
    pose proof (Forall_inv Hacc) as Hf.
    pose proof (Forall_inv_tail Hacc) as Hfs.
    change (omap ?g (f :: fs))
      with (match g f with
            | Some y => y :: omap g fs
            | None => omap g fs
            end).
    cbn [map]. destruct (accepted (lineOf f)) as [m|] eqn:E;
      [|contradiction].
    rewrite (dispatch_accepted p _ m E), (IH Hfs). reflexivity. }
  assert (Hrun : forall p,
            snd (exec h (streamHandler s p
                           {| pending := bytes; final := fin |}) w)
            = prints (map LnMessage
                        (omap (fun f => accepted (lineOf f)) frames)
                      ++ readErrLines fin)
              ++ [Ev (StreamClose s) tt]).
  { intros p. rewrite Hb at 1.
    rewrite (streamHandler_frames h s p frames _ fin w Hfs Hl), Hd.
    reflexivity. }
  split.
  - rewrite (Hrun peerAddr), (Hrun peerAddr'). reflexivity.
  - rewrite (Hrun peerAddr), printedOf_app, printedOf_prints.
    apply app_nil_r.
Qed.

End HandlerSender.

(** ** The command line *)

Section RunFacts.
Context `{L : Libs} {W : Type} (H : MainHandler W).
Local Open Scope cli_scope.

Lemma run_bind {A B : Type} (p : Cli A) (f : A -> Cli B) (w : W) :
  run H (cbind p f) w =
  let '(a, w1, t1) := run H p w in
  let '(b, w2, t2) := run H (f a) w1 in
  (b, w2, t1 ++ t2).
Proof.
  revert w. induction p as [a | X op k IH]; intros w; simpl.
  - destruct (run H (f a) w) as [[b w2] t2]. reflexivity.
  - destruct (H X op w) as [x w1]. rewrite IH.
    destruct (run H (k x) w1) as [[a w2] t1].
    destruct (run H (f a) w2) as [[b w3] t2]. reflexivity.
Qed.

Lemma run_say_bind {B : Type} (l : CliLine) (p : Cli B) (w : W) :
  run H (say l ;; p) w =
  let '(b, w2, t2) := run H p (snd (H _ (Say l) w)) in
  (b, w2, MEv (Say l) tt :: t2).
Proof.
  simpl. destruct (H unit (Say l) w) as [[] w1]. reflexivity.
Qed.

(** The result of a program that ends with [Done b] on every path. *)
Lemma run_result_const {A B : Type} (p : Cli A) (f : A -> Cli B) (b : B)
    (w : W) :
  (forall a w1, fst (fst (run H (f a) w1)) = b) ->
  fst (fst (run H (cbind p f) w)) = b.
Proof.
  intros Hf. rewrite run_bind. destruct (run H p w) as [[a w1] t1].
  specialize (Hf a w1). destruct (run H (f a) w1) as [[b' w2] t2].
  exact Hf.
Qed.

Lemma run_only {R : Type} (P : forall X : Type, MainOp X -> Prop)
    (p : Cli R) (w : W) :
  only P p ->
  Forall (fun e => match e with @MEv _ X op _ => P X op end)
    (snd (run H p w)).
Proof.
  revert w. induction p as [a | X op k IH]; intros w; simpl.
  - constructor.
  - intros [Hop Hk]. destruct (H X op w) as [x w1].
    specialize (IH x w1 (Hk x)).
    destruct (run H (k x) w1) as [[r w2] t]. constructor; assumption.
Qed.

End RunFacts.

Section OnlyFacts.
Context `{L : Libs}.
Local Open Scope cli_scope.

Lemma only_bind {A B : Type} (P : forall X : Type, MainOp X -> Prop)
    (p : Cli A) (f : A -> Cli B) :
  only P p -> (forall a, only P (f a)) -> only P (cbind p f).
Proof.
  intros Hp Hf. induction p as [a | X op k IH]; simpl; [apply Hf|].
  destruct Hp as [Hop Hk]. split; [exact Hop|]. intros x. apply IH, Hk.
Qed.


Lemma only_say (P : forall X : Type, MainOp X -> Prop) (l : CliLine) :
  P unit (Say l) -> only P (say l).
Proof. intros HP. simpl. split; [exact HP|intros _; exact I]. Qed.

End OnlyFacts.

Lemma cutAt_word (sep : ascii) (a b : string) :
  ~ In sep (list_ascii_of_string a) ->
  cutAt sep (a +:+ String sep b) = Some (a, b).
Proof.
  induction a as [|c a IH]; simpl; intros Hn.
  - rewrite (proj2 (Ascii.eqb_eq sep sep) eq_refl). reflexivity.
  - destruct (Ascii.eqb_spec c sep) as [->|Hne]; [exfalso; auto|].
    rewrite IH by tauto. reflexivity.
Qed.

Lemma cutAt_none (sep : ascii) (a : string) :
  ~ In sep (list_ascii_of_string a) -> cutAt sep a = None.
Proof.
  induction a as [|c a IH]; simpl; intros Hn; [reflexivity|].
  destruct (Ascii.eqb_spec c sep) as [->|Hne]; [exfalso; auto|].
  rewrite IH by tauto. reflexivity.
Qed.

(** The fields of a line with a first word, with two words, and with two
    words and more text. *)
Lemma SplitN_1 (a : string) : oneWord a -> SplitN a " " 3 = [a].
Proof. intros Ha. simpl. rewrite cutAt_none by exact Ha. reflexivity. Qed.

Lemma SplitN_2 (a b : string) :
  oneWord a -> oneWord b -> SplitN (a +:+ String " " b) " " 3 = [a; b].
Proof.
  intros Ha Hb. simpl. rewrite cutAt_word by exact Ha.
  rewrite cutAt_none by exact Hb. reflexivity.
Qed.

Lemma SplitN_3 (a b c : string) :
  oneWord a -> oneWord b ->
  SplitN (a +:+ String " " (b +:+ String " " c)) " " 3 = [a; b; c].
Proof.
  intros Ha Hb. simpl. rewrite !cutAt_word by assumption. reflexivity.
Qed.

Lemma TrimSpace_lineOf (f : string) : TrimSpace (lineOf f) = TrimSpace f.
Proof.
  unfold lineOf.
  pose proof (TrimSpace_pad "" f (String nl "") WhiteSpace_empty
                WhiteSpace_nl) as P.
  exact P.
Qed.

Lemma oneWord_literal (s : string) :
  forallb (fun c => negb (Ascii.eqb c " ")) (list_ascii_of_string s) = true ->
  oneWord s.
Proof.
  unfold oneWord. intros Hs Hin. rewrite forallb_forall in Hs.
  specialize (Hs _ Hin).
  rewrite (proj2 (Ascii.eqb_eq " " " ") eq_refl) in Hs. discriminate.
Qed.

Section CommandFacts.
Context `{L : Libs}.
Local Open Scope cli_scope.

Lemma command_trimmed (self : PeerID) (line : string) :
  command self line = command self (TrimSpace line).
Proof.
  unfold command. cbv zeta.
  rewrite TrimSpace_idem. reflexivity.
Qed.

Lemma command_lineOf (self : PeerID) (f : string) :
  command self (lineOf f) = command self f.
Proof.
  rewrite (command_trimmed self (lineOf f)), (command_trimmed self f).
  rewrite TrimSpace_lineOf. reflexivity.
Qed.

(** X8.  The arguments of a command are cut at the first two spaces of
    the trimmed line.  For msg and store the first word after the
    command is the target and all the text after the next space is the
    body, inner and leading spaces included; store gives the local
    identifier as the sender.  For connect and fetch the first word
    after the command is the argument and what follows it is ignored.
    The command then runs the function, prints its error if it returns
    one, and the loop goes on. *)
Theorem command_arguments (self : PeerID) (line target body : string) :
  oneWord target ->
  (TrimSpace line = "msg " +:+ target +:+ " " +:+ body ->
   command self line
   = (err <- lift (sendMessage self target body) ;;
      report "send error:" err ;; Done false)) /\
  (TrimSpace line = "store " +:+ target +:+ " " +:+ body ->
   command self line
   = (err <- lift (storeOfflineMessage target (peer_String self) body) ;;
      report "store error:" err ;; Done false)) /\
  (TrimSpace line = "connect " +:+ target \/
   TrimSpace line = "connect " +:+ target +:+ " " +:+ body ->
   command self line
   = (err <- lift (connectPeer target) ;;
      report "connect error:" err ;; Done false)) /\
  (TrimSpace line = "fetch " +:+ target \/
   TrimSpace line = "fetch " +:+ target +:+ " " +:+ body ->
   command self line
   = (err <- lift (fetchOfflineMessages target) ;;
      report "fetch error:" err ;; Done false)).
Proof.
  intros Ht.
  assert (H3 : forall cmd, oneWord cmd ->
            SplitN (cmd +:+ " " +:+ target +:+ " " +:+ body) " " 3
            = [cmd; target; body]).
  { intros cmd Hc. apply (SplitN_3 cmd target body Hc Ht). }
  assert (H2 : forall cmd, oneWord cmd ->
            SplitN (cmd +:+ " " +:+ target) " " 3 = [cmd; target]).
  { intros cmd Hc. apply (SplitN_2 cmd target Hc Ht). }
  repeat split.
  - intros E. unfold command. cbv zeta. rewrite E.
    change ("msg " +:+ target +:+ " " +:+ body)
      with ("msg" +:+ " " +:+ target +:+ " " +:+ body).
    rewrite H3 by (apply oneWord_literal; reflexivity). reflexivity.
  - intros E. unfold command. cbv zeta. rewrite E.
    change ("store " +:+ target +:+ " " +:+ body)
      with ("store" +:+ " " +:+ target +:+ " " +:+ body).
    rewrite H3 by (apply oneWord_literal; reflexivity). reflexivity.
  - intros [E|E]; unfold command; cbv zeta; rewrite E.
    + change ("connect " +:+ target) with ("connect" +:+ " " +:+ target).
      rewrite H2 by (apply oneWord_literal; reflexivity). reflexivity.
    + change ("connect " +:+ target +:+ " " +:+ body)
        with ("connect" +:+ " " +:+ target +:+ " " +:+ body).
      rewrite H3 by (apply oneWord_literal; reflexivity). reflexivity.
  - intros [E|E]; unfold command; cbv zeta; rewrite E.
    + change ("fetch " +:+ target) with ("fetch" +:+ " " +:+ target).
      rewrite H2 by (apply oneWord_literal; reflexivity). reflexivity.
    + change ("fetch " +:+ target +:+ " " +:+ body)
        with ("fetch" +:+ " " +:+ target +:+ " " +:+ body).
      rewrite H3 by (apply oneWord_literal; reflexivity). reflexivity.
Qed.

End CommandFacts.

Section CommandMore.
Context `{L : Libs}.
Local Open Scope cli_scope.

(** X9.  A line of white space only runs nothing and prints nothing.  A
    command that lacks an argument (connect or fetch alone; msg or store
    alone or with a target and no text) prints its usage line and makes
    no other call: nothing is sent, stored, fetched or dialled. *)
Theorem command_without_arguments (self : PeerID) (line target : string) :
  (WhiteSpace line -> command self line = Done false) /\
  (TrimSpace line = "connect" ->
   command self line = (say (CText "usage: connect <multiaddr>") ;;
                        Done false)) /\
  (TrimSpace line = "fetch" ->
   command self line = (say (CText "usage: fetch <peerID>") ;; Done false)) /\
  (TrimSpace line = "msg" \/
   (oneWord target /\ TrimSpace line = "msg " +:+ target) ->
   command self line = (say (CText "usage: msg <peerID> <message>") ;;
                        Done false)) /\
  (TrimSpace line = "store" \/
   (oneWord target /\ TrimSpace line = "store " +:+ target) ->
   command self line = (say (CText "usage: store <peerID> <text>") ;;
                        Done false)).
Proof.
  repeat split.
  - intros Hw. unfold command. cbv zeta.
    rewrite (TrimSpace_WhiteSpace line Hw). reflexivity.
  - intros E. unfold command. cbv zeta. rewrite E. reflexivity.
  - intros E. unfold command. cbv zeta. rewrite E. reflexivity.
  - intros [E|[Ht E]]; unfold command; cbv zeta; rewrite E; [reflexivity|].
    change ("msg " +:+ target) with ("msg" +:+ String " " target).
    rewrite SplitN_2 by first [exact Ht|apply oneWord_literal; reflexivity]. reflexivity.
  - intros [E|[Ht E]]; unfold command; cbv zeta; rewrite E; [reflexivity|].
    change ("store " +:+ target) with ("store" +:+ String " " target).
    rewrite SplitN_2 by first [exact Ht|apply oneWord_literal; reflexivity]. reflexivity.
Qed.

Lemma quits_trimmed (line : string) : quits line = quits (TrimSpace line).
Proof.
  unfold quits.
  rewrite TrimSpace_idem. reflexivity.
Qed.

Lemma quits_lineOf (f : string) : quits (lineOf f) = quits f.
Proof.
  rewrite (quits_trimmed (lineOf f)), (quits_trimmed f), TrimSpace_lineOf.
  reflexivity.
Qed.

(** quit and exit, with or without more text, print "bye" and make main
    return. *)
Lemma command_quit (self : PeerID) (line : string) :
  quits line = true ->
  command self line = (say (CText "bye") ;; Done true).
Proof.
  unfold quits, command. cbv zeta.
  destruct (String.eqb_spec (TrimSpace line) "") as [->|_];
    [discriminate|].
  destruct (SplitN (TrimSpace line) " " 3) as [|cmd args]; [discriminate|].
  intros Hq. apply orb_prop in Hq.
  destruct Hq as [Hq|Hq]; apply String.eqb_eq in Hq; subst cmd; reflexivity.
Qed.

End CommandMore.

Section CommandRuns.
Context `{L : Libs} {W : Type} (H : MainHandler W).
Local Open Scope cli_scope.

Lemma run_then_Done {A B : Type} (p : Cli A) (b : B) (w : W) :
  fst (fst (run H (p ;; Done b) w)) = b.
Proof. apply run_result_const. reflexivity. Qed.

(** The command of a line makes main return exactly when it is quit or
    exit. *)
Lemma command_result (self : PeerID) (line : string) (w : W) :
  fst (fst (run H (command self line) w)) = quits line.
Proof.
  destruct (quits line) eqn:Hq.
  { rewrite (command_quit self line Hq). apply run_then_Done. }
  revert Hq. unfold quits, command. cbv zeta.
  destruct (String.eqb (TrimSpace line) ""); [reflexivity|].
  destruct (SplitN (TrimSpace line) " " 3) as [|cmd args]; [reflexivity|].
  intros Hq. rewrite Hq.
  repeat match goal with
    | |- context [if String.eqb cmd ?s then _ else _] =>
        destruct (String.eqb cmd s)
    end;
    try apply run_then_Done;
    destruct args as [|a [|b rest]];
    first [apply run_then_Done
          |apply run_result_const; intros; apply run_then_Done].
Qed.

End CommandRuns.

(** ** The command loop *)

Section LoopFacts.
Context `{L : Libs}.
Local Open Scope cli_scope.

Lemma cliLoop_line (n : nat) (self : PeerID) (f rest : string)
    (fin : error) :
  isFrame f ->
  cliLoop (S n) self {| pending := f +:+ String nl rest; final := fin |}
  = (say CPrompt ;;
     quit <- command self f ;;
     if (quit : bool) then Done (Some tt)
     else cliLoop n self {| pending := rest; final := fin |}).
Proof.
  intros Hf. cbn [cliLoop]. unfold ReadString. cbn [pending final].
  rewrite (cutAfter_frame _ _ Hf).
  change (f +:+ String nl "") with (lineOf f).
  rewrite command_lineOf. reflexivity.
Qed.

(** At the end of the input the loop takes what was read before the
    error as a line. *)
Lemma cliLoop_last (n : nat) (self : PeerID) (partial : string)
    (fin : error) :
  isFrame partial ->
  cliLoop (S n) self {| pending := partial; final := fin |}
  = (say CPrompt ;;
     quit <- command self partial ;;
     if (quit : bool) then Done (Some tt)
     else cliLoop n self {| pending := ""; final := fin |}).
Proof.
  intros Hf. cbn [cliLoop]. unfold ReadString. cbn [pending final].
  rewrite (cutAfter_none _ Hf). reflexivity.
Qed.

End LoopFacts.

Section LoopRuns.
Context `{L : Libs} {W : Type} (H : MainHandler W).
Local Open Scope cli_scope.

(** One iteration on a line that does not quit. *)
Lemma run_iteration (self : PeerID) (f : string) (k : Cli (option unit))
    (w : W) :
  quits f = false ->
  run H (say CPrompt ;;
         quit <- command self f ;;
         if (quit : bool) then Done (Some tt) else k) w
  = run H (say CPrompt ;; command self f ;; k) w.
Proof.
  intros Hq. rewrite !run_say_bind, !run_bind.
  pose proof (command_result H self f (snd (H _ (Say CPrompt) w))) as Hr.
  destruct (run H (command self f) _) as [[q w1] t1].
  simpl in Hr. rewrite Hq in Hr. subst q. reflexivity.
Qed.

(** The loop on lines that do not quit: their commands in turn. *)
Lemma run_lines (self : PeerID) (frames : list string) (rest : string)
    (fin : error) (n : nat) (w : W) :
  Forall isFrame frames ->
  Forall (fun f => quits f = false) frames ->
  run H (cliLoop (length frames + n) self
           {| pending := frameBytes frames +:+ rest; final := fin |}) w
  = run H (steps self frames
             (cliLoop n self {| pending := rest; final := fin |})) w.
Proof.
  intros Hfs Hqs. revert w.
  induction frames as [|f fs IH]; intros w; [reflexivity|].
  pose proof (Forall_inv Hfs) as Hf. pose proof (Forall_inv_tail Hfs) as Hfs'.
  pose proof (Forall_inv Hqs) as Hq. pose proof (Forall_inv_tail Hqs) as Hqs'.
  change (frameBytes (f :: fs)) with (f +:+ String nl (frameBytes fs)).
  rewrite append_String_assoc.
  change (length (f :: fs) + n)%nat with (S (length fs + n)).
  rewrite (cliLoop_line _ self f _ fin Hf).
  rewrite (run_iteration self f _ w Hq).
  cbn [steps]. rewrite !run_say_bind, !run_bind.
  destruct (run H (command self f) _) as [[q w1] t1].
  rewrite (IH Hfs' Hqs' w1). reflexivity.
Qed.

(** After the end of the input every iteration reads the empty text:
    the loop prompts and goes on. *)
Lemma run_idle (self : PeerID) (fin : error) (n : nat) (w : W) :
  run H (cliLoop n self {| pending := ""; final := fin |}) w
  = run H (idle n) w.
Proof.
  revert w. induction n as [|n IH]; intros w; [reflexivity|].
  rewrite cliLoop_last by (unfold isFrame; simpl; tauto).
  change (command self "") with (@Done L bool false).
  cbn [idle]. rewrite !run_say_bind. cbn [cbind]. rewrite IH. reflexivity.
Qed.

(** X10.  The loop runs the commands of the lines of the input in order
    up to the first quit or exit, prints "bye" for it and main returns;
    the lines after it are not read.  The line that quits may be the
    last one and lack its newline.  An error of a command does not end
    the loop. *)
Theorem loop_runs_until_quit (self : PeerID) (before : list string)
    (q after : string) (fin : error) (fuel : nat) (w : W) :
  Forall isFrame before -> isFrame q ->
  Forall (fun f => quits f = false) before -> quits q = true ->
  (length before < fuel)%nat ->
  after = "" \/ (exists rest, after = String nl rest) ->
  let x := run H (cliLoop fuel self
                    {| pending := frameBytes before +:+ q +:+ after;
                       final := fin |}) w in
  x = run H (steps self before
               (say CPrompt ;; say (CText "bye") ;; Done (Some tt))) w /\
  fst (fst x) = Some tt.
Proof.
  intros Hfs Hf Hqs Hq Hfuel Hafter x.
  assert (Hx : x = run H (steps self before
                            (say CPrompt ;; say (CText "bye") ;;
                             Done (Some tt))) w).
  { subst x.
    replace fuel with (length before + S (fuel - length before - 1))%nat
      by lia.
    rewrite (run_lines self before (q +:+ after) fin _ w Hfs Hqs).
    assert (E : forall n,
              cliLoop (S n) self {| pending := q +:+ after; final := fin |}
              = (say CPrompt ;; say (CText "bye") ;; Done (Some tt))).
    { intros n. destruct Hafter as [->|[rest ->]].
      - rewrite string_app_nil_r, (cliLoop_last _ _ _ _ Hf).
        rewrite (command_quit self q Hq). reflexivity.
      - rewrite (cliLoop_line _ _ _ _ _ Hf).
        rewrite (command_quit self q Hq). reflexivity. }
    rewrite E. reflexivity. }
  split; [exact Hx|]. rewrite Hx. clear. revert w.
  induction before as [|f fs IH]; intros w.
  - cbn [steps]. rewrite !run_say_bind. reflexivity.
  - cbn [steps]. rewrite run_say_bind, run_bind.
    destruct (run H (command self f) _) as [[q' w1] t1].
    specialize (IH w1).
    destruct (run H (steps self fs _) w1) as [[r w2] t2]. exact IH.
Qed.

(** X11.  Without quit or exit the loop never returns.  It runs the
    command of every line, the text after the last newline included,
    and, the error of the read being dropped, goes on reading at the end
    of the input: every further iteration prints the prompt and nothing
    else. *)
Theorem loop_never_returns (self : PeerID) (frames : list string)
    (partial : string) (fin : error) (w : W) :
  Forall isFrame frames -> isFrame partial ->
  Forall (fun f => quits f = false) frames -> quits partial = false ->
  let r := {| pending := frameBytes frames +:+ partial; final := fin |} in
  (forall n,
     run H (cliLoop (length frames + S n) self r) w
     = run H (steps self (frames ++ [partial]) (idle n)) w) /\
  (forall fuel, fst (fst (run H (cliLoop fuel self r) w)) = None).
Proof.
  intros Hfs Hp Hqs Hq r. subst r. split.
  - intros n. rewrite (run_lines self frames partial fin _ w Hfs Hqs).
    clear Hfs Hqs. revert w.
    induction frames as [|f fs IH]; intros w.
    + cbn [app steps]. rewrite (cliLoop_last _ _ _ _ Hp).
      rewrite (run_iteration self partial _ w Hq).
      rewrite !run_say_bind, !run_bind.
      destruct (run H (command self partial) _) as [[q' w1] t1].
      rewrite run_idle. reflexivity.
    + cbn [app steps]. rewrite !run_say_bind, !run_bind.
      destruct (run H (command self f) _) as [[q' w1] t1].
      rewrite (IH w1). reflexivity.
  - intros fuel. revert frames partial Hfs Hp Hqs Hq w.
    induction fuel as [|fuel IH]; intros frames partial Hfs Hp Hqs Hq w;
      [reflexivity|].
    destruct frames as [|f fs].
    + change (frameBytes [] +:+ partial) with partial.
      rewrite (cliLoop_last _ _ _ _ Hp).
      rewrite (run_iteration self partial _ w Hq).
      rewrite !run_say_bind, !run_bind.
      destruct (run H (command self partial) _) as [[q' w1] t1].
      specialize (IH [] "" (List.Forall_nil _)
                    ltac:(unfold isFrame; simpl; tauto)
                    (List.Forall_nil _) eq_refl w1).
      change (frameBytes [] +:+ "") with "" in IH.
      destruct (run H (cliLoop fuel self _) w1) as [[r w2] t2]. exact IH.
    + pose proof (Forall_inv Hfs) as Hf.
      pose proof (Forall_inv_tail Hfs) as Hfs'.
      pose proof (Forall_inv Hqs) as Hqf.
      pose proof (Forall_inv_tail Hqs) as Hqs'.
      change (frameBytes (f :: fs)) with (f +:+ String nl (frameBytes fs)).
      rewrite append_String_assoc.
      rewrite (cliLoop_line _ self f _ fin Hf).
      rewrite (run_iteration self f _ w Hqf).
      rewrite !run_say_bind, !run_bind.
      destruct (run H (command self f) _) as [[q' w1] t1].
      specialize (IH fs partial Hfs' Hp Hqs' Hq w1).
      destruct (run H (cliLoop fuel self _) w1) as [[r w2] t2]. exact IH.
Qed.

End LoopRuns.

(** ** main: the life cycle of the host *)

Section Quiet.
Context `{L : Libs}.
Local Open Scope cli_scope.

Lemma sayPeers_ordinary (peers : list PeerID) :
  only ordinary (sayPeers peers).
Proof.
  induction peers as [|p rest IH]; [exact I|]. cbn [sayPeers].
  apply only_bind; [apply only_say; intros ?; reflexivity|intros _].
  exact IH.
Qed.






End Quiet.

Section MainFacts.
Context `{L : Libs} {W : Type} (H : MainHandler W).
Local Open Scope cli_scope.

Lemma run_call_bind {X B : Type} (op : MainOp X) (f : X -> Cli B) (w : W) :
  run H (cbind (ccall op) f) w =
  let '(b, w2, t2) := run H (f (fst (H X op w))) (snd (H X op w)) in
  (b, w2, MEv op (fst (H X op w)) :: t2).
Proof. simpl. destruct (H X op w) as [x w1]. reflexivity. Qed.

Lemma lifecycle_ordinary (tr : list MainEvent) :
  Forall (fun e => match e with @MEv _ X op _ => ordinary X op end) tr ->
  omap lifecycle tr = [].
Proof.
  induction 1 as [|[X op x] tr Hop _ IH]; [reflexivity|].
  change (omap lifecycle (MEv op x :: tr))
    with (match lifecycle (MEv op x) with
          | Some y => y :: omap lifecycle tr
          | None => omap lifecycle tr
          end).
  rewrite (Hop x). exact IH.
Qed.





End MainFacts.

(** ** main without an identity *)

Section MainIdentity.
Context `{L : Libs} {W : Type} (H : MainHandler W).
Local Open Scope cli_scope.



End MainIdentity.

(** ** What a command may touch *)

Section Effects.
Context `{L : Libs}.
Local Open Scope cli_scope.

Lemma only_lift_bind {A B : Type} (P : forall X : Type, MainOp X -> Prop)
    (p : Prog A) (f : A -> Prog B) :
  only P (lift p) -> (forall a, only P (lift (f a))) ->
  only P (lift (bind p f)).
Proof.
  intros Hp Hf. induction p as [a | X op k IH]; simpl; [apply Hf|].
  destruct Hp as [Hop Hk]. split; [exact Hop|]. intros x. apply IH, Hk.
Qed.

Lemma only_lift_call {X : Type} (P : forall X : Type, MainOp X -> Prop)
    (op : Op X) :
  P X (Core op) -> only P (lift (call op)).
Proof. intros HP. simpl. split; [exact HP|intros _; exact I]. Qed.

Ltac effects :=
  repeat first
    [ exact I
    | apply only_lift_call; unfold within; cbn; intuition
    | apply only_say; unfold within; cbn; intuition
    | apply only_lift_bind; [|intros ?]
    | apply only_bind; [|intros ?] ].

Lemma store_effects (recipient from body : string) :
  only (within [OnDhtRead; OnClock; OnDhtWrite; OnConsole])
    (lift (storeOfflineMessage recipient from body)).
Proof.
  unfold storeOfflineMessage. cbv zeta. effects.
  destruct a1; effects.
Qed.

Lemma printFetched_effects (i : nat) (msgs : list Message) :
  only (within [OnDhtRead; OnConsole]) (lift (printFetched i msgs)).
Proof.
  revert i. induction msgs as [|m rest IH]; intros i; [exact I|].
  cbn [printFetched]. apply only_lift_bind; [|intros _; apply IH].
  effects.
Qed.

Lemma fetch_effects (peerID : string) :
  only (within [OnDhtRead; OnConsole]) (lift (fetchOfflineMessages peerID)).
Proof.
  unfold fetchOfflineMessages. cbv zeta. effects.
  destruct a as [val|err]; [|exact I].
  destruct (UnmarshalMessages val) as [msgs [e|]]; [exact I|].
  effects. apply printFetched_effects.
Qed.

Lemma connect_effects (addrStr : string) :
  only (within [OnPeerstore; OnDial; OnConsole]) (lift (connectPeer addrStr)).
Proof.
  unfold connectPeer. cbv zeta.
  destruct (match NewMultiaddr addrStr with
            | Ok maddr => Ok maddr
            | Err err =>
                if Contains addrStr "/p2p/" then NewMultiaddr addrStr
                else Err err
            end) as [maddr|e]; [|exact I].
  destruct (AddrInfoFromP2pAddr maddr) as [pi|e]; [|exact I].
  effects. destruct a0; effects.
Qed.

Lemma send_effects (self : PeerID) (peerIDStr body : string) :
  only (within [OnDial; OnClock; OnStream; OnConsole])
    (lift (sendMessage self peerIDStr body)).
Proof.
  unfold sendMessage.
  destruct (peer_Decode peerIDStr) as [pid|e]; [|exact I].
  effects. destruct a as [s|e]; [|exact I].
  unfold defer. effects. destruct a0; effects.
Qed.

Lemma printInvites_effects (id : string) (addrs : list Multiaddr) :
  only (within [OnHostState; OnConsole]) (lift (printInvites id addrs)).
Proof.
  induction addrs as [|a rest IH]; [exact I|].
  cbn [printInvites]. apply only_lift_bind; [|intros _; apply IH].
  effects.
Qed.

Lemma printInvite_effects (self : PeerID) :
  only (within [OnHostState; OnConsole]) (lift (printInvite self)).
Proof.
  unfold printInvite. cbv zeta. effects.
  destruct a as [|a rest]; [effects|].
  effects. apply printInvites_effects.
Qed.

Lemma sayPeers_effects (peers : list PeerID) :
  only (within [OnHostState; OnConsole]) (sayPeers peers).
Proof.
  induction peers as [|p rest IH]; [exact I|]. cbn [sayPeers].
  apply only_bind; [|intros _; exact IH]. effects.
Qed.

Lemma listPeers_effects :
  only (within [OnHostState; OnConsole]) listPeers.
Proof.
  unfold listPeers. apply only_bind.
  - simpl. split; [unfold within; cbn; intuition|intros _; exact I].
  - intros [|p peers]; [effects|].
    apply only_bind; [effects|intros _]. apply sayPeers_effects.
Qed.

Lemma report_effects (es : list Effect) (what : string)
    (err : option error) :
  In OnConsole es -> only (within es) (report what err).
Proof.
  intros Hin. destruct err; [|exact I].
  apply only_say. exact Hin.
Qed.

(** X14.  What a command may touch is fixed by its first word.  peers
    and invite read the state of the host and print; connect adds to
    the peerstore, dials and prints; msg opens a stream, reads the
    clock, writes and closes the stream and prints; store reads and
    writes the DHT, reads the clock and prints; fetch reads the DHT and
    prints; any other line only prints.  So no command reads or writes
    a file, generates a key, or creates or closes the host; fetch never
    writes to the DHT, and msg and connect never touch it. *)
Theorem command_effects (self : PeerID) (line : string) :
  only (within (mayTouch (firstWord line))) (command self line) /\
  ~ In OnFiles (mayTouch (firstWord line)) /\
  ~ In OnEntropy (mayTouch (firstWord line)) /\
  ~ In OnLifeCycle (mayTouch (firstWord line)).
Proof.
  split.
  - unfold command, firstWord. cbv zeta.
    destruct (String.eqb (TrimSpace line) ""); [exact I|].
    destruct (SplitN (TrimSpace line) " " 3) as [|cmd args]; [exact I|].
    cbn [hd].
    destruct (String.eqb_spec cmd "help") as [->|_];
      [unfold printHelp; effects|].
    destruct (String.eqb_spec cmd "peers") as [->|_].
    { apply only_bind; [apply listPeers_effects|intros _; exact I]. }
    destruct (String.eqb_spec cmd "invite") as [->|_].
    { apply only_bind; [apply printInvite_effects|intros _; exact I]. }
    destruct (String.eqb_spec cmd "connect") as [->|_].
    { destruct args as [|a rest]; [effects|].
      apply only_bind; [apply connect_effects|intros err].
      apply only_bind; [|intros _; exact I].
      apply report_effects. cbn. intuition. }
    destruct (String.eqb_spec cmd "msg") as [->|_].
    { destruct args as [|a [|b rest]]; [effects|effects|].
      apply only_bind; [apply send_effects|intros err].
      apply only_bind; [|intros _; exact I].
      apply report_effects. cbn. intuition. }
    destruct (String.eqb_spec cmd "store") as [->|_].
    { destruct args as [|a [|b rest]]; [effects|effects|].
      apply only_bind; [apply store_effects|intros err].
      apply only_bind; [|intros _; exact I].
      apply report_effects. cbn. intuition. }
    destruct (String.eqb_spec cmd "fetch") as [->|_].
    { destruct args as [|a rest]; [effects|].
      apply only_bind; [apply fetch_effects|intros err].
      apply only_bind; [|intros _; exact I].
      apply report_effects. cbn. intuition. }
    assert (Hc : In OnConsole (mayTouch cmd)).
    { unfold mayTouch.
      repeat match goal with
        | |- context [if ?b then _ else _] => destruct b
        end; cbn; intuition. }
    destruct (String.eqb cmd "id");
      [apply only_bind; [apply only_say; exact Hc|intros _; exact I]|].
    destruct (String.eqb cmd "quit" || String.eqb cmd "exit");
      apply only_bind; try (intros _; exact I); apply only_say; exact Hc.
  - unfold mayTouch.
    repeat match goal with
      | |- context [if ?b then _ else _] => destruct b
      end; cbn; intuition discriminate.
Qed.

End Effects.

(** ** listPeers *)

Section PeersFacts.
Context `{L : Libs} {W : Type} (H : MainHandler W).
Local Open Scope cli_scope.

Lemma sayPeers_run (peers : list PeerID) (w : W) :
  omap said (snd (run H (sayPeers peers) w))
  = map (fun p => CPeer (peer_String p)) peers /\
  omap coreOf (snd (run H (sayPeers peers) w)) = [].
Proof.
  revert w. induction peers as [|p rest IH]; intros w; [split; reflexivity|].
  cbn [sayPeers]. rewrite run_say_bind.
  destruct (IH (snd (H _ (Say (CPeer (peer_String p))) w))) as [H1 H2].
  destruct (run H (sayPeers rest) _) as [[[] w2] t2]. cbn [fst snd] in *.
  split.
  - change (omap said (MEv (Say ?l) tt :: t2)) with (l :: omap said t2).
    rewrite H1. reflexivity.
  - change (omap coreOf (MEv (Say ?l) tt :: t2)) with (omap coreOf t2).
    exact H2.
Qed.

(** X15.  listPeers asks the host for its connected peers.  With no
    connected peer it prints "no connected peers" and nothing else;
    otherwise it prints the heading and then one line per peer, in the
    order the host gave them.  It dials nothing, opens no stream and
    touches neither the DHT nor the life cycle of the host. *)
Theorem listPeers_lists_peers (w : W) :
  let peers := fst (H _ NetworkPeers w) in
  let tr := snd (run H listPeers w) in
  omap said tr
  = match peers with
    | [] => [CText "no connected peers"]
    | _ => CText "connected peers:"
           :: map (fun p => CPeer (peer_String p)) peers
    end /\
  omap coreOf tr = [] /\
  omap lifecycle tr = [].
Proof.
  intros peers tr. subst tr. unfold listPeers. rewrite run_call_bind.
  fold peers. destruct peers as [|p rest] eqn:E.
  - simpl. destruct (H unit (Say _) _) as [[] w1]. repeat split.
  - rewrite run_say_bind.
    destruct (sayPeers_run (p :: rest)
                (snd (H _ (Say (CText "connected peers:"))
                        (snd (H _ NetworkPeers w))))) as [H1 H2].
    pose proof (lifecycle_ordinary _
                  (run_only H ordinary (sayPeers (p :: rest))
                     (snd (H _ (Say (CText "connected peers:"))
                             (snd (H _ NetworkPeers w))))
                     (sayPeers_ordinary (p :: rest)))) as H3.
    destruct (run H (sayPeers (p :: rest)) _) as [[[] w2] t2].
    cbn [fst snd] in *.
    change (omap said (MEv NetworkPeers ?x :: MEv (Say ?l) tt :: t2))
      with (l :: omap said t2).
    change (omap coreOf (MEv NetworkPeers ?x :: MEv (Say ?l) tt :: t2))
      with (omap coreOf t2).
    change (omap lifecycle (MEv NetworkPeers ?x :: MEv (Say ?l) tt :: t2))
      with (omap lifecycle t2).
    rewrite H1, H2, H3. repeat split.
Qed.

End PeersFacts.

(** ** The further properties at concrete inputs *)

Lemma fetch_lists_in_order_witness :
  printedOf (snd (exec Ref.world (@fetchOfflineMessages Ref.libs "X")
                    Examples.steadyWorld))
  = [LnFetched 1; LnFetchedMessage 1 Examples.oldMessage].
Proof.
  destruct fetch_lists_in_order as [Hgen _].
  destruct (Hgen Ref.libs Ref.World Ref.world Examples.steadyWorld "X")
    as (_ & H & _).
  destruct (H (Ref.MarshalMessages [Examples.oldMessage])
              [Examples.oldMessage]) as (_ & Hp & _).
  - vm_compute. reflexivity.
  - vm_compute. reflexivity.
  - rewrite Hp. reflexivity.
Defined.

Lemma connect_rejects_bad_invite_witness :
  fst (fst (exec Ref.world (@connectPeer Ref.libs "ip4/127.0.0.1/p2p/x")
              Ref.empty))
  = Some (ErrLib "must begin with /") /\
  Ref.peerstore
    (snd (fst (exec Ref.world
                 (@connectPeer Ref.libs "/ip4/127.0.0.1/tcp/4001")
                 Ref.empty)))
  = [].
Proof.
  split.
  - destruct (@connect_rejects_bad_invite Ref.libs Ref.World Ref.world
                Ref.empty "ip4/127.0.0.1/p2p/x") as [H _].
    rewrite (H (ErrLib "must begin with /")); [reflexivity|].
    vm_compute. reflexivity.
  - destruct (@connect_rejects_bad_invite Ref.libs Ref.World Ref.world
                Ref.empty "/ip4/127.0.0.1/tcp/4001") as [_ H].
    rewrite (H [("ip4", "127.0.0.1"); ("tcp", "4001")]
               (ErrLib "invalid p2p multiaddr")); [reflexivity| |].
    + vm_compute. reflexivity.
    + vm_compute. reflexivity.
Defined.

Lemma send_then_receive_witness :
  let sent := exec Ref.world
                (@sendMessage Ref.libs "12D3KooWbob" "12D3KooWalice" "hi")
                Examples.onlineWorld in
  let r := {| pending := streamBytes (omap (wroteOn 0%nat) (snd sent));
              final := EOF |} in
  printedOf (snd (exec Ref.world
                    (@streamHandler Ref.libs 7%nat "12D3KooWbob" r)
                    Ref.empty))
  = [LnMessage Examples.hi].
Proof.
  intros sent r.
  pose proof (@send_then_receive Ref.libs Ref.World Ref.World Ref.world
                Ref.world Examples.onlineWorld "12D3KooWbob"
                "12D3KooWalice" "12D3KooWalice" "hi" 0%nat
                Ref.empty 7%nat "12D3KooWbob") as H.
  cbv zeta in H. fold sent in H. fold r in H. rewrite H.
  - vm_compute. reflexivity.
  - vm_compute. reflexivity.
  - vm_compute. reflexivity.
  - vm_compute. reflexivity.
  - apply frameb_isFrame. vm_compute. reflexivity.
  - apply plainEnds_noSpaceAtEnds. vm_compute. reflexivity.
  - vm_compute. reflexivity.
Defined.

Lemma command_arguments_witness :
  (@command Ref.libs "12D3KooWbob" "  msg 12D3KooWalice  see you  soon "
   = (err <- lift (@sendMessage Ref.libs "12D3KooWbob" "12D3KooWalice"
                     " see you  soon") ;;
      report "send error:" err ;; Done false))%cli /\
  (@command Ref.libs "12D3KooWbob" "fetch 12D3KooWalice and more"
   = (err <- lift (@fetchOfflineMessages Ref.libs "12D3KooWalice") ;;
      report "fetch error:" err ;; Done false))%cli.
Proof.
  assert (Hw : oneWord "12D3KooWalice")
    by (apply oneWord_literal; vm_compute; reflexivity).
  split.
  - destruct (@command_arguments Ref.libs "12D3KooWbob"
                "  msg 12D3KooWalice  see you  soon " "12D3KooWalice"
                " see you  soon" Hw) as (H & _).
    apply H. vm_compute. reflexivity.
  - destruct (@command_arguments Ref.libs "12D3KooWbob"
                "fetch 12D3KooWalice and more" "12D3KooWalice"
                "and more" Hw) as (_ & _ & _ & H).
    apply H. right. vm_compute. reflexivity.
Defined.

Lemma command_without_arguments_witness :
  (@command Ref.libs "12D3KooWbob" "store 12D3KooWalice "
   = (say (CText "usage: store <peerID> <text>") ;; Done false))%cli /\
  @command Ref.libs "12D3KooWbob" "   " = Done false.
Proof.
  destruct (@command_without_arguments Ref.libs "12D3KooWbob"
              "store 12D3KooWalice " "12D3KooWalice")
    as (_ & _ & _ & _ & H1).
  destruct (@command_without_arguments Ref.libs "12D3KooWbob" "   " "")
    as (H2 & _).
  split.
  - apply H1. right. split; [|vm_compute; reflexivity].
    apply oneWord_literal. vm_compute. reflexivity.
  - apply H2. exists [[" "%char]; [" "%char]; [" "%char]].
    split; [|reflexivity]. repeat constructor.
Defined.

Lemma loop_runs_until_quit_witness :
  let stdin := {| pending := frameBytes ["id"; "msg"; "nonsense"]
                             +:+ "exit now" +:+ String nl "id";
                  final := EOF |} in
  let x := run RefMain.shell (@cliLoop Ref.libs 9 "12D3KooWbob" stdin)
             (RefMain.over Ref.empty) in
  fst (fst x) = Some tt /\
  RefMain.screen (snd (fst x))
  = [CPrompt; CId "12D3KooWbob";
     CPrompt; CText "usage: msg <peerID> <message>";
     CPrompt; CText "unknown command. type 'help'";
     CPrompt; CText "bye"].
Proof.
  intros stdin x.
  destruct (@loop_runs_until_quit Ref.libs RefMain.Shell RefMain.shell
              "12D3KooWbob" ["id"; "msg"; "nonsense"] "exit now"
              (String nl "id") EOF 9 (RefMain.over Ref.empty))
    as [Hx Hr].
  - repeat constructor; apply frameb_isFrame; vm_compute; reflexivity.
  - apply frameb_isFrame. vm_compute. reflexivity.
  - repeat constructor.
  - vm_compute. reflexivity.
  - simpl. lia.
  - right. eexists. reflexivity.
  - split; [exact Hr|]. subst x stdin. rewrite Hx. vm_compute. reflexivity.
Defined.

Lemma loop_never_returns_witness :
  let stdin := {| pending := frameBytes ["id"] +:+ "peers"; final := EOF |} in
  (forall fuel,
     fst (fst (run RefMain.shell (@cliLoop Ref.libs fuel "12D3KooWbob" stdin)
                 (RefMain.over Ref.empty))) = None) /\
  RefMain.screen
    (snd (fst (run RefMain.shell (@cliLoop Ref.libs 4 "12D3KooWbob" stdin)
                 (RefMain.over Ref.empty))))
  = [CPrompt; CId "12D3KooWbob"; CPrompt; CText "no connected peers";
     CPrompt; CPrompt].
Proof.
  intros stdin.
  destruct (@loop_never_returns Ref.libs RefMain.Shell RefMain.shell
              "12D3KooWbob" ["id"] "peers" EOF (RefMain.over Ref.empty))
    as [Hrun Hnone].
  - repeat constructor. apply frameb_isFrame. vm_compute. reflexivity.
  - apply frameb_isFrame. vm_compute. reflexivity.
  - repeat constructor.
  - vm_compute. reflexivity.
  - split; [exact Hnone|]. subst stdin.
    change 4%nat with (length ["id"] + 3)%nat.
    rewrite (Hrun 2%nat). vm_compute. reflexivity.
Defined.


Lemma handler_shows_claimed_sender_witness :
  let r := {| pending := frameBytes [Ref.MarshalMessage Examples.hi];
              final := EOF |} in
  printedOf (snd (exec Ref.world
                    (@streamHandler Ref.libs 0%nat "12D3KooWmallory" r)
                    Ref.empty))
  = [LnMessage Examples.hi] /\
  From Examples.hi = "12D3KooWbob".
Proof.
  intros r.
  destruct (@handler_shows_claimed_sender Ref.libs Ref.World Ref.world
              Ref.empty 0%nat "12D3KooWmallory" "12D3KooWbob"
              (frameBytes [Ref.MarshalMessage Examples.hi]) EOF)
    as [_ H].
  - assert (E : fst (splitLines (frameBytes [Ref.MarshalMessage Examples.hi]))
               = [Ref.MarshalMessage Examples.hi])
      by (vm_compute; reflexivity).
    rewrite E. constructor; [|constructor].
    assert (Ea : @accepted Ref.libs (lineOf (Ref.MarshalMessage Examples.hi))
                 = Some Examples.hi)
      by (vm_compute; reflexivity).
    rewrite Ea. discriminate.
  - split; [|reflexivity]. subst r. rewrite H. vm_compute. reflexivity.
Defined.
